(** * Verification of [gulp/task-build-lang.js] (class [BuildLangTask])

    The task merges the per-component language files of one language into
    a single JSON file.  This development embeds the three methods of the
    class ([addProperties], [treatFile], [treatMergedData]) and the path
    mapping at the beginning of [run], together with the parts of the
    JavaScript platform they rest on (strings as sequences of UTF-16 code
    units, ordinary objects with their property order, [Array.prototype.sort],
    [JSON.stringify] with an indentation of four, UTF-8 encoding of a
    buffer), and proves properties of them. *)

From Stdlib Require Import Ascii String.
From Stdlib Require Import List NArith ZArith Bool Lia.
From Stdlib Require Import Strings.Byte DecimalString DecimalPos DecimalN.
From Stdlib Require Import Sorted Permutation.
Import ListNotations.

Set Implicit Arguments.
Set Warnings "-register-all".

(* ================================================================== *)
(** * Part I: definitions *)
(* ================================================================== *)

(** ** JavaScript strings

    A JavaScript string is a finite sequence of 16-bit code units. *)

Definition codeunit := N.
Definition jsstring := list codeunit.

(** A string literal of the source, written with ASCII characters. *)
Definition lit (s : string) : jsstring :=
  map N_of_ascii (list_ascii_of_string s).

Fixpoint str_eqb (s t : jsstring) : bool :=
  match s, t with
  | [], [] => true
  | c :: s', d :: t' => N.eqb c d && str_eqb s' t'
  | _, _ => false
  end.

(** [s.length], [s.substr(start)], [s.slice(-1)]. *)
Definition strlen (s : jsstring) : Z := Z.of_nat (length s).

Definition substr (s : jsstring) (start : Z) : jsstring :=
  let from := if (start <? 0)%Z then Z.max (strlen s + start) 0 else start in
  skipn (Z.to_nat from) s.

Definition slice_last (s : jsstring) : jsstring :=
  skipn (length s - 1) s.

Fixpoint starts_with (pat s : jsstring) : bool :=
  match pat, s with
  | [], _ => true
  | p :: pat', c :: s' => N.eqb p c && starts_with pat' s'
  | _ :: _, [] => false
  end.

(** [s.lastIndexOf(pat)]: the greatest position at which [pat] occurs in
    [s], and [-1] when it occurs nowhere.  [last_index_from pat i s] scans
    the suffix [s] of the string, which begins at position [i]. *)
Fixpoint last_index_from (pat : jsstring) (i : Z) (s : jsstring) : Z :=
  match s with
  | [] => if starts_with pat [] then i else (-1)%Z
  | _ :: s' =>
      let later := last_index_from pat (i + 1) s' in
      if (0 <=? later)%Z then later
      else if starts_with pat s then i else (-1)%Z
  end.

Definition lastIndexOf (s pat : jsstring) : Z := last_index_from pat 0 s.

(** [s.indexOf(pat) != -1], used to state that a string occurs in another. *)
Fixpoint includes (s pat : jsstring) : bool :=
  starts_with pat s ||
  match s with
  | [] => false
  | _ :: s' => includes s' pat
  end.

(** [filepath.split(/[\/\\]/)]: the pieces between the separators [/] and
    [\]; a string with [n] separators has [n + 1] pieces. *)
Definition is_separator (c : codeunit) : bool :=
  N.eqb c 47 || N.eqb c 92.

Fixpoint split_path (s : jsstring) : list jsstring :=
  match s with
  | [] => [[]]
  | c :: s' =>
      if is_separator c then [] :: split_path s'
      else match split_path s' with
           | piece :: pieces => (c :: piece) :: pieces
           | [] => [[c]]
           end
  end.

(** [array.join(sep)] on an array of strings. *)
Fixpoint join (sep : jsstring) (pieces : list jsstring) : jsstring :=
  match pieces with
  | [] => []
  | [p] => p
  | p :: rest => p ++ sep ++ join sep rest
  end.

(** Reading an array element that may be missing gives [undefined], which
    string concatenation prints as [undefined]. *)
Definition to_string (x : option jsstring) : jsstring :=
  match x with
  | Some s => s
  | None => lit "undefined"
  end.

(** [x == 'text'] for [x] a string or [undefined]. *)
Definition loosely_equal (x : option jsstring) (t : jsstring) : bool :=
  match x with
  | Some s => str_eqb s t
  | None => false
  end.

(** Truthiness of a value that is a string or [undefined]. *)
Definition truthy (x : option jsstring) : bool :=
  match x with
  | Some (_ :: _) => true
  | _ => false
  end.

(** The decimal text of a natural number, as [String(i)] prints an index. *)
Definition decimal (n : N) : jsstring :=
  lit (DecimalString.NilZero.string_of_uint (N.to_uint n)).

(** ** Properties in enumeration order

    The own properties of an ordinary object are enumerated with the array
    indices first, in ascending order, and then the other keys in the order
    of their creation.  A list of pairs holds them in that order. *)

(** An array index is a canonical numeric string below [2^32 - 1]. *)
Definition digit_value (c : codeunit) : option N :=
  if N.leb 48 c && N.leb c 57 then Some (c - 48)%N else None.

Fixpoint digits_value (acc : N) (s : jsstring) : option N :=
  match s with
  | [] => Some acc
  | c :: s' =>
      match digit_value c with
      | Some d => digits_value (10 * acc + d)%N s'
      | None => None
      end
  end.

Definition array_index (k : jsstring) : option N :=
  match digits_value 0 k with
  | Some n =>
      if str_eqb (decimal n) k && N.leb n 4294967294 then Some n else None
  | None => None
  end.

Section Properties.

Variable A : Type.

Fixpoint lookup (props : list (jsstring * A)) (k : jsstring) : option A :=
  match props with
  | [] => None
  | (k', v) :: rest => if str_eqb k' k then Some v else lookup rest k
  end.

Definition has_key (props : list (jsstring * A)) (k : jsstring) : bool :=
  match lookup props k with
  | Some _ => true
  | None => false
  end.

Fixpoint replace (k : jsstring) (v : A) (props : list (jsstring * A))
  : list (jsstring * A) :=
  match props with
  | [] => []
  | (k', v') :: rest =>
      if str_eqb k' k then (k', v) :: rest else (k', v') :: replace k v rest
  end.

Fixpoint insert_index (n : N) (k : jsstring) (v : A)
  (props : list (jsstring * A)) : list (jsstring * A) :=
  match props with
  | [] => [(k, v)]
  | (k', v') :: rest =>
      match array_index k' with
      | Some m =>
          if N.ltb m n then (k', v') :: insert_index n k v rest
          else (k, v) :: props
      | None => (k, v) :: props
      end
  end.

(** Creating a property that the object does not have yet. *)
Definition add_property (k : jsstring) (v : A) (props : list (jsstring * A))
  : list (jsstring * A) :=
  match array_index k with
  | Some n => insert_index n k v props
  | None => props ++ [(k, v)]
  end.

(** Defining an own property, new or not. *)
Definition define (props : list (jsstring * A)) (member : jsstring * A)
  : list (jsstring * A) :=
  if has_key props (fst member)
  then replace (fst member) (snd member) props
  else add_property (fst member) (snd member) props.

(** The properties of the object that [JSON.parse] builds from the members
    of an object text, defining them one after another: a key that occurs
    twice keeps its first place and its last value. *)
Definition object_of (members : list (jsstring * A)) : list (jsstring * A) :=
  fold_left define members [].

Fixpoint indexed (i : N) (l : list A) : list (jsstring * A) :=
  match l with
  | [] => []
  | x :: l' => (decimal i, x) :: indexed (N.succ i) l'
  end.

End Properties.

(** ** Values

    The values [JSON.parse] returns.  A number is carried as the text that
    [Number.prototype.toString] prints for it, which is all the task ever
    does with one.  An object is carried as the members of its text, in the
    order of the text; its properties are [object_of members]. *)

Inductive jsvalue : Type :=
| JNull
| JBool (b : bool)
| JNumber (shown : jsstring)
| JString (s : jsstring)
| JArray (elems : list jsvalue)
| JObject (members : list (jsstring * jsvalue)).

Definition properties := list (jsstring * jsvalue).

(** [for (let property in source)] paired with [source[property]]: the
    enumerable properties of a value.  An array and a string enumerate their
    indices, a number, a boolean and [null] enumerate nothing. *)
Definition enumerate (source : jsvalue) : properties :=
  match source with
  | JObject members => object_of members
  | JArray elems => indexed 0 elems
  | JString s => indexed 0 (map (fun c => JString [c]) s)
  | JNull | JBool _ | JNumber _ => []
  end.

(** ** Ordinary objects

    [data], [merged] and [mergedOrdered] are objects created by [{}].  Such
    an object has its own properties and a prototype: [Object.prototype] at
    creation, later whatever an assignment to the key [__proto__]
    installs. *)

Inductive prototype : Type :=
| ObjectPrototype
| NullPrototype
| ValuePrototype (p : jsvalue).

Record jsobject : Type := mkObject {
  own : properties;
  proto : prototype
}.

Definition new_object : jsobject := mkObject [] ObjectPrototype.

Definition proto_key : jsstring := lit "__proto__".

(** Whether an assignment to [__proto__] reaches the accessor of
    [Object.prototype]: not when the prototype is [null], and not when the
    installed prototype has a data property of that name of its own. *)
Definition setter_reachable (o : jsobject) : bool :=
  match proto o with
  | ObjectPrototype => true
  | NullPrototype => false
  | ValuePrototype p => negb (has_key (enumerate p) proto_key)
  end.

(** [o[k] = v]. *)
Definition put (o : jsobject) (k : jsstring) (v : jsvalue) : jsobject :=
  if has_key (own o) k then mkObject (replace k v (own o)) (proto o)
  else if str_eqb k proto_key && setter_reachable o then
    match v with
    | JObject _ | JArray _ => mkObject (own o) (ValuePrototype v)
    | JNull => mkObject (own o) NullPrototype
    | JBool _ | JNumber _ | JString _ => o
    end
  else mkObject (add_property k v (own o)) (proto o).

(** The enumerable properties an object inherits from its prototype. *)
Definition inherited (o : jsobject) : properties :=
  match proto o with
  | ValuePrototype p => enumerate p
  | ObjectPrototype | NullPrototype => []
  end.

(** [for (let k in o)]: the own keys, then the inherited keys that no own
    property shadows. *)
Definition for_in (o : jsobject) : list jsstring :=
  map fst (own o)
  ++ filter (fun k => negb (has_key (own o) k)) (map fst (inherited o)).

(** [Object.keys(o)]. *)
Definition keys (o : jsobject) : list jsstring := map fst (own o).

(** [o[k]], for a key that [for_in] or [keys] gave; [None] is [undefined]. *)
Definition get (o : jsobject) (k : jsstring) : option jsvalue :=
  match lookup (own o) k with
  | Some v => Some v
  | None => lookup (inherited o) k
  end.

(** ** [Array.prototype.sort] without a comparator

    The elements are compared as strings, code unit by code unit, a proper
    prefix coming before the longer string.  The keys sorted here are
    pairwise distinct, so every sorting algorithm returns the same array;
    insertion keeps the definition short. *)

Fixpoint str_ltb (s t : jsstring) : bool :=
  match s, t with
  | _, [] => false
  | [], _ :: _ => true
  | c :: s', d :: t' => N.ltb c d || (N.eqb c d && str_ltb s' t')
  end.

Fixpoint insert_key (k : jsstring) (l : list jsstring) : list jsstring :=
  match l with
  | [] => [k]
  | h :: t => if str_ltb h k then h :: insert_key k t else k :: l
  end.

Definition sort (l : list jsstring) : list jsstring :=
  fold_right insert_key [] l.

(** ** [JSON.stringify(value, null, 4)] *)

Definition is_high_surrogate (c : codeunit) : bool :=
  N.leb 55296 c && N.leb c 56319.

Definition is_low_surrogate (c : codeunit) : bool :=
  N.leb 56320 c && N.leb c 57343.

Definition hex_digit (n : N) : codeunit :=
  if N.ltb n 10 then (48 + n)%N else (87 + n)%N.

Definition backslash : codeunit := 92%N.
Definition double_quote : codeunit := 34%N.
Definition line_feed : codeunit := 10%N.

(** [\uXXXX] with lower-case hexadecimal digits. *)
Definition unicode_escape (c : codeunit) : jsstring :=
  [backslash; 117%N;
   hex_digit ((c / 4096) mod 16)%N; hex_digit ((c / 256) mod 16)%N;
   hex_digit ((c / 16) mod 16)%N; hex_digit (c mod 16)%N].

(** The text of one code unit that is not the first half of a pair. *)
Definition escape_unit (c : codeunit) : jsstring :=
  if N.eqb c 8 then [backslash; 98%N]
  else if N.eqb c 9 then [backslash; 116%N]
  else if N.eqb c 10 then [backslash; 110%N]
  else if N.eqb c 12 then [backslash; 102%N]
  else if N.eqb c 13 then [backslash; 114%N]
  else if N.eqb c 34 then [backslash; double_quote]
  else if N.eqb c 92 then [backslash; backslash]
  else if N.ltb c 32 || is_low_surrogate c then unicode_escape c
  else [c].

(** The string is read code point by code point: a surrogate pair is kept,
    a surrogate on its own is escaped. *)
Fixpoint quote_units (s : jsstring) : jsstring :=
  match s with
  | [] => []
  | c :: rest =>
      if is_high_surrogate c then
        match rest with
        | d :: rest' =>
            if is_low_surrogate d then c :: d :: quote_units rest'
            else unicode_escape c ++ quote_units rest
        | [] => unicode_escape c
        end
      else escape_unit c ++ quote_units rest
  end.

Definition quote (s : jsstring) : jsstring :=
  [double_quote] ++ quote_units s ++ [double_quote].

Definition gap : jsstring := lit "    ".

Definition not_finite (shown : jsstring) : bool :=
  str_eqb shown (lit "Infinity") || str_eqb shown (lit "-Infinity")
  || str_eqb shown (lit "NaN").

(** The text of an object whose members are printed already: [stepback]
    is the indentation of the object, the members are indented by [gap]
    more. *)
Definition print_object (stepback : jsstring)
  (printed : list (jsstring * jsstring)) : jsstring :=
  match printed with
  | [] => lit "{}"
  | _ :: _ =>
      let indent := stepback ++ gap in
      lit "{" ++ [line_feed] ++ indent
      ++ join (lit "," ++ [line_feed] ++ indent)
              (map (fun kt => quote (fst kt) ++ lit ": " ++ snd kt) printed)
      ++ [line_feed] ++ stepback ++ lit "}"
  end.

Definition print_array (stepback : jsstring) (printed : list jsstring)
  : jsstring :=
  match printed with
  | [] => lit "[]"
  | _ :: _ =>
      let indent := stepback ++ gap in
      lit "[" ++ [line_feed] ++ indent
      ++ join (lit "," ++ [line_feed] ++ indent) printed
      ++ [line_feed] ++ stepback ++ lit "]"
  end.

(** [stringify indent v] is the text of [v] printed at the indentation
    [indent]. *)
Fixpoint stringify (indent : jsstring) (v : jsvalue) : jsstring :=
  match v with
  | JNull => lit "null"
  | JBool true => lit "true"
  | JBool false => lit "false"
  | JNumber shown => if not_finite shown then lit "null" else shown
  | JString s => quote s
  | JArray elems =>
      print_array indent (map (stringify (indent ++ gap)) elems)
  | JObject members =>
      print_object indent
        (object_of
           (map (fun kv => (fst kv, stringify (indent ++ gap) (snd kv)))
                members))
  end.

(** [JSON.stringify(o, null, 4)] for an ordinary object [o]. *)
Definition JSON_stringify (o : jsobject) : jsstring :=
  print_object [] (map (fun kv => (fst kv, stringify gap (snd kv))) (own o)).

(** ** [bufferFrom(string)]: the UTF-8 encoding of a string

    A surrogate pair is one code point; a surrogate on its own is encoded
    as the replacement character U+FFFD. *)

Definition octet (n : N) : byte :=
  match Byte.of_N n with
  | Some b => b
  | None => x00
  end.

Definition utf8_codepoint (cp : N) : list byte :=
  if N.ltb cp 128 then [octet cp]
  else if N.ltb cp 2048 then
    [octet (192 + cp / 64)%N; octet (128 + cp mod 64)%N]
  else if N.ltb cp 65536 then
    [octet (224 + cp / 4096)%N; octet (128 + (cp / 64) mod 64)%N;
     octet (128 + cp mod 64)%N]
  else
    [octet (240 + cp / 262144)%N; octet (128 + (cp / 4096) mod 64)%N;
     octet (128 + (cp / 64) mod 64)%N; octet (128 + cp mod 64)%N].

Definition pair_codepoint (hi lo : codeunit) : N :=
  (65536 + (hi - 55296) * 1024 + (lo - 56320))%N.

Definition replacement_character : N := 65533%N.

Fixpoint bufferFrom (s : jsstring) : list byte :=
  match s with
  | [] => []
  | c :: rest =>
      if is_high_surrogate c then
        match rest with
        | d :: rest' =>
            if is_low_surrogate d
            then utf8_codepoint (pair_codepoint c d) ++ bufferFrom rest'
            else utf8_codepoint replacement_character ++ bufferFrom rest
        | [] => utf8_codepoint replacement_character
        end
      else if is_low_surrogate c
      then utf8_codepoint replacement_character ++ bufferFrom rest
      else utf8_codepoint c ++ bufferFrom rest
  end.

(** The code points of a string, for comparing strings by code point. *)
Fixpoint codepoints (s : jsstring) : list N :=
  match s with
  | [] => []
  | c :: rest =>
      if is_high_surrogate c then
        match rest with
        | d :: rest' =>
            if is_low_surrogate d then pair_codepoint c d :: codepoints rest'
            else c :: codepoints rest
        | [] => [c]
        end
      else c :: codepoints rest
  end.

(** ** The task *)

(** A file of the stream: [file.path] and [file.contents], which is
    [null], a stream or a buffer ([file.isNull()], [file.isStream()]). *)
Inductive file_contents : Type :=
| NullContents
| StreamContents
| BufferContents (bytes : list byte).

Record vinyl : Type := mkFile {
  path : jsstring;
  contents : file_contents
}.

(** What [JSON.parse] does with a text: it returns a value or throws a
    [SyntaxError] with a message. *)
Inductive parse_result : Type :=
| Parsed (v : jsvalue)
| SyntaxError (message : jsstring).

(** [String(err)] for the error thrown: [Error.prototype.toString]. *)
Definition error_to_string (message : jsstring) : jsstring :=
  match message with
  | [] => lit "SyntaxError"
  | _ :: _ => lit "SyntaxError" ++ lit ": " ++ message
  end.

Module BuildLangTask.

(** [addProperties(target, source, prefix)]. *)
Definition addProperties (target : jsobject) (source : jsvalue)
  (prefix : jsstring) : jsobject :=
  fold_left (fun target property_value =>
               put target (prefix ++ fst property_value) (snd property_value))
            (enumerate source) target.

(** The mapping at the beginning of [run]: the path of the language file in
    each of the directories [langPaths]. *)
Definition langFile (language path : jsstring) : jsstring :=
  let path :=
    if negb (str_eqb (slice_last path) (lit "/")) then path ++ lit "/"
    else path in
  path ++ language ++ lit ".json".

Definition paths (language : jsstring) (langPaths : list jsstring)
  : list jsstring :=
  map (langFile language) langPaths.

(** The key under which [treatFile] stores a file: what follows the last
    [/src/] of its path, or the last [\src\] when there is no [/src/]. *)
Definition storedPath (path : jsstring) : jsstring :=
  let srcPos := lastIndexOf path (lit "/src/") in
  let srcPos :=
    if Z.eqb srcPos (-1)
    then lastIndexOf path ([backslash] ++ lit "src" ++ [backslash])
    else srcPos in
  substr path (srcPos + 5).

Section TreatFile.

(** [JSON.parse(file.contents.toString())] belongs to the platform: the
    task is verified for whatever it computes from the bytes of a buffer. *)
Variable JSON_parse : list byte -> parse_result.

(** [treatFile(file, data)]: the new [data] and the lines written to the
    console. *)
Definition treatFile (file : vinyl) (data : jsobject)
  : jsobject * list jsstring :=
  match contents file with
  | NullContents | StreamContents => (data, [])
  | BufferContents bytes =>
      let path := storedPath (path file) in
      match JSON_parse bytes with
      | Parsed v => (put data path v, [])
      | SyntaxError message =>
          (data, [lit "Error parsing JSON: " ++ error_to_string message])
      end
  end.

(** The first callback of [through] applied to the files of the stream in
    their order; the console lines accumulate. *)
Definition treatFiles (files : list vinyl) (data : jsobject)
  : jsobject * list jsstring :=
  fold_left (fun state file =>
               let (data', lines) := treatFile file (fst state) in
               (data', snd state ++ lines))
            files (data, []).

End TreatFile.

(** The body of the loop of [treatMergedData] up to the computation of
    [prefix]; [None] is [undefined]. *)
Definition prefixOf (filepath : jsstring) : option jsstring :=
  let pathSplit := removelast (split_path filepath) in
  match nth_error pathSplit 0 with
  | None => None
  | Some root =>
      if str_eqb root (lit "lang") then Some (lit "core")
      else if str_eqb root (lit "core") then
        if loosely_equal (nth_error pathSplit 1) (lit "lang")
        then Some (lit "core")
        else Some (lit "core." ++ to_string (nth_error pathSplit 1))
      else if str_eqb root (lit "addon") then
        let pathSplit := removelast pathSplit in
        let pathSplit := tl pathSplit in
        Some (lit "addon." ++ join (lit "_") pathSplit)
      else if str_eqb root (lit "assets") then
        Some (lit "assets." ++ to_string (nth_error pathSplit 1))
      else None
  end.

(** One turn of the loop over [data]. *)
Definition mergeFile (data merged : jsobject) (filepath : jsstring)
  : jsobject :=
  let prefix := prefixOf filepath in
  if truthy prefix then
    match get data filepath with
    | Some source => addProperties merged source (to_string prefix ++ lit ".")
    | None => merged
    end
  else merged.

(** [merged] after the loop. *)
Definition mergeData (data : jsobject) : jsobject :=
  fold_left (mergeFile data) (for_in data) new_object.

(** [mergedOrdered] after the [forEach] over the sorted keys. *)
Definition orderKeys (merged : jsobject) : jsobject :=
  fold_left (fun mergedOrdered key =>
               match get merged key with
               | Some v => put mergedOrdered key v
               | None => mergedOrdered
               end)
            (sort (keys merged)) new_object.

(** [treatMergedData(data)]. *)
Definition treatMergedData (data : jsobject) : list byte :=
  let merged := mergeData data in
  let mergedOrdered := orderKeys merged in
  bufferFrom (JSON_stringify mergedOrdered).

(** The two callbacks of [through] in [run], for the files that reach
    them: every file goes through [treatFile]; at the end the joined
    contents are emitted if a file came at all ([firstFile] is set). *)
Definition joinFiles (JSON_parse : list byte -> parse_result)
  (files : list vinyl) : option (list byte) * list jsstring :=
  let (data, lines) := treatFiles JSON_parse files new_object in
  match files with
  | [] => (None, lines)
  | firstFile :: _ => (Some (treatMergedData data), lines)
  end.

End BuildLangTask.

Import BuildLangTask.

(** ** Notions used in the statements *)

(** A key that is neither an array index nor [__proto__]: assigning to it
    creates the property after the existing ones or updates it in place. *)
Definition ordinary_key (k : jsstring) : bool :=
  match array_index k with
  | Some _ => false
  | None => negb (str_eqb k proto_key)
  end.

(** The elements of a list without repetitions, each at the place of its
    first occurrence. *)
Fixpoint distinct (l : list jsstring) : list jsstring :=
  match l with
  | [] => []
  | k :: l' => k :: filter (fun k' => negb (str_eqb k' k)) (distinct l')
  end.

(** The fully-qualified properties that a fragment stored under [filepath]
    gives to the merged table. *)
Definition qualify (prefix : jsstring) (kv : jsstring * jsvalue)
  : jsstring * jsvalue :=
  (prefix ++ lit "." ++ fst kv, snd kv).

Definition contribution (filepath : jsstring) (fragment : jsvalue)
  : properties :=
  match prefixOf filepath with
  | Some prefix => map (qualify prefix) (enumerate fragment)
  | None => []
  end.

(** The contributions of all the fragments of [data], in the order of the
    loop of [treatMergedData]. *)
Definition contributions (data : jsobject) : properties :=
  flat_map (fun filepath =>
              match get data filepath with
              | Some fragment => contribution filepath fragment
              | None => []
              end)
           (for_in data).

(** The fragment a file gives to [data], with the key it is stored under:
    the file has a buffer and its text parses. *)
Definition accepted (JSON_parse : list byte -> parse_result) (file : vinyl)
  : option (jsstring * jsvalue) :=
  match contents file with
  | BufferContents bytes =>
      match JSON_parse bytes with
      | Parsed v => Some (storedPath (path file), v)
      | SyntaxError _ => None
      end
  | NullContents | StreamContents => None
  end.

(** The fragments of a sequence of files, in the order of the files. *)
Definition fragments (JSON_parse : list byte -> parse_result)
  (files : list vinyl) : properties :=
  flat_map (fun file =>
              match accepted JSON_parse file with
              | Some fragment => [fragment]
              | None => []
              end)
           files.

(** Orders on strings other than the one of [sort]: by code points, and by
    the bytes of the UTF-8 encoding. *)
Definition codepoint_lt (s t : jsstring) : Prop :=
  str_ltb (codepoints s) (codepoints t) = true.

Definition byte_lt (s t : jsstring) : Prop :=
  str_ltb (map Byte.to_N (bufferFrom s)) (map Byte.to_N (bufferFrom t)) = true.

(** The fragment that [data] holds for a relative path once the files went
    through [treatFile]: the last one parsed among those of that path. *)
Definition last_parsed (JSON_parse : list byte -> parse_result)
  (files : list vinyl) (relative : jsstring) : option jsvalue :=
  lookup (rev (fragments JSON_parse files)) relative.

(** The fragment kept for the relative path gives the qualified key. *)
Definition produces (JSON_parse : list byte -> parse_result)
  (files : list vinyl) (relative qualified : jsstring) : Prop :=
  exists fragment prefix key,
    last_parsed JSON_parse files relative = Some fragment
    /\ prefixOf relative = Some prefix
    /\ In key (map fst (enumerate fragment))
    /\ qualified = prefix ++ lit "." ++ key.

(** The relative paths of the fragments, each once, in the order in which
    they first came. *)
Definition first_seen (JSON_parse : list byte -> parse_result)
  (files : list vinyl) : list jsstring :=
  distinct (map fst (fragments JSON_parse files)).

(** The order of [sort] on keys, strict and large. *)
Definition str_lt (s t : jsstring) : Prop := str_ltb s t = true.
Definition str_le (s t : jsstring) : Prop := str_ltb t s = false.

(** The entry that the [forEach] of [treatMergedData] copies for a key. *)
Definition entry_of (merged : jsobject) (key : jsstring) : properties :=
  match get merged key with
  | Some v => [(key, v)]
  | None => []
  end.

(** The lines that [treatFile] writes to the console for a file. *)
Definition diagnostic (JSON_parse : list byte -> parse_result) (file : vinyl)
  : list jsstring :=
  match contents file with
  | BufferContents bytes =>
      match JSON_parse bytes with
      | Parsed _ => []
      | SyntaxError message =>
          [lit "Error parsing JSON: " ++ error_to_string message]
      end
  | NullContents | StreamContents => []
  end.

(** A path segment: a string without separator. *)
Definition plain (segment : jsstring) : Prop :=
  Forall (fun c => is_separator c = false) segment.

(** What the fragment kept for a relative path gives to the merged table. *)
Definition kept_contribution (JSON_parse : list byte -> parse_result)
  (files : list vinyl) (relative : jsstring) : properties :=
  match last_parsed JSON_parse files relative with
  | Some fragment => contribution relative fragment
  | None => []
  end.

(** ** Inputs of the examples *)

Fixpoint bytes_eqb (a b : list byte) : bool :=
  match a, b with
  | [], [] => true
  | x :: a', y :: b' => Byte.eqb x y && bytes_eqb a' b'
  | _, _ => false
  end.

(** The text of an object with one member whose value is a string. *)
Definition member_text (key value : string) : jsstring :=
  lit "{" ++ quote (lit key) ++ lit ":" ++ quote (lit value) ++ lit "}".

Definition member_value (key value : string) : jsvalue :=
  JObject [(lit key, JString (lit value))].

Definition sample_texts : list (list byte * jsvalue) :=
  map (fun kv => (bufferFrom (member_text (fst kv) (snd kv)),
                  member_value (fst kv) (snd kv)))
      [("x", "A"); ("y", "B"); ("k", "A"); ("k", "B"); ("k", "C");
       ("baz", "Baz")]%string.

(** A parser for the examples.  It agrees with [JSON.parse] on the texts of
    [sample_texts], and it rejects every other text with the message that
    V8 gives for the text [oops]. *)
Definition sample_parse (bytes : list byte) : parse_result :=
  match find (fun sample => bytes_eqb (fst sample) bytes) sample_texts with
  | Some sample => Parsed (snd sample)
  | None => SyntaxError (lit "Unexpected token o in JSON at position 0")
  end.

Definition sample_file (path : string) (key value : string) : vinyl :=
  mkFile (lit path) (BufferContents (bufferFrom (member_text key value))).

Definition broken_file (path : string) : vinyl :=
  mkFile (lit path) (BufferContents (bufferFrom (lit "oops"))).

(** A table with a key in the Private Use Area and a key outside the Basic
    Multilingual Plane: U+E000 is one code unit, U+10000 is the surrogate
    pair D800 DC00. *)
Definition astral_data : jsobject :=
  mkObject
    [(lit "lang/en.json",
      JObject [([57344%N], JString (lit "private use"));
               ([55296%N; 56320%N], JString (lit "astral"))])]
    ObjectPrototype.

(** The files of three runs. *)
Definition replaced_run : list vinyl :=
  [sample_file "/a/src/lang/en.json" "x" "A";
   sample_file "/b/src/lang/en.json" "y" "B"].

Definition collision_run : list vinyl :=
  [sample_file "/a/src/lang/en.json" "k" "A";
   sample_file "/a/src/core/lang/en.json" "k" "B";
   sample_file "/b/src/lang/en.json" "k" "C"].

Definition addon_run : list vinyl :=
  [sample_file "/app/src/addon/mod_assign/lang/en.json" "baz" "Baz"].

Definition failing_run : list vinyl :=
  [broken_file "/app/src/lang/en.json";
   mkFile (lit "/app/src/core/lang/en.json") NullContents].

(** ** Further notions used in the statements *)

(** The stored path has one of the four roots of the [switch]. *)
Definition dispatch_root (filepath : jsstring) : bool :=
  match removelast (split_path filepath) with
  | [] => false
  | root :: _ =>
      str_eqb root (lit "lang") || str_eqb root (lit "core")
      || str_eqb root (lit "addon") || str_eqb root (lit "assets")
  end.

(** A path with every backslash replaced by a slash. *)
Definition to_slashes (s : jsstring) : jsstring :=
  map (fun c => if N.eqb c 92 then 47%N else c) s.

(** The files of a stream whose text does not parse. *)
Definition fails_to_parse (JSON_parse : list byte -> parse_result)
  (file : vinyl) : bool :=
  match contents file with
  | BufferContents bytes =>
      match JSON_parse bytes with
      | Parsed _ => false
      | SyntaxError _ => true
      end
  | NullContents | StreamContents => false
  end.

(** The qualified properties of a list of fragments, each under the prefix
    of its path. *)
Definition all_contributions (stored : properties) : properties :=
  flat_map (fun fragment => contribution (fst fragment) (snd fragment)) stored.

(** A run in which a third file, kept under another path, gives a key of a
    replaced fragment. *)
Definition third_supplier_run : list vinyl :=
  [sample_file "/a/src/lang/en.json" "k" "A";
   sample_file "/b/src/lang/en.json" "y" "B";
   sample_file "/a/src/core/lang/en.json" "k" "C"].

(** ** Reading the output back

    The reference against which the output of [treatMergedData] is read:
    UTF-8 as RFC 3629 defines it (shortest forms only, no surrogates,
    nothing above U+10FFFF), the strings of JSON as RFC 8259 defines them,
    and the layout of a table of strings printed with an indentation of four
    spaces.  These definitions follow the two standards, not the source. *)

Definition is_code_unit (c : N) : bool := N.ltb c 65536.

Definition is_surrogate (c : N) : bool := N.leb 55296 c && N.leb c 57343.

(** The scalar values of a string: a surrogate pair is one code point, a
    surrogate on its own reads as U+FFFD. *)
Definition scalar_values (s : jsstring) : list N :=
  map (fun cp => if is_surrogate cp then 65533%N else cp) (codepoints s).

(** A string without a surrogate on its own. *)
Definition well_formed (s : jsstring) : bool :=
  forallb (fun cp => negb (is_surrogate cp)) (codepoints s).

Definition is_continuation (b : N) : bool := N.leb 128 b && N.ltb b 192.

Fixpoint utf8_decode (bytes : list N) : option (list N) :=
  match bytes with
  | [] => Some []
  | b0 :: rest =>
      if N.ltb b0 128 then option_map (cons b0) (utf8_decode rest)
      else if N.ltb b0 192 then None
      else if N.ltb b0 224 then
        match rest with
        | b1 :: rest1 =>
            let cp := ((b0 - 192) * 64 + (b1 - 128))%N in
            if is_continuation b1 && N.leb 128 cp
            then option_map (cons cp) (utf8_decode rest1)
            else None
        | _ => None
        end
      else if N.ltb b0 240 then
        match rest with
        | b1 :: b2 :: rest2 =>
            let cp := ((b0 - 224) * 4096 + (b1 - 128) * 64 + (b2 - 128))%N in
            if is_continuation b1 && is_continuation b2
               && N.leb 2048 cp && negb (is_surrogate cp)
            then option_map (cons cp) (utf8_decode rest2)
            else None
        | _ => None
        end
      else if N.ltb b0 248 then
        match rest with
        | b1 :: b2 :: b3 :: rest3 =>
            let cp := ((b0 - 240) * 262144 + (b1 - 128) * 4096
                       + (b2 - 128) * 64 + (b3 - 128))%N in
            if is_continuation b1 && is_continuation b2 && is_continuation b3
               && N.leb 65536 cp && N.leb cp 1114111
            then option_map (cons cp) (utf8_decode rest3)
            else None
        | _ => None
        end
      else None
  end.

(** UTF-16: a scalar value above U+FFFF is a surrogate pair. *)
Definition utf16_units (cp : N) : jsstring :=
  if N.ltb cp 65536 then [cp]
  else [(55296 + (cp - 65536) / 1024)%N; (56320 + (cp - 65536) mod 1024)%N].

Definition utf16_encode (scalars : list N) : jsstring :=
  flat_map utf16_units scalars.

Definition hex_value (c : codeunit) : option N :=
  if N.leb 48 c && N.leb c 57 then Some (c - 48)%N
  else if N.leb 97 c && N.leb c 102 then Some (c - 87)%N
  else if N.leb 65 c && N.leb c 70 then Some (c - 55)%N
  else None.

(** The character that a two-character escape of JSON stands for. *)
Definition simple_escape (e : codeunit) : option codeunit :=
  if N.eqb e 34 then Some 34%N
  else if N.eqb e 92 then Some 92%N
  else if N.eqb e 47 then Some 47%N
  else if N.eqb e 98 then Some 8%N
  else if N.eqb e 102 then Some 12%N
  else if N.eqb e 110 then Some 10%N
  else if N.eqb e 114 then Some 13%N
  else if N.eqb e 116 then Some 9%N
  else None.

Definition read_more (c : codeunit) (r : option (jsstring * jsstring))
  : option (jsstring * jsstring) :=
  match r with
  | Some (s, rest) => Some (c :: s, rest)
  | None => None
  end.

(** Reads a JSON string from behind its opening quotation mark to its
    closing one: the string and the text that follows it.  A quotation mark
    or a control character that is not escaped, and an escape that JSON does
    not have, are refused. *)
Fixpoint read_string (text : jsstring) : option (jsstring * jsstring) :=
  match text with
  | [] => None
  | c :: rest =>
      if N.eqb c 34 then Some ([], rest)
      else if N.eqb c 92 then
        match rest with
        | e :: rest1 =>
            if N.eqb e 117 then
              match rest1 with
              | h3 :: h2 :: h1 :: h0 :: rest2 =>
                  match hex_value h3, hex_value h2, hex_value h1, hex_value h0 with
                  | Some d3, Some d2, Some d1, Some d0 =>
                      read_more (d3 * 4096 + d2 * 256 + d1 * 16 + d0)%N
                                (read_string rest2)
                  | _, _, _, _ => None
                  end
              | _ => None
              end
            else
              match simple_escape e with
              | Some u => read_more u (read_string rest1)
              | None => None
              end
        | [] => None
        end
      else if N.ltb c 32 then None
      else read_more c (read_string rest)
  end.

(** [strip pre text] is what follows [pre] in [text]. *)
Fixpoint strip (pre text : jsstring) : option jsstring :=
  match pre, text with
  | [], _ => Some text
  | p :: pre', c :: text' => if N.eqb p c then strip pre' text' else None
  | _ :: _, [] => None
  end.

(** One line of a table of strings: four spaces, the key in quotation
    marks, a colon, a space, and the value in quotation marks. *)
Definition read_entry (text : jsstring)
  : option ((jsstring * jsvalue) * jsstring) :=
  match strip [32; 32; 32; 32; 34]%N text with
  | Some text1 =>
      match read_string text1 with
      | Some (key, text2) =>
          match strip [58; 32; 34]%N text2 with
          | Some text3 =>
              match read_string text3 with
              | Some (value, rest) => Some ((key, JString value), rest)
              | None => None
              end
          | None => None
          end
      | None => None
      end
  | None => None
  end.

(** The lines of a table, separated by a comma and a line feed, up to the
    line feed and the closing brace that end the text. *)
Fixpoint read_entries (fuel : nat) (text : jsstring)
  : option (list (jsstring * jsvalue)) :=
  match fuel with
  | O => None
  | S fuel' =>
      match read_entry text with
      | Some (entry, rest) =>
          match strip [44; 10]%N rest with
          | Some more => option_map (cons entry) (read_entries fuel' more)
          | None => if str_eqb rest [10; 125]%N then Some [entry] else None
          end
      | None => None
      end
  end.

(** A table of strings printed with an indentation of four spaces: [{}],
    or an opening brace, a line feed and the lines. *)
Definition read_table (text : jsstring) : option (list (jsstring * jsvalue)) :=
  if str_eqb text [123; 125]%N then Some []
  else
    match strip [123; 10]%N text with
    | Some body => read_entries (length body) body
    | None => None
    end.

(** The table that a buffer holds: the bytes are read as UTF-8, the text as
    a table of strings. *)
Definition read_back (bytes : list byte) : option (list (jsstring * jsvalue)) :=
  match utf8_decode (map Byte.to_N bytes) with
  | Some scalars => read_table (utf16_encode scalars)
  | None => None
  end.

(** An entry whose value is a string, the key and the value made of 16-bit
    code units. *)
Definition string_entry (kv : jsstring * jsvalue) : bool :=
  forallb is_code_unit (fst kv)
  && match snd kv with
     | JString s => forallb is_code_unit s
     | _ => false
     end.

(** A text of 16-bit code units without a surrogate on its own. *)
Definition clean (text : jsstring) : bool :=
  forallb is_code_unit text && well_formed text.

(** The line of an entry and the text of a table, character by character:
    32 is the space, 34 the quotation mark, 58 the colon, 44 the comma, 10
    the line feed, 123 and 125 the braces. *)
Definition table_line (kv : jsstring * jsvalue) : jsstring :=
  [32; 32; 32; 32; 34]%N ++ quote_units (fst kv) ++ [34; 58; 32]%N
  ++ stringify [32; 32; 32; 32]%N (snd kv).

Definition table_text (entries : properties) : jsstring :=
  match entries with
  | [] => [123; 125]%N
  | _ :: _ =>
      [123; 10]%N ++ join [44; 10]%N (map table_line entries) ++ [10; 125]%N
  end.

(** An entry whose value is a string. *)
Definition string_valued (kv : jsstring * jsvalue) : bool :=
  match snd kv with
  | JString _ => true
  | _ => false
  end.

(** A table with a quotation mark, a backslash, control characters,
    characters outside ASCII and outside the Basic Multilingual Plane, and
    values that are not strings. *)
Definition escaped_data : jsobject :=
  mkObject
    [(lit "lang/en.json",
      JObject
        [([113; 34; 92]%N, JString [9; 31]%N);
         ([233%N], JString [8364; 55357; 56832]%N);
         (lit "n",
          JObject [(lit "d", JArray [JNumber (lit "1"); JNull; JBool false]);
                   (lit "e", JObject [])])])]
    ObjectPrototype.
(* ================================================================== *)
(** * Part II: properties *)
(* ================================================================== *)


(** ** Strings *)

Lemma str_eqb_eq (s t : jsstring) : str_eqb s t = true <-> s = t.
Proof.
  revert t; induction s as [|c s IH]; intros [|d t]; simpl;
    try (split; [discriminate | discriminate]); try tauto.
  rewrite andb_true_iff, N.eqb_eq, IH.
  split; [intros [-> ->]; reflexivity | intros [= -> ->]; auto].
Qed.

Lemma str_eqb_refl (s : jsstring) : str_eqb s s = true.
Proof. apply str_eqb_eq; reflexivity. Qed.

Lemma str_eqb_neq (s t : jsstring) : str_eqb s t = false <-> s <> t.
Proof.
  rewrite <- str_eqb_eq. destruct (str_eqb s t); split; congruence.
Qed.

Lemma str_eqb_sym (s t : jsstring) : str_eqb s t = str_eqb t s.
Proof.
  destruct (str_eqb s t) eqn:E.
  - apply str_eqb_eq in E; subst; symmetry; apply str_eqb_refl.
  - symmetry; apply str_eqb_neq; apply str_eqb_neq in E; congruence.
Qed.

Lemma str_ltb_irrefl (s : jsstring) : str_ltb s s = false.
Proof.
  induction s as [|c s IH]; simpl; auto.
  rewrite N.ltb_irrefl, N.eqb_refl, IH; reflexivity.
Qed.

Lemma str_ltb_trans (s t u : jsstring) :
  str_ltb s t = true -> str_ltb t u = true -> str_ltb s u = true.
Proof.
  revert t u; induction s as [|c s IH]; intros [|d t] [|e u]; simpl;
    try discriminate; auto.
  rewrite !orb_true_iff, !andb_true_iff, !N.ltb_lt, !N.eqb_eq.
  intros [H1 | [H1 H1']] [H2 | [H2 H2']].
  - left; lia.
  - left; lia.
  - left; lia.
  - right; split; [lia | eauto].
Qed.

Lemma str_ltb_total (s t : jsstring) :
  str_ltb s t = true \/ s = t \/ str_ltb t s = true.
Proof.
  revert t; induction s as [|c s IH]; intros [|d t]; simpl; auto.
  destruct (N.lt_trichotomy c d) as [H | [H | H]].
  - left. apply N.ltb_lt in H. rewrite H; reflexivity.
  - subst d. rewrite N.ltb_irrefl, N.eqb_refl; simpl.
    destruct (IH t) as [H | [H | H]]; auto.
    right; left; congruence.
  - right; right. apply N.ltb_lt in H. rewrite H; reflexivity.
Qed.

Lemma str_ltb_asym (s t : jsstring) :
  str_ltb s t = true -> str_ltb t s = false.
Proof.
  intros H. destruct (str_ltb t s) eqn:E; auto.
  pose proof (str_ltb_trans _ _ _ H E) as C.
  rewrite str_ltb_irrefl in C; discriminate.
Qed.

(** ** Sorting *)

Lemma insert_key_perm (k : jsstring) (l : list jsstring) :
  Permutation (insert_key k l) (k :: l).
Proof.
  induction l as [|h t IH]; simpl; auto.
  destruct (str_ltb h k); auto.
  rewrite IH. apply perm_swap.
Qed.

Lemma sort_perm (l : list jsstring) : Permutation (sort l) l.
Proof.
  induction l as [|k l IH]; simpl; auto.
  rewrite insert_key_perm. auto.
Qed.

Lemma str_le_of_lt (s t : jsstring) : str_lt s t -> str_le s t.
Proof. apply str_ltb_asym. Qed.

Lemma str_le_trans (s t u : jsstring) : str_le s t -> str_le t u -> str_le s u.
Proof.
  unfold str_le. intros H1 H2.
  destruct (str_ltb u s) eqn:E; auto.
  destruct (str_ltb_total t u) as [H | [H | H]].
  - rewrite (str_ltb_trans _ _ _ H E) in H1; discriminate.
  - subst u. congruence.
  - congruence.
Qed.

Lemma insert_key_sorted (k : jsstring) (l : list jsstring) :
  StronglySorted str_le l -> StronglySorted str_le (insert_key k l).
Proof.
  induction 1 as [|h t Ht IH Hall]; simpl.
  - repeat constructor.
  - destruct (str_ltb h k) eqn:E.
    + constructor; auto.
      apply Forall_forall. intros x Hx.
      apply (Permutation_in _ (insert_key_perm k t)) in Hx.
      destruct Hx as [<- | Hx].
      * apply str_le_of_lt; exact E.
      * rewrite Forall_forall in Hall; auto.
    + constructor.
      * constructor; auto.
      * constructor; [exact E|].
        apply Forall_forall. intros x Hx. rewrite Forall_forall in Hall.
        apply str_le_trans with h; [exact E | auto].
Qed.

Lemma sort_sorted (l : list jsstring) : StronglySorted str_le (sort l).
Proof.
  induction l as [|k l IH]; simpl.
  - constructor.
  - apply insert_key_sorted; exact IH.
Qed.

Lemma sorted_nodup_strict (l : list jsstring) :
  NoDup l -> StronglySorted str_le l -> StronglySorted str_lt l.
Proof.
  induction l as [|h t IH]; intros Hnd Hs; [constructor|].
  inversion Hnd as [|? ? Hnot Hnd']; subst.
  inversion Hs as [|? ? Hs' Hall]; subst.
  constructor; auto.
  apply Forall_forall. intros x Hx. rewrite Forall_forall in Hall.
  specialize (Hall x Hx). unfold str_le in Hall. unfold str_lt.
  destruct (str_ltb_total h x) as [H | [H | H]]; auto;
    [subst; tauto | congruence].
Qed.

Lemma sort_strict (l : list jsstring) :
  NoDup l -> StronglySorted str_lt (sort l).
Proof.
  intros Hnd. apply sorted_nodup_strict.
  - apply (Permutation_NoDup (Permutation_sym (sort_perm l))); exact Hnd.
  - apply sort_sorted.
Qed.

Lemma sorted_unique (l1 l2 : list jsstring) :
  StronglySorted str_lt l1 -> StronglySorted str_lt l2 ->
  (forall k, In k l1 <-> In k l2) -> l1 = l2.
Proof.
  intros H1; revert l2; induction H1 as [|h1 t1 Ht1 IH Hall1];
    intros l2 H2 Hsame.
  - destruct l2 as [|h2 t2]; [reflexivity|].
    exfalso. apply (proj2 (Hsame h2)). left; reflexivity.
  - destruct H2 as [|h2 t2 Ht2 Hall2].
    + exfalso. apply (proj1 (Hsame h1)). left; reflexivity.
    + rewrite Forall_forall in Hall1, Hall2.
      assert (Hhead : h1 = h2).
      { destruct (proj1 (Hsame h1) (or_introl eq_refl)) as [E | Hin1]; [auto|].
        destruct (proj2 (Hsame h2) (or_introl eq_refl)) as [E | Hin2]; [auto|].
        pose proof (Hall2 _ Hin1) as Hlt2. pose proof (Hall1 _ Hin2) as Hlt1.
        unfold str_lt in *. rewrite (str_ltb_asym _ _ Hlt1) in Hlt2.
        discriminate. }
      subst h2. f_equal. apply IH; [exact Ht2|].
      intros k. split; intros Hk.
      * destruct (proj1 (Hsame k) (or_intror Hk)) as [E | Hin]; [|exact Hin].
        subst k. pose proof (Hall1 _ Hk) as Hlt. unfold str_lt in Hlt.
        rewrite str_ltb_irrefl in Hlt. discriminate.
      * destruct (proj2 (Hsame k) (or_intror Hk)) as [E | Hin]; [|exact Hin].
        subst k. pose proof (Hall2 _ Hk) as Hlt. unfold str_lt in Hlt.
        rewrite str_ltb_irrefl in Hlt. discriminate.
Qed.

(** ** Lists of properties *)

Section PropertyLists.

Variable A : Type.
Implicit Types (props members : list (jsstring * A)) (k : jsstring) (v : A).

Lemma lookup_app props props' k :
  lookup (props ++ props') k =
  match lookup props k with
  | Some v => Some v
  | None => lookup props' k
  end.
Proof.
  induction props as [|[k' v'] rest IH]; simpl; auto.
  destruct (str_eqb k' k); auto.
Qed.

Lemma lookup_none_keys props k :
  lookup props k = None <-> ~ In k (map fst props).
Proof.
  induction props as [|[k' v'] rest IH]; simpl; [tauto|].
  destruct (str_eqb k' k) eqn:E.
  - apply str_eqb_eq in E. split; [discriminate | tauto].
  - apply str_eqb_neq in E. rewrite IH. tauto.
Qed.

Lemma has_key_keys props k :
  has_key props k = true <-> In k (map fst props).
Proof.
  unfold has_key. pose proof (lookup_none_keys props k) as H.
  destruct (lookup props k).
  - split; auto. intros _.
    destruct (in_dec (list_eq_dec N.eq_dec) k (map fst props)); auto.
    destruct H as [_ H]. specialize (H n). discriminate.
  - split; [discriminate|]. intros Hin. destruct H as [H _].
    exfalso; apply H; auto.
Qed.

Lemma has_key_false props k :
  has_key props k = false <-> ~ In k (map fst props).
Proof.
  rewrite <- has_key_keys. destruct (has_key props k); split; congruence.
Qed.

Lemma lookup_in props k v : lookup props k = Some v -> In (k, v) props.
Proof.
  induction props as [|[k' v'] rest IH]; simpl; [discriminate|].
  destruct (str_eqb k' k) eqn:E; auto.
  apply str_eqb_eq in E. intros [= ->]. subst; auto.
Qed.

Lemma in_lookup props k v :
  NoDup (map fst props) -> In (k, v) props -> lookup props k = Some v.
Proof.
  induction props as [|[k' v'] rest IH]; simpl; [tauto|].
  intros Hnd [[= -> ->] | Hin].
  - rewrite str_eqb_refl; reflexivity.
  - inversion Hnd as [|? ? Hnot Hnd']; subst.
    destruct (str_eqb k' k) eqn:E; auto.
    apply str_eqb_eq in E; subst.
    exfalso; apply Hnot. exact (in_map fst _ _ Hin).
Qed.

Lemma keys_replace props k v : map fst (replace k v props) = map fst props.
Proof.
  induction props as [|[k' v'] rest IH]; simpl; auto.
  destruct (str_eqb k' k); simpl; congruence.
Qed.

Lemma lookup_replace props k v k' :
  lookup (replace k v props) k' =
  if str_eqb k k' then option_map (fun _ => v) (lookup props k)
  else lookup props k'.
Proof.
  induction props as [|[k0 v0] rest IH]; simpl.
  - destruct (str_eqb k k'); reflexivity.
  - destruct (str_eqb k0 k) eqn:E0; simpl.
    + apply str_eqb_eq in E0; subst k0.
      destruct (str_eqb k k'); reflexivity.
    + rewrite IH. destruct (str_eqb k k') eqn:E.
      * apply str_eqb_eq in E; subst k'. rewrite E0; reflexivity.
      * reflexivity.
Qed.

Lemma keys_insert_index n k v props :
  Permutation (map fst (insert_index n k v props)) (k :: map fst props).
Proof.
  induction props as [|[k' v'] rest IH]; simpl; auto.
  destruct (array_index k') as [m|]; simpl; auto.
  destruct (N.ltb m n); simpl; auto.
  rewrite IH. apply perm_swap.
Qed.

Lemma lookup_insert_index n k v props k' :
  has_key props k = false ->
  lookup (insert_index n k v props) k' =
  if str_eqb k k' then Some v else lookup props k'.
Proof.
  induction props as [|[k0 v0] rest IH]; simpl; auto.
  unfold has_key; simpl.
  destruct (str_eqb k0 k) eqn:E0; [discriminate|]. intros Hk.
  assert (Hgoal : lookup ((k, v) :: (k0, v0) :: rest) k' =
                  if str_eqb k k' then Some v else lookup ((k0, v0) :: rest) k')
    by reflexivity.
  destruct (array_index k0) as [m|]; auto.
  destruct (N.ltb m n); auto.
  simpl. rewrite (IH Hk).
  destruct (str_eqb k0 k') eqn:E1; auto.
  apply str_eqb_eq in E1; subst k'.
  rewrite str_eqb_sym, E0. reflexivity.
Qed.

Lemma keys_add_property k v props :
  Permutation (map fst (add_property k v props)) (k :: map fst props).
Proof.
  unfold add_property. destruct (array_index k).
  - apply keys_insert_index.
  - rewrite map_app; simpl. symmetry. apply Permutation_cons_append.
Qed.

Lemma lookup_add_property k v props k' :
  has_key props k = false ->
  lookup (add_property k v props) k' =
  if str_eqb k k' then Some v else lookup props k'.
Proof.
  intros Hk. unfold add_property. destruct (array_index k).
  - apply lookup_insert_index; exact Hk.
  - rewrite lookup_app. simpl.
    destruct (str_eqb k k') eqn:E.
    + apply str_eqb_eq in E; subst k'.
      unfold has_key in Hk. destruct (lookup props k); [discriminate | auto].
    + destruct (lookup props k'); reflexivity.
Qed.

Lemma lookup_define props k v k' :
  lookup (define props (k, v)) k' =
  if str_eqb k k' then Some v else lookup props k'.
Proof.
  unfold define; simpl. destruct (has_key props k) eqn:E.
  - rewrite lookup_replace. unfold has_key in E.
    destruct (lookup props k); [reflexivity | discriminate].
  - apply lookup_add_property; exact E.
Qed.

Lemma keys_define_in props k v k' :
  In k' (map fst (define props (k, v))) <-> k' = k \/ In k' (map fst props).
Proof.
  unfold define; simpl. destruct (has_key props k) eqn:E.
  - rewrite keys_replace. apply has_key_keys in E.
    split; auto. intros [-> | H]; auto.
  - split; intros H.
    + apply (Permutation_in _ (keys_add_property k v props)) in H.
      destruct H; auto.
    + apply (Permutation_in _ (Permutation_sym (keys_add_property k v props))).
      destruct H; [left | right]; auto.
Qed.

Lemma keys_define_nodup props k v :
  NoDup (map fst props) -> NoDup (map fst (define props (k, v))).
Proof.
  intros Hnd. unfold define; simpl. destruct (has_key props k) eqn:E.
  - rewrite keys_replace; exact Hnd.
  - apply (Permutation_NoDup (Permutation_sym (keys_add_property k v props))).
    constructor; auto. apply has_key_false; exact E.
Qed.

Lemma lookup_fold_define members props k :
  lookup (fold_left (@define A) members props) k =
  match lookup (rev members) k with
  | Some v => Some v
  | None => lookup props k
  end.
Proof.
  revert props; induction members as [|[k0 v0] rest IH]; intros props; simpl;
    auto.
  rewrite IH, lookup_app, lookup_define. simpl.
  destruct (lookup (rev rest) k); auto.
  rewrite (str_eqb_sym k0 k). destruct (str_eqb k k0); reflexivity.
Qed.

Lemma keys_fold_define_in members props k :
  In k (map fst (fold_left (@define A) members props)) <->
  In k (map fst members) \/ In k (map fst props).
Proof.
  revert props; induction members as [|[k0 v0] rest IH]; intros props; simpl.
  - tauto.
  - rewrite IH, keys_define_in. intuition.
Qed.

Lemma keys_fold_define_nodup members props :
  NoDup (map fst props) ->
  NoDup (map fst (fold_left (@define A) members props)).
Proof.
  revert props; induction members as [|[k0 v0] rest IH]; intros props H;
    simpl; auto.
  apply IH. apply keys_define_nodup; exact H.
Qed.

Lemma object_of_nodup members : NoDup (map fst (object_of members)).
Proof. apply keys_fold_define_nodup. constructor. Qed.

Lemma lookup_object_of members k :
  lookup (object_of members) k = lookup (rev members) k.
Proof.
  unfold object_of. rewrite lookup_fold_define. simpl.
  destruct (lookup (rev members) k); reflexivity.
Qed.

Lemma keys_object_of_in members k :
  In k (map fst (object_of members)) <-> In k (map fst members).
Proof.
  unfold object_of. rewrite keys_fold_define_in. simpl. tauto.
Qed.

End PropertyLists.

(** ** Keys of the merged table

    A qualified key holds a dot, so it is neither an array index nor
    [__proto__]. *)

Lemma digits_value_not_digit (s1 s2 : jsstring) (c : codeunit) (acc : N) :
  digit_value c = None -> digits_value acc (s1 ++ c :: s2) = None.
Proof.
  intros Hc. revert acc; induction s1 as [|d s1 IH]; intros acc; simpl.
  - rewrite Hc; reflexivity.
  - destruct (digit_value d); auto.
Qed.

Lemma dotted_not_index (p k : jsstring) :
  array_index (p ++ lit "." ++ k) = None.
Proof.
  unfold array_index. simpl.
  rewrite digits_value_not_digit; reflexivity.
Qed.

Lemma dotted_not_proto (p k : jsstring) :
  str_eqb (p ++ lit "." ++ k) proto_key = false.
Proof.
  apply str_eqb_neq. intros H.
  assert (Hin : In 46%N (p ++ lit "." ++ k)) by (apply in_elt).
  rewrite H in Hin. simpl in Hin.
  repeat (destruct Hin as [Hin | Hin]; [discriminate|]). exact Hin.
Qed.

Lemma dotted_ordinary (p k : jsstring) :
  ordinary_key (p ++ lit "." ++ k) = true.
Proof.
  unfold ordinary_key. rewrite dotted_not_index, dotted_not_proto. reflexivity.
Qed.

Lemma put_define (o : jsobject) (k : jsstring) (v : jsvalue) :
  str_eqb k proto_key = false ->
  put o k v = mkObject (define (own o) (k, v)) (proto o).
Proof.
  intros Hk. unfold put, define; simpl.
  destruct (has_key (own o) k); auto.
  rewrite Hk; reflexivity.
Qed.

Lemma addProperties_define (target : jsobject) (source : jsvalue)
  (p : jsstring) :
  addProperties target source (p ++ lit ".") =
  mkObject (fold_left (@define jsvalue) (map (qualify p) (enumerate source))
                      (own target))
           (proto target).
Proof.
  unfold addProperties. generalize (enumerate source) as l.
  intros l; revert target; induction l as [|[k v] l IH]; intros target; simpl.
  - destruct target; reflexivity.
  - rewrite IH. rewrite <- app_assoc, put_define by apply dotted_not_proto.
    reflexivity.
Qed.

Lemma prefixOf_truthy (filepath p : jsstring) :
  prefixOf filepath = Some p -> truthy (Some p) = true.
Proof.
  unfold prefixOf.
  destruct (nth_error (removelast (split_path filepath)) 0); [|discriminate].
  repeat match goal with
         | |- context [if ?b then _ else _] => destruct b
         end; intros [= <-]; reflexivity.
Qed.

Lemma prefixOf_undefined (filepath : jsstring) :
  prefixOf filepath = None -> truthy (prefixOf filepath) = false.
Proof. intros ->; reflexivity. Qed.

Lemma mergeFile_define (data merged : jsobject) (filepath : jsstring) :
  mergeFile data merged filepath =
  mkObject (fold_left (@define jsvalue)
              match get data filepath with
              | Some fragment => contribution filepath fragment
              | None => []
              end (own merged))
           (proto merged).
Proof.
  unfold mergeFile, contribution.
  destruct (prefixOf filepath) as [p|] eqn:Ep.
  - rewrite (prefixOf_truthy _ Ep).
    destruct (get data filepath); simpl.
    + apply addProperties_define.
    + destruct merged; reflexivity.
  - simpl. destruct (get data filepath); destruct merged; reflexivity.
Qed.

Lemma fold_mergeFile (data : jsobject) (l : list jsstring) (acc : properties)
  (pr : prototype) :
  fold_left (mergeFile data) l (mkObject acc pr) =
  mkObject (fold_left (@define jsvalue)
              (flat_map (fun filepath =>
                           match get data filepath with
                           | Some fragment => contribution filepath fragment
                           | None => []
                           end) l)
              acc)
           pr.
Proof.
  revert acc; induction l as [|fp l IH]; intros acc; simpl; auto.
  rewrite mergeFile_define; simpl. rewrite IH, fold_left_app. reflexivity.
Qed.

Lemma mergeData_define (data : jsobject) :
  mergeData data = mkObject (object_of (contributions data)) ObjectPrototype.
Proof. apply fold_mergeFile. Qed.

Lemma contribution_keys_dotted (filepath : jsstring) (fragment : jsvalue)
  (q : jsstring) :
  In q (map fst (contribution filepath fragment)) ->
  exists p k, q = p ++ lit "." ++ k.
Proof.
  unfold contribution. destruct (prefixOf filepath) as [p|]; simpl; [|tauto].
  rewrite map_map. intros Hin. apply in_map_iff in Hin.
  destruct Hin as [[k v] [<- _]]. exists p, k; reflexivity.
Qed.

Lemma contributions_keys_dotted (data : jsobject) (q : jsstring) :
  In q (map fst (contributions data)) -> exists p k, q = p ++ lit "." ++ k.
Proof.
  unfold contributions. intros Hin.
  apply in_map_iff in Hin. destruct Hin as [[q' v] [<- Hin]].
  apply in_flat_map in Hin. destruct Hin as [fp [_ Hin]].
  destruct (get data fp) as [fragment|]; [|contradiction].
  apply (contribution_keys_dotted fp fragment).
  exact (in_map fst _ _ Hin).
Qed.

Lemma merged_keys_dotted (data : jsobject) (q : jsstring) :
  In q (keys (mergeData data)) -> exists p k, q = p ++ lit "." ++ k.
Proof.
  rewrite mergeData_define. unfold keys; simpl.
  rewrite keys_object_of_in. apply contributions_keys_dotted.
Qed.

Lemma merged_keys_nodup (data : jsobject) : NoDup (keys (mergeData data)).
Proof. rewrite mergeData_define. apply object_of_nodup. Qed.

Lemma get_merged (data : jsobject) (q : jsstring) :
  get (mergeData data) q = lookup (own (mergeData data)) q.
Proof.
  rewrite mergeData_define. unfold get, inherited; simpl.
  destruct (lookup _ q); reflexivity.
Qed.

(** ** The ordered copy of the merged table *)

Lemma define_new_ordinary (acc : properties) (k : jsstring) (v : jsvalue) :
  ordinary_key k = true -> ~ In k (map fst acc) ->
  define acc (k, v) = acc ++ [(k, v)].
Proof.
  unfold ordinary_key, define, add_property; simpl. intros Hk Hnew.
  apply has_key_false in Hnew. rewrite Hnew.
  destruct (array_index k); [discriminate | reflexivity].
Qed.

Lemma ordinary_not_proto (k : jsstring) :
  ordinary_key k = true -> str_eqb k proto_key = false.
Proof.
  unfold ordinary_key. destruct (array_index k); [discriminate|].
  destruct (str_eqb k proto_key); [discriminate | reflexivity].
Qed.

Lemma fold_order (merged : jsobject) (l : list jsstring) (acc : properties)
  (pr : prototype) :
  NoDup l ->
  (forall k, In k l -> ordinary_key k = true) ->
  (forall k, In k l -> ~ In k (map fst acc)) ->
  fold_left (fun mergedOrdered key =>
               match get merged key with
               | Some v => put mergedOrdered key v
               | None => mergedOrdered
               end) l (mkObject acc pr) =
  mkObject (acc ++ flat_map (entry_of merged) l) pr.
Proof.
  revert acc; induction l as [|k l IH]; intros acc Hnd Hord Hnew; simpl.
  - rewrite app_nil_r; reflexivity.
  - inversion Hnd as [|? ? Hk Hnd']; subst.
    change (entry_of merged k) with
      (match get merged k with Some v => [(k, v)] | None => [] end).
    destruct (get merged k) as [v|]; simpl.
    + rewrite put_define
        by (apply ordinary_not_proto; apply Hord; left; reflexivity).
      simpl. rewrite define_new_ordinary; [| apply Hord; left; reflexivity
                                            | apply Hnew; left; reflexivity].
      rewrite IH; auto.
      * rewrite <- app_assoc; reflexivity.
      * intros k' Hk'; apply Hord; right; exact Hk'.
      * intros k' Hk'. rewrite map_app, in_app_iff; simpl.
        intros [H | [H | []]].
        -- apply (Hnew k'); [right; exact Hk' | exact H].
        -- subst k'; tauto.
    + apply IH; auto.
      * intros k' Hk'; apply Hord; right; exact Hk'.
      * intros k' Hk'; apply Hnew; right; exact Hk'.
Qed.

Lemma lookup_entries (merged : jsobject) (l : list jsstring) (k : jsstring) :
  In k l -> lookup (flat_map (entry_of merged) l) k = get merged k.
Proof.
  induction l as [|h l IH]; simpl; [tauto|].
  intros Hin. rewrite lookup_app.
  destruct (str_eqb h k) eqn:E.
  - apply str_eqb_eq in E; subst h. unfold entry_of at 1.
    destruct (get merged k) as [v|] eqn:G; simpl.
    + rewrite str_eqb_refl; reflexivity.
    + destruct (in_dec (list_eq_dec N.eq_dec) k l) as [Hl | Hl].
      * apply IH; exact Hl.
      * apply lookup_none_keys. intros Hin'.
        apply in_map_iff in Hin'. destruct Hin' as [[k' v'] [Hfst Hin']].
        simpl in Hfst; subst k'. apply in_flat_map in Hin'.
        destruct Hin' as [k0 [Hk0 Hin']]. unfold entry_of in Hin'.
        destruct (get merged k0); [|contradiction].
        destruct Hin' as [[= -> _] | []]. tauto.
  - assert (Hl : In k l).
    { destruct Hin as [-> | Hl]; [|exact Hl].
      rewrite str_eqb_refl in E; discriminate. }
    unfold entry_of at 1. destruct (get merged h); simpl.
    + rewrite E. apply IH; exact Hl.
    + apply IH; exact Hl.
Qed.

Lemma keys_entries (merged : jsobject) (l : list jsstring) :
  (forall k, In k l -> In k (keys merged)) ->
  map fst (flat_map (entry_of merged) l) = l.
Proof.
  induction l as [|h l IH]; simpl; auto. intros Hin.
  rewrite map_app, IH by auto.
  unfold entry_of, get.
  assert (Hh : In h (keys merged)) by auto.
  destruct (lookup (own merged) h) eqn:E; [reflexivity|].
  apply lookup_none_keys in E. contradiction.
Qed.

Lemma orderKeys_own (data : jsobject) :
  orderKeys (mergeData data) =
  mkObject (flat_map (entry_of (mergeData data)) (sort (keys (mergeData data))))
           ObjectPrototype.
Proof.
  unfold orderKeys.
  change new_object with (mkObject (@nil (jsstring * jsvalue)) ObjectPrototype).
  rewrite fold_order; [reflexivity | | | auto].
  - apply (Permutation_NoDup (Permutation_sym (sort_perm _))), merged_keys_nodup.
  - intros k Hk. apply (Permutation_in _ (sort_perm _)) in Hk.
    destruct (merged_keys_dotted _ _ Hk) as [p [k' ->]]. apply dotted_ordinary.
Qed.

Lemma orderKeys_keys (data : jsobject) :
  keys (orderKeys (mergeData data)) = sort (keys (mergeData data)).
Proof.
  rewrite orderKeys_own. unfold keys at 1; simpl.
  apply keys_entries. intros k Hk.
  apply (Permutation_in _ (sort_perm _)) in Hk. exact Hk.
Qed.

Lemma orderKeys_get (data : jsobject) (k : jsstring) :
  get (orderKeys (mergeData data)) k = get (mergeData data) k.
Proof.
  rewrite orderKeys_own. unfold get at 1, inherited; simpl.
  destruct (in_dec (list_eq_dec N.eq_dec) k (keys (mergeData data))) as [Hin | Hout].
  - rewrite lookup_entries
      by (apply (Permutation_in _ (Permutation_sym (sort_perm _))); exact Hin).
    destruct (get (mergeData data) k); reflexivity.
  - assert (Hnone : lookup (flat_map (entry_of (mergeData data))
                              (sort (keys (mergeData data)))) k = None).
    { apply lookup_none_keys. rewrite keys_entries.
      - intros Hin. apply Hout. apply (Permutation_in _ (sort_perm _)); exact Hin.
      - intros k' Hk'. apply (Permutation_in _ (sort_perm _)); exact Hk'. }
    rewrite Hnone. rewrite get_merged. symmetry.
    apply lookup_none_keys. exact Hout.
Qed.

Lemma merged_key_iff_get (data : jsobject) (key : jsstring) :
  In key (keys (mergeData data)) <-> get (mergeData data) key <> None.
Proof.
  rewrite get_merged. unfold keys.
  pose proof (lookup_none_keys (own (mergeData data)) key) as H.
  destruct (lookup (own (mergeData data)) key) as [v|].
  - split; [discriminate|]. intros _.
    destruct (in_dec (list_eq_dec N.eq_dec) key (map fst (own (mergeData data))))
      as [Hin | Hout]; [exact Hin|].
    apply H in Hout. discriminate.
  - split; [|congruence]. intros Hin. exfalso.
    apply (proj1 H); [reflexivity | exact Hin].
Qed.

Lemma orderKeys_same_entries (data data' : jsobject) :
  (forall key, get (mergeData data') key = get (mergeData data) key) ->
  orderKeys (mergeData data') = orderKeys (mergeData data).
Proof.
  intros Hget. rewrite !orderKeys_own. f_equal.
  assert (Hkeys : sort (keys (mergeData data')) = sort (keys (mergeData data))).
  { apply sorted_unique; try (apply sort_strict, merged_keys_nodup).
    intros k.
    split; intros Hk; apply (Permutation_in _ (sort_perm _)) in Hk;
      apply (Permutation_in _ (Permutation_sym (sort_perm _)));
      apply merged_key_iff_get; apply merged_key_iff_get in Hk; congruence. }
  rewrite Hkeys. apply flat_map_ext. intros key. unfold entry_of.
  rewrite Hget. reflexivity.
Qed.

(** C3, as amended.  The object that [treatMergedData] serializes has
    exactly the entries of the merged table: every key reads the same value
    in both, and the keys of one are a rearrangement of the keys of the
    other.  Its keys are enumerated in strictly ascending order of their
    UTF-16 code units, compared as whole strings.  The order in which the
    merged table got its entries plays no part: two merged tables with the
    same entries give the same ordered object. *)
Theorem ordered_table_same_entries_sorted_by_code_units (data : jsobject) :
  let merged := mergeData data in
  let mergedOrdered := orderKeys merged in
  (forall key, get mergedOrdered key = get merged key)
  /\ Permutation (keys mergedOrdered) (keys merged)
  /\ StronglySorted str_lt (keys mergedOrdered)
  /\ (forall data',
        (forall key, get (mergeData data') key = get merged key) ->
        orderKeys (mergeData data') = mergedOrdered).
Proof.
  cbv zeta. split; [|split; [|split]].
  - intros key. apply orderKeys_get.
  - rewrite orderKeys_keys. apply sort_perm.
  - rewrite orderKeys_keys. apply sort_strict, merged_keys_nodup.
  - intros data'. apply orderKeys_same_entries.
Qed.

(** C3 as stated fails: the keys of the ordered table of [astral_data] are
    ascending neither by code points nor by the bytes of their UTF-8
    encoding.  The key with U+10000 comes first because its first code unit
    D800 is below E000. *)
Lemma ordered_keys_not_ascending_by_code_point :
  keys (orderKeys (mergeData astral_data))
  = [lit "core." ++ [55296%N; 56320%N]; lit "core." ++ [57344%N]]
  /\ codepoints (lit "core." ++ [55296%N; 56320%N]) = lit "core." ++ [65536%N]
  /\ ~ StronglySorted codepoint_lt (keys (orderKeys (mergeData astral_data)))
  /\ ~ StronglySorted byte_lt (keys (orderKeys (mergeData astral_data))).
Proof.
  split; [reflexivity|]. split; [reflexivity|]. split.
  - intros H. inversion H as [|? ? _ Hall]; subst.
    inversion Hall as [|? ? Hlt _]; subst. vm_compute in Hlt. discriminate Hlt.
  - intros H. inversion H as [|? ? _ Hall]; subst.
    inversion Hall as [|? ? Hlt _]; subst. vm_compute in Hlt. discriminate Hlt.
Qed.

(** ** The serialized table *)

Lemma bufferFrom_pair (a b : codeunit) (r : jsstring) :
  bufferFrom (a :: b :: r) =
  if is_high_surrogate a then
    if is_low_surrogate b
    then utf8_codepoint (pair_codepoint a b) ++ bufferFrom r
    else utf8_codepoint replacement_character ++ bufferFrom (b :: r)
  else if is_low_surrogate a
  then utf8_codepoint replacement_character ++ bufferFrom (b :: r)
  else utf8_codepoint a ++ bufferFrom (b :: r).
Proof. reflexivity. Qed.

Lemma bufferFrom_single (a : codeunit) :
  bufferFrom [a] =
  if is_high_surrogate a then utf8_codepoint replacement_character
  else if is_low_surrogate a then utf8_codepoint replacement_character
  else utf8_codepoint a.
Proof.
  cbn [bufferFrom]. destruct (is_high_surrogate a); [reflexivity|].
  destruct (is_low_surrogate a); apply app_nil_r.
Qed.

Lemma bufferFrom_snoc (s : jsstring) (c : codeunit) :
  is_high_surrogate c = false -> is_low_surrogate c = false ->
  bufferFrom (s ++ [c]) = bufferFrom s ++ utf8_codepoint c.
Proof.
  intros Hh Hl.
  assert (H : forall n (s : jsstring), length s <= n ->
              bufferFrom (s ++ [c]) = bufferFrom s ++ utf8_codepoint c).
  { induction n as [|n IH]; intros [|a [|b r]] Hlen; simpl in Hlen; try lia.
    - change ([] ++ [c]) with [c]. rewrite bufferFrom_single, Hh, Hl. reflexivity.
    - change ([] ++ [c]) with [c]. rewrite bufferFrom_single, Hh, Hl. reflexivity.
    - change ([a] ++ [c]) with [a; c].
      rewrite bufferFrom_pair, !bufferFrom_single, Hh, Hl.
      destruct (is_high_surrogate a); [reflexivity|].
      destruct (is_low_surrogate a); reflexivity.
    - assert (Hr : bufferFrom (r ++ [c]) = bufferFrom r ++ utf8_codepoint c)
        by (apply IH; lia).
      assert (Hbr : bufferFrom ((b :: r) ++ [c]) =
                    bufferFrom (b :: r) ++ utf8_codepoint c)
        by (apply IH; simpl; lia).
      change ((a :: b :: r) ++ [c]) with (a :: b :: (r ++ [c])).
      change ((b :: r) ++ [c]) with (b :: (r ++ [c])) in Hbr.
      rewrite !bufferFrom_pair, Hr, Hbr.
      destruct (is_high_surrogate a).
      + destruct (is_low_surrogate b); rewrite app_assoc; reflexivity.
      + destruct (is_low_surrogate a); rewrite app_assoc; reflexivity. }
  apply (H (length s)); lia.
Qed.

Lemma print_object_closes (stepback : jsstring) (printed : list (jsstring * jsstring)) :
  exists body, print_object stepback printed = body ++ [125%N].
Proof.
  unfold print_object. destruct printed as [|kt rest].
  - exists [123%N]; reflexivity.
  - exists (lit "{" ++ [line_feed] ++ (stepback ++ gap)
            ++ join (lit "," ++ [line_feed] ++ stepback ++ gap)
                 (map (fun kt => quote (fst kt) ++ lit ": " ++ snd kt)
                      (kt :: rest))
            ++ [line_feed] ++ stepback).
    cbv zeta. rewrite <- !app_assoc. reflexivity.
Qed.

Lemma treatMergedData_closes (data : jsobject) :
  exists body, treatMergedData data = body ++ [x7d].
Proof.
  unfold treatMergedData, JSON_stringify.
  destruct (print_object_closes []
              (map (fun kv => (fst kv, stringify gap (snd kv)))
                   (own (orderKeys (mergeData data))))) as [body ->].
  exists (bufferFrom body). apply bufferFrom_snoc; reflexivity.
Qed.

Lemma join_indented (A : Type) (f : A -> jsstring) (sep inner : jsstring)
  (x : A) (l : list A) :
  inner ++ join (sep ++ inner) (map f (x :: l)) =
  join sep (map (fun y => inner ++ f y) (x :: l)).
Proof.
  revert x; induction l as [|y l IH]; intros x.
  - reflexivity.
  - change (map f (x :: y :: l)) with (f x :: map f (y :: l)).
    change (map (fun y0 => inner ++ f y0) (x :: y :: l))
      with ((inner ++ f x) :: map (fun y0 => inner ++ f y0) (y :: l)).
    change (join (sep ++ inner) (f x :: map f (y :: l)))
      with (f x ++ (sep ++ inner) ++ join (sep ++ inner) (map f (y :: l))).
    change (join sep ((inner ++ f x) :: map (fun y0 => inner ++ f y0) (y :: l)))
      with ((inner ++ f x) ++ sep
            ++ join sep (map (fun y0 => inner ++ f y0) (y :: l))).
    rewrite <- IH. rewrite <- !app_assoc. reflexivity.
Qed.

Lemma to_N_octet (n : N) : (n < 256)%N -> Byte.to_N (octet n) = n.
Proof.
  intros Hn. unfold octet. destruct (Byte.of_N n) as [b|] eqn:E.
  - apply Byte.to_of_N. exact E.
  - apply Byte.of_N_None_iff in E. lia.
Qed.

Ltac split_tests :=
  repeat match goal with
         | |- context [N.ltb ?a ?b] => destruct (N.ltb_spec a b); try lia
         | |- context [N.leb ?a ?b] => destruct (N.leb_spec a b); try lia
         end.

Lemma utf8_decode_codepoint (cp : N) (rest : list N) :
  (cp < 1114112)%N -> is_surrogate cp = false ->
  utf8_decode (map Byte.to_N (utf8_codepoint cp) ++ rest)
  = option_map (cons cp) (utf8_decode rest).
Proof.
  intros Hmax Hsur. unfold utf8_codepoint.
  pose proof (N.div_mod cp 64 ltac:(lia)) as E0.
  pose proof (N.mod_lt cp 64 ltac:(lia)) as L0.
  pose proof (N.div_mod (cp / 64) 64 ltac:(lia)) as E1.
  pose proof (N.mod_lt (cp / 64) 64 ltac:(lia)) as L1.
  pose proof (N.div_mod (cp / 64 / 64) 64 ltac:(lia)) as E2.
  pose proof (N.mod_lt (cp / 64 / 64) 64 ltac:(lia)) as L2.
  replace (cp / 4096)%N with (cp / 64 / 64)%N
    by (rewrite N.Div0.div_div; reflexivity).
  replace (cp / 262144)%N with (cp / 64 / 64 / 64)%N
    by (rewrite !N.Div0.div_div; reflexivity).
  set (q1 := (cp / 64)%N) in *. set (r0 := (cp mod 64)%N) in *.
  set (q2 := (q1 / 64)%N) in *. set (r1 := (q1 mod 64)%N) in *.
  set (q3 := (q2 / 64)%N) in *. set (r2 := (q2 mod 64)%N) in *.
  unfold is_surrogate in Hsur.
  destruct (N.ltb_spec cp 128).
  { cbn [map app]. rewrite to_N_octet by lia. cbn [utf8_decode].
    destruct (N.ltb_spec cp 128); [reflexivity | lia]. }
  destruct (N.ltb_spec cp 2048).
  { cbn [map app]. rewrite !to_N_octet by lia. cbn [utf8_decode].
    unfold is_continuation. split_tests. cbn [andb].
    replace (192 + q1 - 192)%N with q1 by lia.
    replace (128 + r0 - 128)%N with r0 by lia.
    replace (q1 * 64 + r0)%N with cp by lia.
    split_tests. reflexivity. }
  destruct (N.ltb_spec cp 65536).
  { cbn [map app]. rewrite !to_N_octet by lia. cbn [utf8_decode].
    unfold is_continuation. split_tests. cbn [andb].
    replace ((224 + q2 - 224) * 4096 + (128 + r1 - 128) * 64 + (128 + r0 - 128))%N
      with cp by lia.
    unfold is_surrogate. rewrite Hsur.
    split_tests. reflexivity. }
  cbn [map app]. rewrite !to_N_octet by lia. cbn [utf8_decode].
  unfold is_continuation. split_tests. cbn [andb].
  replace ((240 + q3 - 240) * 262144 + (128 + r2 - 128) * 4096
           + (128 + r1 - 128) * 64 + (128 + r0 - 128))%N
    with cp by lia.
  split_tests. reflexivity.
Qed.

Lemma surrogate_halves (c : N) :
  is_surrogate c = is_high_surrogate c || is_low_surrogate c.
Proof.
  unfold is_surrogate, is_high_surrogate, is_low_surrogate.
  destruct (N.leb_spec 55296 c), (N.leb_spec c 57343), (N.leb_spec c 56319),
    (N.leb_spec 56320 c); cbn; try reflexivity; lia.
Qed.

Lemma pair_codepoint_range (c d : N) :
  is_high_surrogate c = true -> is_low_surrogate d = true ->
  (65536 <= pair_codepoint c d < 1114112)%N.
Proof.
  unfold is_high_surrogate, is_low_surrogate, pair_codepoint.
  intros Hc Hd. apply andb_prop in Hc, Hd. destruct Hc as [Hc1 Hc2], Hd as [Hd1 Hd2].
  apply N.leb_le in Hc1, Hc2, Hd1, Hd2. lia.
Qed.

Lemma pair_codepoint_scalar (c d : N) :
  is_high_surrogate c = true -> is_low_surrogate d = true ->
  is_surrogate (pair_codepoint c d) = false.
Proof.
  intros Hc Hd. pose proof (pair_codepoint_range c d Hc Hd) as H.
  unfold is_surrogate. destruct (N.leb_spec (pair_codepoint c d) 57343); [lia|].
  apply andb_false_r.
Qed.

(** The cases of a string read code point by code point. *)
Lemma by_codepoints (P : jsstring -> Prop) :
  P [] ->
  (forall c d rest, is_high_surrogate c = true -> is_low_surrogate d = true ->
                    P rest -> P (c :: d :: rest)) ->
  (forall c rest, is_high_surrogate c = true ->
                  match rest with
                  | d :: _ => is_low_surrogate d = false
                  | [] => True
                  end ->
                  P rest -> P (c :: rest)) ->
  (forall c rest, is_high_surrogate c = false -> P rest -> P (c :: rest)) ->
  forall s, P s.
Proof.
  intros Hnil Hpair Hlone Hunit s.
  assert (H : forall n (s : jsstring), length s <= n -> P s).
  { clear s. induction n as [|n IH]; intros [|c rest] Hlen; simpl in Hlen;
      try lia; auto.
    destruct (is_high_surrogate c) eqn:Hc.
    - destruct rest as [|d rest'].
      + apply Hlone; auto.
      + destruct (is_low_surrogate d) eqn:Hd.
        * apply Hpair; auto. apply IH. simpl in Hlen. lia.
        * apply Hlone; auto. apply IH. lia.
    - apply Hunit; auto. apply IH. lia. }
  apply (H (length s)). lia.
Qed.

Lemma codepoints_pair (c d : N) (rest : jsstring) :
  is_high_surrogate c = true -> is_low_surrogate d = true ->
  codepoints (c :: d :: rest) = pair_codepoint c d :: codepoints rest.
Proof. intros Hc Hd. cbn [codepoints]. rewrite Hc, Hd. reflexivity. Qed.

Lemma codepoints_lone (c : N) (rest : jsstring) :
  is_high_surrogate c = true ->
  match rest with
  | d :: _ => is_low_surrogate d = false
  | [] => True
  end ->
  codepoints (c :: rest) = c :: codepoints rest.
Proof.
  intros Hc Hd. cbn [codepoints]. rewrite Hc.
  destruct rest as [|d rest']; [reflexivity|]. rewrite Hd. reflexivity.
Qed.

Lemma codepoints_unit (c : N) (rest : jsstring) :
  is_high_surrogate c = false ->
  codepoints (c :: rest) = c :: codepoints rest.
Proof. intros Hc. cbn [codepoints]. rewrite Hc. reflexivity. Qed.

Lemma bufferFrom_pair_of (c d : N) (rest : jsstring) :
  is_high_surrogate c = true -> is_low_surrogate d = true ->
  bufferFrom (c :: d :: rest)
  = utf8_codepoint (pair_codepoint c d) ++ bufferFrom rest.
Proof. intros Hc Hd. cbn [bufferFrom]. rewrite Hc, Hd. reflexivity. Qed.

Lemma bufferFrom_lone (c : N) (rest : jsstring) :
  is_high_surrogate c = true ->
  match rest with
  | d :: _ => is_low_surrogate d = false
  | [] => True
  end ->
  bufferFrom (c :: rest) = utf8_codepoint 65533 ++ bufferFrom rest.
Proof.
  intros Hc Hd. cbn [bufferFrom]. rewrite Hc.
  destruct rest as [|d rest'].
  - symmetry. apply app_nil_r.
  - rewrite Hd. reflexivity.
Qed.

Lemma bufferFrom_unit (c : N) (rest : jsstring) :
  is_high_surrogate c = false ->
  bufferFrom (c :: rest)
  = utf8_codepoint (if is_low_surrogate c then 65533%N else c)
    ++ bufferFrom rest.
Proof.
  intros Hc. cbn [bufferFrom]. rewrite Hc.
  destruct (is_low_surrogate c); reflexivity.
Qed.

Lemma utf8_decode_bufferFrom (text : jsstring) :
  forallb is_code_unit text = true ->
  utf8_decode (map Byte.to_N (bufferFrom text)) = Some (scalar_values text).
Proof.
  unfold scalar_values.
  induction text as [|c d rest Hc Hd IH|c rest Hc Hd IH|c rest Hc IH]
    using by_codepoints; intros Hunits.
  - reflexivity.
  - rewrite bufferFrom_pair_of, codepoints_pair by assumption.
    cbn [forallb] in Hunits. apply andb_prop in Hunits. destruct Hunits as [_ Hunits].
    apply andb_prop in Hunits. destruct Hunits as [_ Hunits].
    rewrite map_app, utf8_decode_codepoint, (IH Hunits).
    + cbn [map option_map]. rewrite pair_codepoint_scalar by assumption. reflexivity.
    + apply pair_codepoint_range; assumption.
    + apply pair_codepoint_scalar; assumption.
  - rewrite bufferFrom_lone, codepoints_lone by assumption.
    cbn [forallb] in Hunits. apply andb_prop in Hunits. destruct Hunits as [_ Hunits].
    rewrite map_app, utf8_decode_codepoint, (IH Hunits) by reflexivity.
    cbn [map option_map]. rewrite surrogate_halves, Hc. reflexivity.
  - rewrite bufferFrom_unit, codepoints_unit by assumption.
    cbn [forallb] in Hunits. apply andb_prop in Hunits. destruct Hunits as [Hu Hunits].
    unfold is_code_unit in Hu. apply N.ltb_lt in Hu.
    cbn [map]. rewrite surrogate_halves, Hc. cbn [orb].
    rewrite map_app, utf8_decode_codepoint, (IH Hunits).
    + reflexivity.
    + destruct (is_low_surrogate c); lia.
    + destruct (is_low_surrogate c) eqn:Hl; [reflexivity|].
      rewrite surrogate_halves, Hc, Hl. reflexivity.
Qed.

Lemma utf16_encode_scalar_values (text : jsstring) :
  forallb is_code_unit text = true -> well_formed text = true ->
  utf16_encode (scalar_values text) = text.
Proof.
  unfold scalar_values, well_formed, utf16_encode.
  induction text as [|c d rest Hc Hd IH|c rest Hc Hd IH|c rest Hc IH]
    using by_codepoints; intros Hunits Hwf.
  - reflexivity.
  - rewrite codepoints_pair in * by assumption.
    cbn [forallb] in Hunits, Hwf.
    apply andb_prop in Hunits. destruct Hunits as [_ Hunits].
    apply andb_prop in Hunits. destruct Hunits as [_ Hunits].
    apply andb_prop in Hwf. destruct Hwf as [_ Hwf].
    cbn [map flat_map]. rewrite (IH Hunits Hwf).
    rewrite pair_codepoint_scalar by assumption.
    pose proof (pair_codepoint_range c d Hc Hd) as Hr.
    unfold utf16_units. destruct (N.ltb_spec (pair_codepoint c d) 65536); [lia|].
    unfold is_high_surrogate, is_low_surrogate in Hc, Hd.
    apply andb_prop in Hc, Hd. destruct Hc as [Hc1 Hc2], Hd as [Hd1 Hd2].
    apply N.leb_le in Hc1, Hc2, Hd1, Hd2.
    unfold pair_codepoint.
    replace (65536 + (c - 55296) * 1024 + (d - 56320) - 65536)%N
      with ((d - 56320) + (c - 55296) * 1024)%N by lia.
    rewrite N.div_add, N.Div0.mod_add by lia.
    rewrite N.div_small, N.mod_small by lia.
    cbn [app]. f_equal; [lia|]. f_equal. lia.
  - rewrite codepoints_lone in Hwf by assumption.
    cbn [forallb] in Hwf. rewrite surrogate_halves, Hc in Hwf. discriminate Hwf.
  - rewrite codepoints_unit in * by assumption.
    cbn [forallb] in Hunits, Hwf.
    apply andb_prop in Hunits. destruct Hunits as [Hu Hunits].
    apply andb_prop in Hwf. destruct Hwf as [Hs Hwf].
    apply negb_true_iff in Hs.
    cbn [map flat_map]. rewrite (IH Hunits Hwf), Hs.
    unfold utf16_units. unfold is_code_unit in Hu. rewrite Hu. reflexivity.
Qed.

Lemma hex_value_digit (n : N) :
  (n < 16)%N -> hex_value (hex_digit n) = Some n.
Proof.
  intros Hn. unfold hex_digit, hex_value.
  destruct (N.ltb_spec n 10).
  - destruct (N.leb_spec 48 (48 + n)), (N.leb_spec (48 + n) 57); try lia.
    cbn [andb]. f_equal. lia.
  - destruct (N.leb_spec 48 (87 + n)), (N.leb_spec (87 + n) 57); try lia.
    cbn [andb].
    destruct (N.leb_spec 97 (87 + n)), (N.leb_spec (87 + n) 102); try lia.
    cbn [andb]. f_equal. lia.
Qed.

Lemma read_unicode_escape (c : N) (rest : jsstring) :
  (c < 65536)%N ->
  read_string (unicode_escape c ++ rest) = read_more c (read_string rest).
Proof.
  intros Hc. unfold unicode_escape, backslash. cbn [app read_string].
  change (N.eqb 92 34) with false. change (N.eqb 92 92) with true.
  change (N.eqb 117 117) with true. cbv iota.
  pose proof (N.div_mod c 16 ltac:(lia)) as E0.
  pose proof (N.mod_lt c 16 ltac:(lia)) as L0.
  pose proof (N.div_mod (c / 16) 16 ltac:(lia)) as E1.
  pose proof (N.mod_lt (c / 16) 16 ltac:(lia)) as L1.
  pose proof (N.div_mod (c / 16 / 16) 16 ltac:(lia)) as E2.
  pose proof (N.mod_lt (c / 16 / 16) 16 ltac:(lia)) as L2.
  pose proof (N.div_mod (c / 16 / 16 / 16) 16 ltac:(lia)) as E3.
  pose proof (N.mod_lt (c / 16 / 16 / 16) 16 ltac:(lia)) as L3.
  replace (c / 256)%N with (c / 16 / 16)%N
    by (rewrite N.Div0.div_div; reflexivity).
  replace (c / 4096)%N with (c / 16 / 16 / 16)%N
    by (rewrite !N.Div0.div_div; reflexivity).
  rewrite !hex_value_digit by assumption.
  f_equal.
  assert (Htop : (c / 16 / 16 / 16 / 16 = 0)%N).
  { rewrite !N.Div0.div_div. apply N.div_small. lia. }
  rewrite Htop in E3. lia.
Qed.

Lemma read_plain_unit (c : N) (rest : jsstring) :
  (32 <= c)%N -> c <> 34%N -> c <> 92%N ->
  read_string (c :: rest) = read_more c (read_string rest).
Proof.
  intros H32 H34 H92. cbn [read_string].
  destruct (N.eqb_spec c 34); [contradiction|].
  destruct (N.eqb_spec c 92); [contradiction|].
  destruct (N.ltb_spec c 32); [lia | reflexivity].
Qed.

Lemma read_escape_unit (c : N) (rest : jsstring) :
  is_high_surrogate c = false ->
  read_string (escape_unit c ++ rest) = read_more c (read_string rest).
Proof.
  intros Hh. unfold escape_unit.
  destruct (N.eqb_spec c 8) as [->|]; [reflexivity|].
  destruct (N.eqb_spec c 9) as [->|]; [reflexivity|].
  destruct (N.eqb_spec c 10) as [->|]; [reflexivity|].
  destruct (N.eqb_spec c 12) as [->|]; [reflexivity|].
  destruct (N.eqb_spec c 13) as [->|]; [reflexivity|].
  destruct (N.eqb_spec c 34) as [->|]; [reflexivity|].
  destruct (N.eqb_spec c 92) as [->|]; [reflexivity|].
  destruct (N.ltb_spec c 32).
  - cbn [orb]. apply read_unicode_escape. lia.
  - cbn [orb]. destruct (is_low_surrogate c) eqn:Hl.
    + apply read_unicode_escape. unfold is_low_surrogate in Hl.
      apply andb_prop in Hl. destruct Hl as [_ Hl]. apply N.leb_le in Hl. lia.
    + cbn [app]. apply read_plain_unit; assumption.
Qed.

Lemma high_surrogate_plain (c : N) :
  is_high_surrogate c = true -> (32 <= c)%N /\ c <> 34%N /\ c <> 92%N /\ (c < 65536)%N.
Proof.
  unfold is_high_surrogate. intros H. apply andb_prop in H.
  destruct H as [H1 H2]. apply N.leb_le in H1, H2. lia.
Qed.

Lemma low_surrogate_plain (c : N) :
  is_low_surrogate c = true -> (32 <= c)%N /\ c <> 34%N /\ c <> 92%N /\ (c < 65536)%N.
Proof.
  unfold is_low_surrogate. intros H. apply andb_prop in H.
  destruct H as [H1 H2]. apply N.leb_le in H1, H2. lia.
Qed.

Lemma quote_units_pair (c d : N) (rest : jsstring) :
  is_high_surrogate c = true -> is_low_surrogate d = true ->
  quote_units (c :: d :: rest) = c :: d :: quote_units rest.
Proof. intros Hc Hd. cbn [quote_units]. rewrite Hc, Hd. reflexivity. Qed.

Lemma quote_units_lone (c : N) (rest : jsstring) :
  is_high_surrogate c = true ->
  match rest with
  | d :: _ => is_low_surrogate d = false
  | [] => True
  end ->
  quote_units (c :: rest) = unicode_escape c ++ quote_units rest.
Proof.
  intros Hc Hd. cbn [quote_units]. rewrite Hc.
  destruct rest as [|d rest'].
  - symmetry. apply app_nil_r.
  - rewrite Hd. reflexivity.
Qed.

Lemma quote_units_unit (c : N) (rest : jsstring) :
  is_high_surrogate c = false ->
  quote_units (c :: rest) = escape_unit c ++ quote_units rest.
Proof. intros Hc. cbn [quote_units]. rewrite Hc. reflexivity. Qed.

(** What [quote_units] writes reads back as the string. *)
Lemma read_string_quote_units (s rest : jsstring) :
  read_string (quote_units s ++ 34%N :: rest) = Some (s, rest).
Proof.
  induction s as [|c d s Hc Hd IH|c s Hc Hd IH|c s Hc IH] using by_codepoints.
  - reflexivity.
  - rewrite quote_units_pair by assumption.
    destruct (high_surrogate_plain c Hc) as (? & ? & ? & _).
    destruct (low_surrogate_plain d Hd) as (? & ? & ? & _).
    change ((c :: d :: quote_units s) ++ 34%N :: rest)
      with (c :: d :: quote_units s ++ 34%N :: rest).
    rewrite !read_plain_unit, IH by assumption. reflexivity.
  - rewrite quote_units_lone by assumption.
    destruct (high_surrogate_plain c Hc) as (_ & _ & _ & ?).
    rewrite <- app_assoc, read_unicode_escape, IH by assumption. reflexivity.
  - rewrite quote_units_unit by assumption.
    rewrite <- app_assoc, read_escape_unit, IH by assumption. reflexivity.
Qed.

Lemma codepoints_app (a b : jsstring) :
  well_formed a = true -> codepoints (a ++ b) = codepoints a ++ codepoints b.
Proof.
  unfold well_formed.
  induction a as [|c d a Hc Hd IH|c a Hc Hd IH|c a Hc IH] using by_codepoints;
    intros Hwf.
  - reflexivity.
  - change ((c :: d :: a) ++ b) with (c :: d :: a ++ b).
    rewrite !codepoints_pair in * by assumption.
    cbn [forallb] in Hwf. apply andb_prop in Hwf. destruct Hwf as [_ Hwf].
    rewrite (IH Hwf). reflexivity.
  - rewrite codepoints_lone in Hwf by assumption.
    cbn [forallb] in Hwf. rewrite surrogate_halves, Hc in Hwf. discriminate Hwf.
  - change ((c :: a) ++ b) with (c :: a ++ b).
    rewrite !codepoints_unit in * by assumption.
    cbn [forallb] in Hwf. apply andb_prop in Hwf. destruct Hwf as [_ Hwf].
    rewrite (IH Hwf). reflexivity.
Qed.

Lemma clean_app (a b : jsstring) :
  clean a = true -> clean b = true -> clean (a ++ b) = true.
Proof.
  unfold clean. intros Ha Hb.
  apply andb_prop in Ha, Hb. destruct Ha as [Ha1 Ha2], Hb as [Hb1 Hb2].
  apply andb_true_intro. split.
  - rewrite forallb_app. apply andb_true_intro. split; assumption.
  - unfold well_formed in *. rewrite codepoints_app by exact Ha2.
    rewrite forallb_app. apply andb_true_intro. split; assumption.
Qed.

Lemma clean_unit (c : N) (text : jsstring) :
  (c < 65536)%N -> is_surrogate c = false -> clean text = true ->
  clean (c :: text) = true.
Proof.
  intros Hc Hs Ht. unfold clean in *. apply andb_prop in Ht.
  destruct Ht as [Ht1 Ht2]. apply N.ltb_lt in Hc.
  pose proof Hs as Hs'. rewrite surrogate_halves in Hs'.
  apply orb_false_elim in Hs'. destruct Hs' as [Hh Hl].
  apply andb_true_intro. split.
  - cbn [forallb]. apply andb_true_intro. split; assumption.
  - unfold well_formed in *. rewrite codepoints_unit by exact Hh.
    cbn [forallb]. apply andb_true_intro. split; [|exact Ht2].
    rewrite Hs. reflexivity.
Qed.

Lemma ascii_clean (text : jsstring) :
  forallb (fun c => N.ltb c 128) text = true -> clean text = true.
Proof.
  induction text as [|c text IH]; [reflexivity|].
  cbn [forallb]. intros H. apply andb_prop in H. destruct H as [Hc H].
  apply N.ltb_lt in Hc. apply clean_unit; [lia | | apply IH; exact H].
  unfold is_surrogate. destruct (N.leb_spec 55296 c); [lia | reflexivity].
Qed.

Lemma hex_digit_ascii (n : N) : (n < 16)%N -> N.ltb (hex_digit n) 128 = true.
Proof.
  intros Hn. unfold hex_digit. apply N.ltb_lt.
  destruct (N.ltb_spec n 10); lia.
Qed.

Lemma clean_unicode_escape (c : N) : clean (unicode_escape c) = true.
Proof.
  apply ascii_clean. unfold unicode_escape. cbn [forallb].
  rewrite !hex_digit_ascii by (apply N.mod_lt; lia). reflexivity.
Qed.

Lemma clean_escape_unit (c : N) :
  (c < 65536)%N -> is_high_surrogate c = false -> clean (escape_unit c) = true.
Proof.
  intros Hc Hh. unfold escape_unit.
  repeat match goal with
         | |- context [N.eqb c ?k] => destruct (N.eqb c k); [reflexivity|]
         end.
  destruct (N.ltb c 32); cbn [orb]; [apply clean_unicode_escape|].
  destruct (is_low_surrogate c) eqn:Hl; [apply clean_unicode_escape|].
  apply clean_unit; [exact Hc | | reflexivity].
  rewrite surrogate_halves, Hh, Hl. reflexivity.
Qed.

Lemma clean_quote_units (s : jsstring) :
  forallb is_code_unit s = true -> clean (quote_units s) = true.
Proof.
  induction s as [|c d s Hc Hd IH|c s Hc Hd IH|c s Hc IH] using by_codepoints;
    intros Hunits.
  - reflexivity.
  - rewrite quote_units_pair by assumption.
    cbn [forallb] in Hunits.
    apply andb_prop in Hunits. destruct Hunits as [Hu1 Hunits].
    apply andb_prop in Hunits. destruct Hunits as [Hu2 Hunits].
    specialize (IH Hunits). unfold clean in *.
    apply andb_prop in IH. destruct IH as [IH1 IH2].
    apply andb_true_intro. split.
    + cbn [forallb]. repeat (apply andb_true_intro; split); assumption.
    + unfold well_formed in *. rewrite codepoints_pair by assumption.
      cbn [forallb]. apply andb_true_intro. split; [|exact IH2].
      rewrite pair_codepoint_scalar by assumption. reflexivity.
  - rewrite quote_units_lone by assumption.
    cbn [forallb] in Hunits. apply andb_prop in Hunits. destruct Hunits as [_ Hunits].
    apply clean_app; [apply clean_unicode_escape | apply IH; exact Hunits].
  - rewrite quote_units_unit by assumption.
    cbn [forallb] in Hunits. apply andb_prop in Hunits. destruct Hunits as [Hu Hunits].
    apply clean_app; [|apply IH; exact Hunits].
    apply clean_escape_unit; [|exact Hc].
    apply N.ltb_lt. exact Hu.
Qed.

Lemma clean_join (sep : jsstring) (pieces : list jsstring) :
  clean sep = true -> forallb clean pieces = true ->
  clean (join sep pieces) = true.
Proof.
  intros Hsep. induction pieces as [|p [|q rest] IH]; intros H.
  - reflexivity.
  - cbn [forallb] in H. apply andb_prop in H. apply H.
  - change (join sep (p :: q :: rest)) with (p ++ sep ++ join sep (q :: rest)).
    cbn [forallb] in H. apply andb_prop in H. destruct H as [Hp H].
    apply clean_app; [exact Hp|]. apply clean_app; [exact Hsep|].
    apply IH. exact H.
Qed.

Lemma table_line_string (k s : jsstring) :
  table_line (k, JString s)
  = [32; 32; 32; 32; 34]%N ++ quote_units k ++ [34; 58; 32; 34]%N
    ++ quote_units s ++ [34%N].
Proof.
  unfold table_line. cbn [fst snd stringify]. unfold quote, double_quote.
  reflexivity.
Qed.

Lemma clean_table_line (kv : jsstring * jsvalue) :
  string_entry kv = true -> clean (table_line kv) = true.
Proof.
  destruct kv as [k v]. unfold string_entry. cbn [fst snd]. intros H.
  apply andb_prop in H. destruct H as [Hk Hv].
  destruct v as [| | |s| |]; try discriminate Hv.
  rewrite table_line_string.
  apply clean_app; [reflexivity|].
  apply clean_app; [apply clean_quote_units; exact Hk|].
  apply clean_app; [reflexivity|].
  apply clean_app; [apply clean_quote_units; exact Hv | reflexivity].
Qed.

Lemma clean_table_text (entries : properties) :
  forallb string_entry entries = true -> clean (table_text entries) = true.
Proof.
  intros H. unfold table_text. destruct entries as [|kv rest]; [reflexivity|].
  apply clean_app; [reflexivity|].
  apply clean_app; [|reflexivity].
  apply clean_join; [reflexivity|].
  rewrite forallb_forall in *.
  intros line Hline. apply in_map_iff in Hline. destruct Hline as [e [<- He]].
  apply clean_table_line, H, He.
Qed.

Lemma strip_app (pre text : jsstring) : strip pre (pre ++ text) = Some text.
Proof.
  induction pre as [|p pre IH]; [reflexivity|].
  cbn [app strip]. rewrite N.eqb_refl. exact IH.
Qed.

Lemma read_entry_line (k s rest : jsstring) :
  read_entry (table_line (k, JString s) ++ rest)
  = Some ((k, JString s), rest).
Proof.
  rewrite table_line_string. unfold read_entry.
  rewrite <- !app_assoc, strip_app.
  change ([34; 58; 32; 34]%N ++ quote_units s ++ [34%N] ++ rest)
    with (34%N :: [58; 32; 34]%N ++ quote_units s ++ 34%N :: rest).
  rewrite read_string_quote_units, strip_app, read_string_quote_units.
  reflexivity.
Qed.

Lemma read_entries_lines (entries : properties) (kv : jsstring * jsvalue)
  (fuel : nat) :
  forallb string_valued (kv :: entries) = true ->
  length (kv :: entries) <= fuel ->
  read_entries fuel (join [44; 10]%N (map table_line (kv :: entries))
                     ++ [10; 125]%N)
  = Some (kv :: entries).
Proof.
  revert kv fuel. induction entries as [|kv' entries IH]; intros [k v] fuel Hs Hf.
  - destruct fuel as [|fuel]; [simpl in Hf; lia|].
    cbn [forallb] in Hs. apply andb_prop in Hs. destruct Hs as [Hv _].
    destruct v as [| | |s| |]; try discriminate Hv.
    cbn [map join read_entries]. rewrite read_entry_line. reflexivity.
  - destruct fuel as [|fuel]; [simpl in Hf; lia|].
    cbn [forallb] in Hs. apply andb_prop in Hs. destruct Hs as [Hv Hs].
    destruct v as [| | |s| |]; try discriminate Hv.
    change (map table_line ((k, JString s) :: kv' :: entries))
      with (table_line (k, JString s) :: map table_line (kv' :: entries)).
    change (join [44; 10]%N
              (table_line (k, JString s) :: map table_line (kv' :: entries)))
      with (table_line (k, JString s) ++ [44; 10]%N
            ++ join [44; 10]%N (map table_line (kv' :: entries))).
    cbn [read_entries]. rewrite <- !app_assoc, read_entry_line, strip_app.
    rewrite IH; [reflexivity | exact Hs | simpl in *; lia].
Qed.

Lemma table_line_length (kv : jsstring * jsvalue) : 1 <= length (table_line kv).
Proof. unfold table_line. cbn [app length]. lia. Qed.

Lemma join_lines_length (entries : properties) :
  length entries <= length (join [44; 10]%N (map table_line entries)).
Proof.
  induction entries as [|kv [|kv' entries] IH].
  - simpl; lia.
  - cbn [map join length]. apply table_line_length.
  - change (map table_line (kv :: kv' :: entries))
      with (table_line kv :: map table_line (kv' :: entries)).
    change (join [44; 10]%N (table_line kv :: map table_line (kv' :: entries)))
      with (table_line kv ++ [44; 10]%N
            ++ join [44; 10]%N (map table_line (kv' :: entries))).
    rewrite !length_app. pose proof (table_line_length kv).
    change (length (kv :: kv' :: entries)) with (S (length (kv' :: entries))).
    unfold properties, jsstring, codeunit in *. lia.
Qed.

Lemma read_table_text (entries : properties) :
  forallb string_valued entries = true ->
  read_table (table_text entries) = Some entries.
Proof.
  intros Hs. unfold table_text, read_table.
  destruct entries as [|kv rest]; [reflexivity|].
  change (str_eqb ([123; 10]%N ++ join [44; 10]%N (map table_line (kv :: rest))
                   ++ [10; 125]%N) [123; 125]%N)
    with false.
  cbv iota. rewrite strip_app.
  apply read_entries_lines; [exact Hs|].
  rewrite length_app. pose proof (join_lines_length (kv :: rest)). lia.
Qed.

Lemma read_back_clean (text : jsstring) :
  clean text = true -> read_back (bufferFrom text) = read_table text.
Proof.
  unfold clean. intros H. apply andb_prop in H. destruct H as [Hu Hw].
  unfold read_back. rewrite utf8_decode_bufferFrom by exact Hu.
  rewrite utf16_encode_scalar_values by assumption. reflexivity.
Qed.

Lemma string_entry_valued (entries : properties) :
  forallb string_entry entries = true -> forallb string_valued entries = true.
Proof.
  rewrite !forallb_forall. intros H kv Hin. specialize (H kv Hin).
  unfold string_entry in H. apply andb_prop in H. destruct H as [_ H].
  unfold string_valued. destruct (snd kv); auto.
Qed.

Lemma table_line_printed (kv : jsstring * jsvalue) :
  gap ++ quote (fst kv) ++ lit ": " ++ stringify gap (snd kv) = table_line kv.
Proof.
  unfold table_line, quote, gap, double_quote.
  rewrite <- !app_assoc. reflexivity.
Qed.

Lemma JSON_stringify_table (o : jsobject) :
  JSON_stringify o = table_text (own o).
Proof.
  unfold JSON_stringify, print_object, table_text.
  destruct (own o) as [|kv rest]; [reflexivity|].
  rewrite map_map.
  transitivity
    (lit "{" ++ [line_feed]
     ++ (gap ++ join ((lit "," ++ [line_feed]) ++ gap)
           (map (fun x => quote (fst x) ++ lit ": " ++ stringify gap (snd x))
                (kv :: rest)))
     ++ [line_feed] ++ lit "}"); [reflexivity|].
  rewrite join_indented.
  rewrite (map_ext _ table_line table_line_printed). reflexivity.
Qed.

Lemma stringify_cases (indent : jsstring) (value : jsvalue) :
  stringify indent value
  = match value with
    | JNull => [110; 117; 108; 108]%N
    | JBool true => [116; 114; 117; 101]%N
    | JBool false => [102; 97; 108; 115; 101]%N
    | JNumber shown =>
        if not_finite shown then [110; 117; 108; 108]%N else shown
    | JString s => [34%N] ++ quote_units s ++ [34%N]
    | JArray [] => [91; 93]%N
    | JArray ((_ :: _) as elems) =>
        [91; 10]%N ++ indent ++ [32; 32; 32; 32]%N
        ++ join ([44; 10]%N ++ indent ++ [32; 32; 32; 32]%N)
                (map (stringify (indent ++ [32; 32; 32; 32]%N)) elems)
        ++ [10%N] ++ indent ++ [93%N]
    | JObject members =>
        match
          object_of
            (map (fun kv => (fst kv,
                             stringify (indent ++ [32; 32; 32; 32]%N) (snd kv)))
                 members)
        with
        | [] => [123; 125]%N
        | (_ :: _) as printed =>
            [123; 10]%N ++ indent ++ [32; 32; 32; 32]%N
            ++ join ([44; 10]%N ++ indent ++ [32; 32; 32; 32]%N)
                    (map (fun kt => [34%N] ++ quote_units (fst kt)
                                    ++ [34; 58; 32]%N ++ snd kt)
                         printed)
            ++ [10%N] ++ indent ++ [125%N]
        end
    end.
Proof.
  destruct value as [|[|]|shown|s|elems|members]; try reflexivity.
  - destruct elems as [|e elems]; [reflexivity|].
    cbn [stringify]. unfold print_array, gap.
    change (lit "    ") with [32; 32; 32; 32]%N.
    rewrite <- !app_assoc. reflexivity.
  - cbn [stringify]. unfold print_object, gap.
    change (lit "    ") with [32; 32; 32; 32]%N.
    destruct (object_of _) as [|kt printed]; [reflexivity|].
    rewrite (map_ext (fun kt : jsstring * jsstring =>
                        quote (fst kt) ++ lit ": " ++ snd kt)
                     (fun kt => [34%N] ++ quote_units (fst kt)
                                ++ [34; 58; 32]%N ++ snd kt))
      by (intros [k t]; cbn [fst snd]; unfold quote, double_quote;
          rewrite <- !app_assoc; reflexivity).
    rewrite <- !app_assoc. reflexivity.
Qed.

(** C7, as amended.  The bytes that [treatMergedData] returns are the UTF-8
    encoding of the JSON text of the key-sorted object printed with an
    indentation of four spaces, and they end with the closing brace: no line
    feed follows it.  The entries printed are those of the merged table.
    In detail: the text is [{}] for an empty table, and
    otherwise an opening brace, one line per entry in the ascending order of
    the keys, and the closing brace on a line of its own; a line is four
    spaces, the key between quotation marks, a colon, a space and the value,
    and the lines are separated by a comma and a line feed.  A value is
    printed as [JSON.stringify] prints it, the members of an object or an
    array four spaces deeper at every level.  What stands between two
    quotation marks reads back as the string by the rules of JSON: the
    quotation mark, the backslash and the control characters are escaped,
    with the short escapes where JSON has one and four lower-case
    hexadecimal digits otherwise, and so is a surrogate on its own.  The
    bytes read back as the code points of the text by the rules of UTF-8.
    For a table of strings, reading the bytes back gives the entries of the
    sorted table, whatever characters the keys and the values have.  The
    bytes of one table with escapes, with characters of two, three and four
    bytes, and with values that are not strings are given in full. *)
Theorem output_is_indented_json_ending_with_brace (data : jsobject) :
  let entries := own (orderKeys (mergeData data)) in
  treatMergedData data = bufferFrom (table_text entries)
  /\ StronglySorted str_lt (map fst entries)
  /\ (forall key, lookup entries key = get (mergeData data) key)
  /\ (forall indent value,
        stringify indent value
        = match value with
          | JNull => [110; 117; 108; 108]%N
          | JBool true => [116; 114; 117; 101]%N
          | JBool false => [102; 97; 108; 115; 101]%N
          | JNumber shown =>
              if not_finite shown then [110; 117; 108; 108]%N else shown
          | JString s => [34%N] ++ quote_units s ++ [34%N]
          | JArray [] => [91; 93]%N
          | JArray ((_ :: _) as elems) =>
              [91; 10]%N ++ indent ++ [32; 32; 32; 32]%N
              ++ join ([44; 10]%N ++ indent ++ [32; 32; 32; 32]%N)
                      (map (stringify (indent ++ [32; 32; 32; 32]%N)) elems)
              ++ [10%N] ++ indent ++ [93%N]
          | JObject members =>
              match
                object_of
                  (map (fun kv =>
                          (fst kv,
                           stringify (indent ++ [32; 32; 32; 32]%N) (snd kv)))
                       members)
              with
              | [] => [123; 125]%N
              | (_ :: _) as printed =>
                  [123; 10]%N ++ indent ++ [32; 32; 32; 32]%N
                  ++ join ([44; 10]%N ++ indent ++ [32; 32; 32; 32]%N)
                          (map (fun kt => [34%N] ++ quote_units (fst kt)
                                          ++ [34; 58; 32]%N ++ snd kt)
                               printed)
                  ++ [10%N] ++ indent ++ [125%N]
              end
          end)
  /\ (forall s rest,
        read_string (quote_units s ++ 34%N :: rest) = Some (s, rest))
  /\ quote_units [8; 9; 10; 12; 13; 34; 92; 0; 31; 47; 127; 56320;
                  55296; 97; 55357; 56832; 55296]%N
     = [92; 98; 92; 116; 92; 110; 92; 102; 92; 114; 92; 34; 92; 92;
        92; 117; 48; 48; 48; 48; 92; 117; 48; 48; 49; 102; 47; 127;
        92; 117; 100; 99; 48; 48; 92; 117; 100; 56; 48; 48; 97;
        55357; 56832; 92; 117; 100; 56; 48; 48]%N
  /\ (forallb is_code_unit (table_text entries) = true ->
      utf8_decode (map Byte.to_N (treatMergedData data))
      = Some (scalar_values (table_text entries)))
  /\ (forallb string_entry entries = true ->
      read_back (treatMergedData data) = Some entries)
  /\ last (treatMergedData data) x00 = x7d
  /\ map Byte.to_N (treatMergedData escaped_data)
     = [123; 10;
        32; 32; 32; 32; 34; 99; 111; 114; 101; 46; 110; 34; 58; 32; 123; 10;
        32; 32; 32; 32; 32; 32; 32; 32; 34; 100; 34; 58; 32; 91; 10;
        32; 32; 32; 32; 32; 32; 32; 32; 32; 32; 32; 32; 49; 44; 10;
        32; 32; 32; 32; 32; 32; 32; 32; 32; 32; 32; 32;
        110; 117; 108; 108; 44; 10;
        32; 32; 32; 32; 32; 32; 32; 32; 32; 32; 32; 32;
        102; 97; 108; 115; 101; 10;
        32; 32; 32; 32; 32; 32; 32; 32; 93; 44; 10;
        32; 32; 32; 32; 32; 32; 32; 32; 34; 101; 34; 58; 32; 123; 125; 10;
        32; 32; 32; 32; 125; 44; 10;
        32; 32; 32; 32; 34; 99; 111; 114; 101; 46; 113; 92; 34; 92; 92; 34;
        58; 32; 34; 92; 116; 92; 117; 48; 48; 49; 102; 34; 44; 10;
        32; 32; 32; 32; 34; 99; 111; 114; 101; 46; 195; 169; 34; 58; 32;
        34; 226; 130; 172; 240; 159; 152; 128; 34; 10;
        125]%N.
Proof.
  cbv zeta.
  assert (Htext : treatMergedData data
                  = bufferFrom (table_text (own (orderKeys (mergeData data)))))
    by (unfold treatMergedData; rewrite JSON_stringify_table; reflexivity).
  split; [exact Htext|].
  split.
  { change (map fst (own (orderKeys (mergeData data))))
      with (keys (orderKeys (mergeData data))).
    rewrite orderKeys_keys. apply sort_strict, merged_keys_nodup. }
  split.
  { intros key. rewrite <- orderKeys_get, orderKeys_own.
    unfold get, inherited. cbn [own proto].
    destruct (lookup _ key); reflexivity. }
  split; [exact stringify_cases|].
  split; [exact read_string_quote_units|].
  split; [reflexivity|].
  split.
  { intros Hunits. rewrite Htext. apply utf8_decode_bufferFrom. exact Hunits. }
  split.
  { intros Hstrings. rewrite Htext.
    rewrite read_back_clean by (apply clean_table_text; exact Hstrings).
    apply read_table_text, string_entry_valued. exact Hstrings. }
  split.
  { destruct (treatMergedData_closes data) as [body ->]. apply last_last. }
  vm_compute. reflexivity.
Qed.

Lemma output_read_back_at_astral_data :
  utf8_decode (map Byte.to_N (treatMergedData astral_data))
  = Some (scalar_values (table_text (own (orderKeys (mergeData astral_data)))))
  /\ read_back (treatMergedData astral_data)
     = Some [(lit "core." ++ [55296; 56320]%N, JString (lit "astral"));
             (lit "core." ++ [57344%N], JString (lit "private use"))].
Proof.
  pose proof (output_is_indented_json_ending_with_brace astral_data) as H.
  cbv zeta in H. destruct H as (_ & _ & _ & _ & _ & _ & Hutf8 & Hback & _).
  split.
  - apply Hutf8. reflexivity.
  - rewrite Hback by reflexivity. reflexivity.
Defined.

(** C7 as stated fails: the last byte of the output is the closing brace,
    for the empty table and for a table with an entry, and not a line
    feed. *)
Lemma output_has_no_trailing_line_feed :
  treatMergedData new_object = [x7b; x7d]
  /\ last (treatMergedData new_object) x00 <> x0a
  /\ last (treatMergedData (fst (treatFiles sample_parse addon_run new_object)))
          x00 = x7d
  /\ last (treatMergedData (fst (treatFiles sample_parse addon_run new_object)))
          x00 <> x0a.
Proof.
  split; [reflexivity|]. split; [vm_compute; discriminate|].
  split; [reflexivity | vm_compute; discriminate].
Qed.

(** ** Nothing ingested *)

Section NothingIngested.

Variable JSON_parse : list byte -> parse_result.

Lemma treatFile_accepted (file : vinyl) (data : jsobject) :
  fst (treatFile JSON_parse file data) =
  match accepted JSON_parse file with
  | Some fragment => put data (fst fragment) (snd fragment)
  | None => data
  end.
Proof.
  unfold treatFile, accepted.
  destruct (contents file); auto.
  destruct (JSON_parse bytes); reflexivity.
Qed.

Lemma treatFiles_fragments (files : list vinyl) (data : jsobject) :
  fst (treatFiles JSON_parse files data) =
  fold_left (fun data fragment => put data (fst fragment) (snd fragment))
            (fragments JSON_parse files) data.
Proof.
  unfold treatFiles.
  generalize (@nil jsstring) as lines.
  revert data; induction files as [|file files IH]; intros data lines; simpl; auto.
  rewrite fold_left_app.
  pose proof (treatFile_accepted file data) as H.
  destruct (treatFile JSON_parse file data) as [data' lines']; simpl in *.
  rewrite IH, H.
  destruct (accepted JSON_parse file); reflexivity.
Qed.

(** C8.  When none of the files of the stream gives a fragment (a file has
    no buffer, or its text does not parse), [data] is still the empty
    object when the stream ends, and [treatMergedData] returns the two bytes
    of [{}], the JSON text of the empty object.  In [run] these bytes are the
    contents of the joined file whenever the stream held a file. *)
Theorem nothing_ingested_gives_empty_object (files : list vinyl) :
  (forall file, In file files -> accepted JSON_parse file = None) ->
  fst (treatFiles JSON_parse files new_object) = new_object
  /\ treatMergedData (fst (treatFiles JSON_parse files new_object))
     = bufferFrom (lit "{}")
  /\ bufferFrom (lit "{}") = [x7b; x7d]
  /\ (forall firstFile others, files = firstFile :: others ->
        fst (joinFiles JSON_parse files) = Some [x7b; x7d]).
Proof.
  intros Hnone.
  assert (H : fst (treatFiles JSON_parse files new_object) = new_object).
  { rewrite treatFiles_fragments.
    replace (fragments JSON_parse files) with (@nil (jsstring * jsvalue));
      [reflexivity|].
    unfold fragments. induction files as [|file files' IH]; simpl; auto.
    rewrite (Hnone file) by (left; reflexivity). simpl.
    apply IH. intros f Hf; apply Hnone; right; exact Hf. }
  rewrite H. repeat split; try reflexivity.
  intros firstFile others Hfiles. unfold joinFiles.
  destruct (treatFiles JSON_parse files new_object) as [data lines] eqn:E.
  simpl in H. subst data. rewrite Hfiles. reflexivity.
Qed.

End NothingIngested.

Lemma nothing_ingested_at_failing_run :
  treatMergedData (fst (treatFiles sample_parse failing_run new_object))
  = [x7b; x7d].
Proof.
  assert (Hnone : forall file, In file failing_run ->
                               accepted sample_parse file = None).
  { intros file [<- | [<- | []]]; reflexivity. }
  destruct (@nothing_ingested_gives_empty_object sample_parse failing_run Hnone)
    as (_ & H1 & H2 & _).
  rewrite H1. exact H2.
Defined.

(** ** The namespace prefix *)

Lemma removelast_tl_addon (rest : list jsstring) :
  tl (removelast (lit "addon" :: rest)) = removelast rest.
Proof. destruct rest; reflexivity. Qed.

Lemma prefixOf_lang (filepath : jsstring) (rest : list jsstring) :
  removelast (split_path filepath) = lit "lang" :: rest ->
  prefixOf filepath = Some (lit "core").
Proof. unfold prefixOf. intros ->. reflexivity. Qed.

Lemma prefixOf_core (filepath second : jsstring) (more : list jsstring) :
  removelast (split_path filepath) = lit "core" :: second :: more ->
  prefixOf filepath =
  Some (if str_eqb second (lit "lang") then lit "core"
        else lit "core." ++ second).
Proof.
  unfold prefixOf. intros ->. simpl nth_error.
  change (str_eqb (lit "core") (lit "lang")) with false.
  change (str_eqb (lit "core") (lit "core")) with true.
  cbv iota. unfold loosely_equal, to_string.
  destruct (str_eqb second (lit "lang")); reflexivity.
Qed.

Lemma prefixOf_addon (filepath : jsstring) (rest : list jsstring) :
  removelast (split_path filepath) = lit "addon" :: rest ->
  prefixOf filepath = Some (lit "addon." ++ join (lit "_") (removelast rest)).
Proof.
  unfold prefixOf. intros ->. simpl nth_error.
  change (str_eqb (lit "addon") (lit "lang")) with false.
  change (str_eqb (lit "addon") (lit "core")) with false.
  change (str_eqb (lit "addon") (lit "addon")) with true.
  cbv iota zeta. rewrite removelast_tl_addon. reflexivity.
Qed.

Lemma prefixOf_assets (filepath second : jsstring) (more : list jsstring) :
  removelast (split_path filepath) = lit "assets" :: second :: more ->
  prefixOf filepath = Some (lit "assets." ++ second).
Proof. unfold prefixOf. intros ->. reflexivity. Qed.

Lemma merged_has_qualified_key (data : jsobject) (filepath : jsstring)
  (fragment : jsvalue) (p k : jsstring) :
  In filepath (for_in data) -> get data filepath = Some fragment ->
  prefixOf filepath = Some p -> In k (map fst (enumerate fragment)) ->
  In (p ++ lit "." ++ k) (keys (mergeData data)).
Proof.
  intros Hin Hget Hp Hk.
  rewrite mergeData_define. unfold keys; simpl. apply keys_object_of_in.
  unfold contributions. apply in_map_iff in Hk. destruct Hk as [[k' v] [Hfst Hk]].
  simpl in Hfst; subst k'.
  apply in_map_iff. exists (p ++ lit "." ++ k, v). split; [reflexivity|].
  apply in_flat_map. exists filepath. split; [exact Hin|].
  rewrite Hget. unfold contribution. rewrite Hp.
  apply in_map_iff. exists (k, v). split; [reflexivity | exact Hk].
Qed.

(** C1 fails on the code in one case of the dispatch, which this theorem
    records together with the cases that hold.  Let [root] be the first of
    the segments that remain of the relative path of a stored fragment once
    the file name is dropped.  The prefix is [core] for the root [lang]; for
    the root [core] it is [core] when the second segment is [lang] and
    [core.] followed by the second segment otherwise; for the root [assets]
    it is [assets.] followed by the second segment; a second segment that
    is missing reads [undefined] in both cases.  For the root [addon]
    the code drops the last remaining segment whatever it is, then [addon],
    and joins the rest with [_] behind [addon.]: with a trailing [lang] this
    is the claimed prefix ([addon/mod_assign/lang/en.json] has
    [addon.mod_assign], [addon/mod_assign/feedback_comments/lang/en.json]
    has [addon.mod_assign_feedback_comments]); without one the code departs
    from the claim ([addon/foo/en.json] has [addon.], not [addon.foo]).
    Every key of the fragment appears in the merged table behind the prefix
    and a dot. *)
Theorem prefix_follows_root_segment (data : jsobject) (filepath : jsstring)
  (fragment : jsvalue) (root : jsstring) (rest : list jsstring) :
  In filepath (for_in data) -> get data filepath = Some fragment ->
  removelast (split_path filepath) = root :: rest ->
  (root = lit "lang" -> prefixOf filepath = Some (lit "core"))
  /\ (root = lit "core" -> forall second more, rest = second :: more ->
      prefixOf filepath =
      Some (if str_eqb second (lit "lang") then lit "core"
            else lit "core." ++ second))
  /\ (root = lit "addon" ->
      prefixOf filepath
      = Some (lit "addon." ++ join (lit "_") (removelast rest)))
  /\ (root = lit "addon" -> forall middle, rest = middle ++ [lit "lang"] ->
      prefixOf filepath = Some (lit "addon." ++ join (lit "_") middle))
  /\ (root = lit "assets" -> forall second more, rest = second :: more ->
      prefixOf filepath = Some (lit "assets." ++ second))
  /\ (forall prefix key, prefixOf filepath = Some prefix ->
      In key (map fst (enumerate fragment)) ->
      In (prefix ++ lit "." ++ key) (keys (mergeData data)))
  /\ prefixOf (lit "addon/mod_assign/lang/en.json")
     = Some (lit "addon.mod_assign")
  /\ prefixOf (lit "addon/mod_assign/feedback_comments/lang/en.json")
     = Some (lit "addon.mod_assign_feedback_comments")
  /\ prefixOf (lit "addon/foo/en.json") = Some (lit "addon.")
  /\ prefixOf (lit "addon/foo/en.json") <> Some (lit "addon.foo")
  /\ (rest = [] ->
      (root = lit "core" -> prefixOf filepath = Some (lit "core.undefined"))
      /\ (root = lit "assets" ->
          prefixOf filepath = Some (lit "assets.undefined"))).
Proof.
  intros Hin Hget Hsplit.
  split; [|split; [|split; [|split; [|split; [|split; [|split; [|split;
    [|split; [|split]]]]]]]]].
  - intros ->. apply (prefixOf_lang _ Hsplit).
  - intros -> second more ->. apply (prefixOf_core _ Hsplit).
  - intros ->. apply (prefixOf_addon _ Hsplit).
  - intros -> middle ->. rewrite (prefixOf_addon _ Hsplit), removelast_last.
    reflexivity.
  - intros -> second more ->. apply (prefixOf_assets _ Hsplit).
  - intros prefix key Hp Hk.
    apply merged_has_qualified_key with (filepath := filepath) (fragment := fragment);
      assumption.
  - reflexivity.
  - reflexivity.
  - reflexivity.
  - discriminate.
  - intros ->. split; intros ->; unfold prefixOf; rewrite Hsplit; reflexivity.
Qed.

Lemma prefix_follows_root_segment_at_mod_assign :
  let data := fst (treatFiles sample_parse addon_run new_object) in
  prefixOf (lit "addon/mod_assign/lang/en.json") = Some (lit "addon.mod_assign")
  /\ In (lit "addon.mod_assign.baz") (keys (mergeData data)).
Proof.
  cbv zeta.
  pose proof (@prefix_follows_root_segment
                (fst (treatFiles sample_parse addon_run new_object))
                (lit "addon/mod_assign/lang/en.json")
                (member_value "baz" "Baz")
                (lit "addon") [lit "mod_assign"; lit "lang"]
                (or_introl eq_refl) eq_refl eq_refl)
    as (_ & _ & _ & Haddon & _ & Hkeys & _).
  split.
  - exact (Haddon eq_refl [lit "mod_assign"] eq_refl).
  - apply (Hkeys (lit "addon.mod_assign") (lit "baz")).
    + exact (Haddon eq_refl [lit "mod_assign"] eq_refl).
    + left; reflexivity.
Defined.

(** C4 fails on the code, which this theorem records.  The comment of the
    source says that the second [pop] removes the final item [lang]; the
    code removes the last of the segments that remain after the file name
    is dropped whether it is [lang] or not, and then [addon]: the prefix is
    [addon.] followed by the segments in between, joined with [_].  For
    [addon/foo/en.json] the segment [foo] is dropped and the prefix is
    [addon.], where the claim keeps [foo]. *)
Theorem addon_drops_last_segment_always (filepath : jsstring)
  (rest : list jsstring) :
  removelast (split_path filepath) = lit "addon" :: rest ->
  prefixOf filepath = Some (lit "addon." ++ join (lit "_") (removelast rest))
  /\ prefixOf (lit "addon/foo/en.json") = Some (lit "addon.").
Proof.
  intros Hsplit. split; [apply (prefixOf_addon _ Hsplit) | reflexivity].
Qed.

Lemma addon_drops_last_segment_at_foo :
  prefixOf (lit "addon/foo/bar/en.json") = Some (lit "addon.foo").
Proof.
  exact (proj1 (@addon_drops_last_segment_always
                  (lit "addon/foo/bar/en.json") [lit "foo"; lit "bar"] eq_refl)).
Defined.

(** The code at the failing input of C4: the segment [foo] of
    [addon/foo/en.json] is not kept, and the prefix is not [addon.foo]. *)
Lemma addon_foo_is_not_kept :
  prefixOf (lit "addon/foo/en.json") = Some (lit "addon.")
  /\ prefixOf (lit "addon/foo/en.json") <> Some (lit "addon.foo").
Proof. split; [reflexivity | discriminate]. Qed.

(** ** The paths of the language files *)

Lemma slice_last_slash (dir : jsstring) :
  str_eqb (slice_last dir) (lit "/") = true <->
  exists body, dir = body ++ lit "/".
Proof.
  rewrite str_eqb_eq. unfold slice_last. split.
  - intros H. exists (firstn (length dir - 1) dir).
    rewrite <- H. symmetry. apply firstn_skipn.
  - intros [body ->]. rewrite length_app. simpl.
    replace (length body + 1 - 1) with (length body + 0) by lia.
    rewrite skipn_app, Nat.add_0_r, skipn_all.
    replace (length body - length body) with 0 by lia. reflexivity.
Qed.

(** C9, as amended.  [paths] gives one path for each directory, in the
    order of the directories and without removing repetitions.  The path of
    a directory that ends with [/] is the directory followed by the
    language and [.json]; the path of any other directory has one [/]
    between the directory and the language.  Slashes at the end of a
    directory are all kept. *)
Theorem paths_one_per_directory_in_order (language : jsstring)
  (langPaths : list jsstring) :
  length (paths language langPaths) = length langPaths
  /\ forall i dir, nth_error langPaths i = Some dir ->
       exists candidate,
         nth_error (paths language langPaths) i = Some candidate
         /\ ((exists body, dir = body ++ lit "/") ->
             candidate = dir ++ language ++ lit ".json")
         /\ (~ (exists body, dir = body ++ lit "/") ->
             candidate = dir ++ lit "/" ++ language ++ lit ".json").
Proof.
  unfold paths. split; [apply length_map|].
  intros i dir Hi. exists (langFile language dir). split.
  - rewrite nth_error_map, Hi. reflexivity.
  - unfold langFile. pose proof (slice_last_slash dir) as H.
    destruct (str_eqb (slice_last dir) (lit "/")); simpl; split; intros Hd.
    + reflexivity.
    + exfalso. apply Hd, H. reflexivity.
    + apply H in Hd. discriminate.
    + rewrite <- app_assoc. reflexivity.
Qed.

Lemma paths_at_two_directories :
  nth_error (paths (lit "en") [lit "./src/lang"; lit "./src/core/lang/"]) 0
  = Some (lit "./src/lang" ++ lit "/" ++ lit "en" ++ lit ".json").
Proof.
  destruct (proj2 (paths_one_per_directory_in_order (lit "en")
                     [lit "./src/lang"; lit "./src/core/lang/"])
                  0 (lit "./src/lang") eq_refl)
    as [candidate [Hnth [_ Hplain]]].
  rewrite Hnth. f_equal. apply Hplain.
  intros [body Hbody].
  assert (H : last (body ++ [47%N]) 0%N = 47%N) by apply last_last.
  change (body ++ [47%N]) with (body ++ lit "/") in H.
  rewrite <- Hbody in H. vm_compute in H. discriminate H.
Defined.

(** C9 as stated fails: for the directory [a//] the path is [a//en.json],
    whose directory part does not end with exactly one [/]. *)
Lemma directory_keeps_its_slashes :
  paths (lit "en") [lit "a//"] = [lit "a//en.json"]
  /\ ~ (exists body,
          ~ (exists body', body = body' ++ lit "/")
          /\ paths (lit "en") [lit "a//"]
             = [(body ++ lit "/") ++ lit "en" ++ lit ".json"]).
Proof.
  split; [reflexivity|].
  intros [body [Hnot Heq]]. apply Hnot. exists (lit "a").
  pose proof (f_equal (@hd jsstring []) Heq) as H.
  change ((lit "a" ++ lit "/") ++ (lit "/" ++ lit "en" ++ lit ".json")
          = (body ++ lit "/") ++ lit "en" ++ lit ".json") in H.
  rewrite <- (app_assoc body) in H.
  apply app_inv_tail in H. symmetry; exact H.
Qed.

(** ** Keys of a fragment are pairwise distinct *)

Lemma lit_inj (s t : string) : lit s = lit t -> s = t.
Proof.
  unfold lit. intros H.
  rewrite <- (string_of_list_ascii_of_string s), <- (string_of_list_ascii_of_string t).
  f_equal. revert H.
  generalize (list_ascii_of_string s) (list_ascii_of_string t).
  induction l as [|a l IH]; intros [|b l']; simpl; try discriminate; auto.
  intros [= Hab Hl]. f_equal; auto.
  rewrite <- (ascii_N_embedding a), <- (ascii_N_embedding b), Hab. reflexivity.
Qed.

Lemma decimal_inj (n m : N) : decimal n = decimal m -> n = m.
Proof.
  unfold decimal. intros H. apply lit_inj in H.
  apply DecimalN.Unsigned.to_uint_inj.
  assert (Hnil : forall x, N.to_uint x <> Decimal.Nil).
  { intros [|p]; simpl; [discriminate | apply DecimalPos.Unsigned.to_uint_nonnil]. }
  pose proof (NilZero.usu _ (Hnil n)) as Hn.
  pose proof (NilZero.usu _ (Hnil m)) as Hm.
  rewrite H in Hn. congruence.
Qed.

Lemma indexed_keys (A : Type) (l : list A) (i : N) (k : jsstring) :
  In k (map fst (indexed i l)) -> exists j, (i <= j)%N /\ k = decimal j.
Proof.
  revert i; induction l as [|x l IH]; intros i; simpl; [tauto|].
  intros [<- | H].
  - exists i; split; [lia | reflexivity].
  - destruct (IH _ H) as [j [Hj ->]]. exists j; split; [lia | reflexivity].
Qed.

Lemma indexed_nodup (A : Type) (l : list A) (i : N) :
  NoDup (map fst (indexed i l)).
Proof.
  revert i; induction l as [|x l IH]; intros i; simpl; constructor; auto.
  intros H. apply indexed_keys in H. destruct H as [j [Hj Heq]].
  apply decimal_inj in Heq. lia.
Qed.

Lemma enumerate_nodup (v : jsvalue) : NoDup (map fst (enumerate v)).
Proof.
  destruct v; simpl; try constructor.
  - apply indexed_nodup.
  - apply indexed_nodup.
  - apply object_of_nodup.
Qed.

(** ** The order of the keys that are not array indices *)

Lemma filter_twice (A : Type) (f g : A -> bool) (l : list A) :
  filter f (filter g l) = filter (fun x => g x && f x) l.
Proof.
  induction l as [|x l IH]; simpl; auto.
  destruct (g x); simpl; [destruct (f x)|]; rewrite IH; reflexivity.
Qed.

Lemma distinct_in (l : list jsstring) (k : jsstring) :
  In k (distinct l) <-> In k l.
Proof.
  induction l as [|h l IH]; simpl; [tauto|].
  rewrite filter_In, IH, negb_true_iff, str_eqb_neq.
  destruct (list_eq_dec N.eq_dec h k); [tauto|].
  split; [tauto|]. intros [H | H]; [tauto | right; split; auto].
Qed.

Lemma has_key_define (A : Type) (props : list (jsstring * A))
  (k : jsstring) (v : A) (k' : jsstring) :
  has_key (define props (k, v)) k' = str_eqb k k' || has_key props k'.
Proof.
  unfold has_key. rewrite lookup_define.
  destruct (str_eqb k k'); reflexivity.
Qed.

Lemma keys_fold_define_order (A : Type) (members props : list (jsstring * A)) :
  (forall k, In k (map fst members) -> array_index k = None) ->
  map fst (fold_left (@define A) members props) =
  map fst props
  ++ filter (fun k => negb (has_key props k)) (distinct (map fst members)).
Proof.
  revert props; induction members as [|[k0 v0] rest IH]; intros props Hidx; simpl.
  - rewrite app_nil_r; reflexivity.
  - rewrite IH by (intros k Hk; apply Hidx; right; exact Hk).
    rewrite filter_twice.
    rewrite (filter_ext (fun k => negb (has_key (define props (k0, v0)) k))
                        (fun k => negb (str_eqb k k0) && negb (has_key props k)))
      by (intros k; rewrite has_key_define, negb_orb, (str_eqb_sym k0 k);
          reflexivity).
    unfold define; simpl fst; simpl snd.
    destruct (has_key props k0) eqn:E; simpl.
    + rewrite keys_replace; reflexivity.
    + unfold add_property. rewrite (Hidx k0) by (left; reflexivity).
      rewrite map_app, <- app_assoc. reflexivity.
Qed.

Lemma keys_object_of_order (A : Type) (members : list (jsstring * A)) :
  (forall k, In k (map fst members) -> array_index k = None) ->
  map fst (object_of members) = distinct (map fst members).
Proof.
  intros Hidx. unfold object_of. rewrite keys_fold_define_order by exact Hidx.
  simpl.
  induction (distinct (map fst members)) as [|h l IH]; simpl; congruence.
Qed.

(** ** From the files to the merged table *)

Lemma fold_put_define (members : properties) (data : jsobject) :
  (forall k, In k (map fst members) -> ordinary_key k = true) ->
  fold_left (fun data fragment => put data (fst fragment) (snd fragment))
            members data =
  mkObject (fold_left (@define jsvalue) members (own data)) (proto data).
Proof.
  revert data; induction members as [|[k v] rest IH]; intros data Hord; simpl.
  - destruct data; reflexivity.
  - rewrite IH by (intros k' Hk'; apply Hord; right; exact Hk').
    rewrite put_define
      by (apply ordinary_not_proto, Hord; left; reflexivity).
    reflexivity.
Qed.

Lemma qualified_keys_nodup (prefix : jsstring) (props : properties) :
  NoDup (map fst props) -> NoDup (map fst (map (qualify prefix) props)).
Proof.
  induction props as [|[k v] rest IH]; simpl; intros Hnd; constructor;
    inversion Hnd as [|? ? Hnot Hnd']; subst; auto.
  intros Hin. apply Hnot.
  rewrite map_map in Hin. apply in_map_iff in Hin.
  destruct Hin as [[k' v'] [Heq Hin]]. simpl in Heq.
  apply app_inv_head in Heq. injection Heq as ->.
  exact (in_map fst _ _ Hin).
Qed.

Section Ingestion.

Variable JSON_parse : list byte -> parse_result.
Variable files : list vinyl.

Hypothesis ordinary_paths :
  forall relative, In relative (map fst (fragments JSON_parse files)) ->
                   ordinary_key relative = true.

Let data : jsobject := fst (treatFiles JSON_parse files new_object).

Lemma ordinary_paths_not_index (relative : jsstring) :
  In relative (map fst (fragments JSON_parse files)) ->
  array_index relative = None.
Proof.
  intros H. apply ordinary_paths in H. unfold ordinary_key in H.
  destruct (array_index relative); [discriminate | reflexivity].
Qed.

Lemma treatFiles_store :
  data = mkObject (object_of (fragments JSON_parse files)) ObjectPrototype.
Proof.
  unfold data. rewrite treatFiles_fragments, fold_put_define by exact ordinary_paths.
  reflexivity.
Qed.

Lemma for_in_data : for_in data = first_seen JSON_parse files.
Proof.
  rewrite treatFiles_store. unfold for_in, inherited, first_seen; simpl.
  rewrite app_nil_r. apply keys_object_of_order, ordinary_paths_not_index.
Qed.

Lemma get_data (relative : jsstring) :
  get data relative = last_parsed JSON_parse files relative.
Proof.
  rewrite treatFiles_store. unfold get, inherited, last_parsed; simpl.
  rewrite lookup_object_of.
  destruct (lookup (rev (fragments JSON_parse files)) relative); reflexivity.
Qed.

Lemma contributions_data :
  contributions data =
  flat_map (kept_contribution JSON_parse files) (first_seen JSON_parse files).
Proof.
  unfold contributions. rewrite for_in_data.
  apply flat_map_ext. intros relative. rewrite get_data. reflexivity.
Qed.

Lemma last_parsed_seen (relative : jsstring) (fragment : jsvalue) :
  last_parsed JSON_parse files relative = Some fragment ->
  In relative (first_seen JSON_parse files).
Proof.
  unfold last_parsed, first_seen. intros H. apply distinct_in.
  apply lookup_in in H. apply in_rev in H.
  exact (in_map fst _ _ H).
Qed.

Lemma kept_contribution_produces (relative q : jsstring) :
  In q (map fst (kept_contribution JSON_parse files relative)) <->
  produces JSON_parse files relative q.
Proof.
  unfold kept_contribution, produces, contribution. split.
  - destruct (last_parsed JSON_parse files relative) as [fragment|]; [|simpl; tauto].
    destruct (prefixOf relative) as [prefix|]; [|simpl; tauto].
    rewrite map_map. intros H. apply in_map_iff in H.
    destruct H as [[key v] [<- Hin]].
    exists fragment, prefix, key. repeat split.
    exact (in_map fst _ _ Hin).
  - intros [fragment [prefix [key [-> [-> [Hkey ->]]]]]].
    apply in_map_iff in Hkey. destruct Hkey as [[key' v] [Hfst Hin]].
    simpl in Hfst; subst key'.
    apply in_map_iff. exists (prefix ++ lit "." ++ key, v). split; [reflexivity|].
    apply in_map_iff. exists (key, v). split; [reflexivity | exact Hin].
Qed.

Lemma merged_keys_produced (q : jsstring) :
  In q (keys (mergeData data)) <->
  exists relative, produces JSON_parse files relative q.
Proof.
  rewrite mergeData_define. unfold keys; simpl.
  rewrite keys_object_of_in, contributions_data. split.
  - intros H. apply in_map_iff in H. destruct H as [[q' v] [Hfst H]].
    simpl in Hfst; subst q'. apply in_flat_map in H.
    destruct H as [relative [_ H]]. exists relative.
    apply kept_contribution_produces. exact (in_map fst _ _ H).
  - intros [relative H].
    assert (Hseen : In relative (first_seen JSON_parse files)).
    { destruct H as [fragment [_ [_ [H _]]]]. apply (last_parsed_seen _ H). }
    apply kept_contribution_produces in H. apply in_map_iff in H.
    destruct H as [[q' v] [Hfst H]]. simpl in Hfst; subst q'.
    apply in_map_iff. exists (q, v). split; [reflexivity|].
    apply in_flat_map. exists relative. split; assumption.
Qed.

Lemma merged_value_last_producer (before after : list jsstring)
  (relative : jsstring) (fragment : jsvalue) (prefix key : jsstring)
  (v : jsvalue) :
  first_seen JSON_parse files = before ++ relative :: after ->
  last_parsed JSON_parse files relative = Some fragment ->
  prefixOf relative = Some prefix ->
  lookup (enumerate fragment) key = Some v ->
  (forall later, In later after ->
                 ~ produces JSON_parse files later (prefix ++ lit "." ++ key)) ->
  get (mergeData data) (prefix ++ lit "." ++ key) = Some v.
Proof.
  intros Hseen Hlast Hprefix Hkey Hlater.
  rewrite get_merged, mergeData_define; cbn [own].
  rewrite lookup_object_of, contributions_data, Hseen.
  rewrite flat_map_app.
  change (flat_map (kept_contribution JSON_parse files) (relative :: after))
    with (kept_contribution JSON_parse files relative
          ++ flat_map (kept_contribution JSON_parse files) after).
  rewrite !rev_app_distr, <- app_assoc, !lookup_app.
  assert (Hnone : lookup (rev (flat_map (kept_contribution JSON_parse files)
                                        after))
                         (prefix ++ lit "." ++ key) = None).
  { apply lookup_none_keys. rewrite map_rev, <- in_rev. intros H.
    apply in_map_iff in H. destruct H as [[q' v'] [Hfst H]].
    simpl in Hfst; subst q'. apply in_flat_map in H.
    destruct H as [later [Hin H]]. apply (Hlater later Hin).
    apply kept_contribution_produces. exact (in_map fst _ _ H). }
  rewrite Hnone.
  assert (Hsome : lookup (rev (kept_contribution JSON_parse files relative))
                         (prefix ++ lit "." ++ key) = Some v).
  { unfold kept_contribution, contribution. rewrite Hlast, Hprefix.
    apply in_lookup.
    - rewrite map_rev. apply NoDup_rev, qualified_keys_nodup, enumerate_nodup.
    - apply in_rev. rewrite rev_involutive. apply lookup_in in Hkey.
      apply in_map_iff. exists (key, v). split; [reflexivity | exact Hkey]. }
  rewrite Hsome. reflexivity.
Qed.

End Ingestion.

(** A fragment stored under [__proto__] is not a property of [data]: the
    assignment installs it as the prototype, and the loop of
    [treatMergedData] then takes the keys of the fragment for paths.  This
    is why the results on runs are stated for files named [.json], whose
    stored paths are never [__proto__]. *)
Lemma assignment_to_proto_key_installs_prototype :
  let fragment := JObject [(lit "lang/en.json", member_value "a" "A")] in
  let data := put new_object proto_key fragment in
  own data = []
  /\ for_in data = [lit "lang/en.json"]
  /\ keys (mergeData data) = [lit "core.a"].
Proof. repeat split; reflexivity. Qed.

(** ** Paths that end with [.json]

    The paths that [run] builds end with [.json]; the key that [treatFile]
    stores such a file under is neither an array index nor [__proto__]. *)

Lemma last_index_lower (pat s : jsstring) (i : Z) :
  (-1 <= i)%Z -> (-1 <= last_index_from pat i s)%Z.
Proof.
  revert i; induction s as [|c s IH]; intros i Hi; simpl.
  - destruct (starts_with pat []); lia.
  - assert (H : (-1 <= last_index_from pat (i + 1) s)%Z) by (apply IH; lia).
    destruct (0 <=? last_index_from pat (i + 1) s)%Z; [exact H|].
    destruct (starts_with pat (c :: s)); lia.
Qed.

Lemma storedPath_suffix (path : jsstring) :
  exists n, storedPath path = skipn n path.
Proof.
  unfold storedPath, substr.
  set (srcPos := if (lastIndexOf path (lit "/src/") =? -1)%Z
                 then lastIndexOf path ([backslash] ++ lit "src" ++ [backslash])
                 else lastIndexOf path (lit "/src/")).
  assert (H : (-1 <= srcPos)%Z).
  { unfold srcPos, lastIndexOf.
    destruct (last_index_from (lit "/src/") 0 path =? -1)%Z;
      apply last_index_lower; lia. }
  destruct (srcPos + 5 <? 0)%Z eqn:E.
  - apply Z.ltb_lt in E. lia.
  - eexists; reflexivity.
Qed.

Lemma json_suffix_ordinary (stem : jsstring) (n : nat) :
  ordinary_key (skipn n (stem ++ lit ".json")) = true.
Proof.
  rewrite skipn_app. destruct (n - length stem) as [|m] eqn:E.
  - change (skipn 0 (lit ".json")) with (lit "." ++ lit "json").
    apply dotted_ordinary.
  - rewrite (skipn_all2 stem) by lia.
    do 5 (destruct m as [|m]; [reflexivity|]). reflexivity.
Qed.

Lemma accepted_path (JSON_parse : list byte -> parse_result) (file : vinyl)
  (relative : jsstring) (fragment : jsvalue) :
  accepted JSON_parse file = Some (relative, fragment) ->
  relative = storedPath (path file).
Proof.
  unfold accepted. destruct (contents file); try discriminate.
  destruct (JSON_parse bytes); [|discriminate]. intros [= <- _]. reflexivity.
Qed.

Lemma json_files_ordinary (JSON_parse : list byte -> parse_result)
  (files : list vinyl) :
  (forall file, In file files -> exists stem, path file = stem ++ lit ".json") ->
  forall relative, In relative (map fst (fragments JSON_parse files)) ->
                   ordinary_key relative = true.
Proof.
  intros Hjson relative H. apply in_map_iff in H.
  destruct H as [[relative' fragment] [Hfst H]]. simpl in Hfst; subst relative'.
  unfold fragments in H. apply in_flat_map in H. destruct H as [file [Hfile H]].
  destruct (accepted JSON_parse file) as [[r f]|] eqn:E; [|contradiction].
  destruct H as [[= -> ->] | []].
  apply accepted_path in E. subst relative.
  destruct (Hjson file Hfile) as [stem ->].
  destruct (storedPath_suffix (stem ++ lit ".json")) as [n ->].
  apply json_suffix_ordinary.
Qed.

Lemma paths_end_with_json (language : jsstring) (langPaths : list jsstring)
  (p : jsstring) :
  In p (paths language langPaths) -> exists stem, p = stem ++ lit ".json".
Proof.
  unfold paths, langFile. intros H. apply in_map_iff in H.
  destruct H as [dir [<- _]].
  eexists. rewrite app_assoc. reflexivity.
Qed.

(** ** Splitting a path that was joined with [/] *)

Lemma split_path_nonempty (s : jsstring) :
  split_path s = hd [] (split_path s) :: tl (split_path s).
Proof.
  destruct s as [|c s]; simpl; [reflexivity|].
  destruct (is_separator c); [reflexivity|].
  destruct (split_path s); reflexivity.
Qed.

Lemma split_path_plain (segment s : jsstring) :
  plain segment ->
  split_path (segment ++ s) =
  (segment ++ hd [] (split_path s)) :: tl (split_path s).
Proof.
  induction 1 as [|c segment Hc _ IH]; simpl.
  - apply split_path_nonempty.
  - rewrite Hc, IH. reflexivity.
Qed.

Lemma split_path_join (segment : jsstring) (segments : list jsstring) :
  Forall plain (segment :: segments) ->
  split_path (join (lit "/") (segment :: segments)) = segment :: segments.
Proof.
  revert segment; induction segments as [|next rest IH]; intros segment Hall;
    inversion Hall as [|? ? Hseg Hrest]; subst.
  - simpl. rewrite <- (app_nil_r segment) at 1.
    rewrite split_path_plain by exact Hseg. simpl. rewrite app_nil_r. reflexivity.
  - change (join (lit "/") (segment :: next :: rest))
      with (segment ++ 47%N :: join (lit "/") (next :: rest)).
    rewrite split_path_plain by exact Hseg.
    change (split_path (47%N :: join (lit "/") (next :: rest)))
      with ([] :: split_path (join (lit "/") (next :: rest))).
    cbn [hd tl]. rewrite app_nil_r, IH by exact Hrest. reflexivity.
Qed.

Lemma segments_of_joined_path (segments : list jsstring) (filename : jsstring) :
  Forall plain segments -> plain filename ->
  removelast (split_path (join (lit "/") (segments ++ [filename]))) = segments.
Proof.
  intros Hsegs Hfile.
  assert (Hall : Forall plain (segments ++ [filename]))
    by (apply Forall_app; split; [exact Hsegs | constructor; [exact Hfile | constructor]]).
  destruct (segments ++ [filename]) as [|first others] eqn:E.
  - destruct segments; discriminate.
  - rewrite split_path_join by exact Hall. rewrite <- E. apply removelast_last.
Qed.

(** C2, as amended.  Let files whose names end with [.json], as the
    language files do, go through [treatFile] in their order.  [data] keeps,
    for each relative path, the fragment parsed last among the files of that
    path, and enumerates the relative paths in the order in which each
    first came.  The keys of the merged table are exactly the keys
    [prefix.k] for the fragments kept and the keys [k] of each, a fragment
    without prefix giving none.  When several kept fragments give the same
    qualified key, its value is that of the fragment whose relative path
    first came latest. *)
Theorem merged_table_from_kept_fragments
  (JSON_parse : list byte -> parse_result) (files : list vinyl) :
  (forall file, In file files -> exists stem, path file = stem ++ lit ".json") ->
  let data := fst (treatFiles JSON_parse files new_object) in
  let merged := mergeData data in
  for_in data = first_seen JSON_parse files
  /\ (forall relative,
        get data relative = last_parsed JSON_parse files relative)
  /\ (forall qualified,
        In qualified (keys merged) <->
        exists relative, produces JSON_parse files relative qualified)
  /\ (forall before relative after fragment prefix key v,
        first_seen JSON_parse files = before ++ relative :: after ->
        last_parsed JSON_parse files relative = Some fragment ->
        prefixOf relative = Some prefix ->
        lookup (enumerate fragment) key = Some v ->
        (forall later, In later after ->
           ~ produces JSON_parse files later (prefix ++ lit "." ++ key)) ->
        get merged (prefix ++ lit "." ++ key) = Some v).
Proof.
  intros Hjson. pose proof (json_files_ordinary JSON_parse files Hjson) as Hord.
  cbv zeta. split; [|split; [|split]].
  - apply for_in_data; exact Hord.
  - intros relative. apply get_data; exact Hord.
  - intros qualified. apply merged_keys_produced; exact Hord.
  - intros before relative after fragment prefix key v.
    apply merged_value_last_producer; exact Hord.
Qed.

Lemma merged_table_from_kept_fragments_at_collision :
  get (mergeData (fst (treatFiles sample_parse collision_run new_object)))
      (lit "core" ++ lit "." ++ lit "k")
  = Some (JString (lit "B")).
Proof.
  assert (Hjson : forall file, In file collision_run ->
                                exists stem, path file = stem ++ lit ".json").
  { intros file [<- | [<- | [<- | []]]].
    - exists (lit "/a/src/lang/en"); reflexivity.
    - exists (lit "/a/src/core/lang/en"); reflexivity.
    - exists (lit "/b/src/lang/en"); reflexivity. }
  pose proof (@merged_table_from_kept_fragments sample_parse collision_run Hjson)
    as H.
  cbv zeta in H. destruct H as (_ & _ & _ & H).
  apply (H [lit "lang/en.json"] (lit "core/lang/en.json") []
           (member_value "k" "B")); try reflexivity.
  intros later [].
Defined.

(** C2 as stated fails twice.  In [replaced_run] the first file parses and
    has the key [x] and the prefix [core], yet [core.x] is not a key of the
    merged table.  In [collision_run] the three fragments give [core.k]; the
    file treated last has the value [C], yet the merged table has [B]. *)
Lemma merged_table_is_not_the_union_nor_last_wins :
  (In (sample_file "/a/src/lang/en.json" "x" "A") replaced_run
   /\ accepted sample_parse (sample_file "/a/src/lang/en.json" "x" "A")
      = Some (lit "lang/en.json", member_value "x" "A")
   /\ prefixOf (lit "lang/en.json") = Some (lit "core")
   /\ In (lit "x") (map fst (enumerate (member_value "x" "A")))
   /\ ~ In (lit "core" ++ lit "." ++ lit "x")
           (keys (mergeData (fst (treatFiles sample_parse replaced_run
                                             new_object)))))
  /\ (last collision_run (sample_file "" "" "")
      = sample_file "/b/src/lang/en.json" "k" "C"
      /\ accepted sample_parse (sample_file "/b/src/lang/en.json" "k" "C")
         = Some (lit "lang/en.json", member_value "k" "C")
      /\ lookup (contribution (lit "lang/en.json") (member_value "k" "C"))
                (lit "core.k") = Some (JString (lit "C"))
      /\ get (mergeData (fst (treatFiles sample_parse collision_run
                                         new_object)))
             (lit "core.k") = Some (JString (lit "B"))).
Proof.
  split.
  - repeat split; try reflexivity.
    + left; reflexivity.
    + left; reflexivity.
    + vm_compute. intros [H | []]. discriminate H.
  - repeat split; reflexivity.
Qed.

Lemma prefixOf_proto_key : prefixOf proto_key = None.
Proof. reflexivity. Qed.

Lemma fragments_app (JSON_parse : list byte -> parse_result)
  (a b : list vinyl) :
  fragments JSON_parse (a ++ b)
  = fragments JSON_parse a ++ fragments JSON_parse b.
Proof. apply flat_map_app. Qed.

Lemma fragments_accepted (JSON_parse : list byte -> parse_result)
  (file : vinyl) (l : list vinyl) (relative : jsstring) (fragment : jsvalue) :
  accepted JSON_parse file = Some (relative, fragment) ->
  fragments JSON_parse (file :: l)
  = (relative, fragment) :: fragments JSON_parse l.
Proof. intros H. unfold fragments; simpl. rewrite H. reflexivity. Qed.

Lemma last_parsed_after_later (JSON_parse : list byte -> parse_result)
  (earlier_files : list vinyl) (later : vinyl) (after : list vinyl)
  (relative : jsstring) (fragment2 : jsvalue) :
  accepted JSON_parse later = Some (relative, fragment2) ->
  last_parsed JSON_parse (earlier_files ++ later :: after) relative
  = match last_parsed JSON_parse after relative with
    | Some fragment => Some fragment
    | None => Some fragment2
    end.
Proof.
  intros Hlater. unfold last_parsed.
  rewrite fragments_app, (@fragments_accepted _ _ _ _ _ Hlater).
  rewrite rev_app_distr. cbn [rev]. rewrite <- !app_assoc, lookup_app.
  destruct (lookup (rev (fragments JSON_parse after)) relative); [reflexivity|].
  cbn [app lookup]. rewrite str_eqb_refl. reflexivity.
Qed.

(** C10, as amended.  [data] is keyed by the relative path.  When two files
    of a run (files named [.json]) parse and have the same relative path,
    the later fragment takes the place of the earlier one: treated one after
    the other they leave the later fragment under the path whatever [data]
    held, and at the end of the run [data] holds under the path the later
    fragment, or the fragment of a file that came after it with that path.
    The earlier fragment gives nothing to the merged table: the keys of the
    table are those of the fragments kept.  So a key of the earlier fragment
    that the later one does not have is in the merged table only when a
    fragment kept under another relative path gives it; when the two files
    are the whole run it is absent. *)
Theorem later_fragment_replaces_earlier
  (JSON_parse : list byte -> parse_result)
  (before : list vinyl) (earlier : vinyl) (between : list vinyl)
  (later : vinyl) (after : list vinyl)
  (relative : jsstring) (fragment1 fragment2 : jsvalue) :
  let files := before ++ earlier :: between ++ later :: after in
  (forall file, In file files -> exists stem, path file = stem ++ lit ".json") ->
  accepted JSON_parse earlier = Some (relative, fragment1) ->
  accepted JSON_parse later = Some (relative, fragment2) ->
  let data := fst (treatFiles JSON_parse files new_object) in
  (forall data0,
     get (fst (treatFile JSON_parse later
                 (fst (treatFile JSON_parse earlier data0)))) relative
     = Some fragment2)
  /\ get data relative
     = match last_parsed JSON_parse after relative with
       | Some fragment => Some fragment
       | None => Some fragment2
       end
  /\ (forall qualified,
        In qualified (keys (mergeData data)) <->
        exists kept, produces JSON_parse files kept qualified)
  /\ (forall prefix key,
        prefixOf relative = Some prefix ->
        In key (map fst (enumerate fragment1)) ->
        ~ In key (map fst (enumerate fragment2)) ->
        last_parsed JSON_parse after relative = None ->
        In (prefix ++ lit "." ++ key) (keys (mergeData data)) ->
        exists other,
          other <> relative
          /\ produces JSON_parse files other (prefix ++ lit "." ++ key))
  /\ (before = [] -> between = [] -> after = [] ->
      forall prefix key,
        prefixOf relative = Some prefix ->
        In key (map fst (enumerate fragment1)) ->
        ~ In key (map fst (enumerate fragment2)) ->
        ~ In (prefix ++ lit "." ++ key) (keys (mergeData data))).
Proof.
  intros files Hjson Hearlier Hlater data.
  pose proof (json_files_ordinary JSON_parse files Hjson) as Hord.
  assert (Hfiles : files = (before ++ earlier :: between) ++ later :: after)
    by (unfold files; rewrite <- app_assoc; reflexivity).
  assert (Hkept : last_parsed JSON_parse files relative
                  = match last_parsed JSON_parse after relative with
                    | Some fragment => Some fragment
                    | None => Some fragment2
                    end)
    by (rewrite Hfiles; apply last_parsed_after_later; exact Hlater).
  assert (Hproto : str_eqb relative proto_key = false).
  { apply ordinary_not_proto, Hord.
    unfold files. rewrite fragments_app, (@fragments_accepted _ _ _ _ _ Hearlier).
    rewrite map_app. apply in_or_app. right. left. reflexivity. }
  assert (Hkeys : forall qualified,
            In qualified (keys (mergeData data)) <->
            exists kept, produces JSON_parse files kept qualified)
    by (intros qualified; apply merged_keys_produced; exact Hord).
  assert (Hother : forall prefix key,
            prefixOf relative = Some prefix ->
            ~ In key (map fst (enumerate fragment2)) ->
            last_parsed JSON_parse after relative = None ->
            In (prefix ++ lit "." ++ key) (keys (mergeData data)) ->
            exists other,
              other <> relative
              /\ produces JSON_parse files other (prefix ++ lit "." ++ key)).
  { intros prefix key Hprefix Hnot Hafter Hin.
    apply Hkeys in Hin. destruct Hin as [other Hprod]. exists other.
    split; [|exact Hprod]. intros ->.
    destruct Hprod as [fragment [prefix' [key' [Hlast [Hp [Hk Heq]]]]]].
    rewrite Hkept, Hafter in Hlast. injection Hlast as <-.
    rewrite Hprefix in Hp. injection Hp as <-.
    apply app_inv_head in Heq. injection Heq as ->. contradiction. }
  split; [|split; [|split; [|split]]].
  - intros data0. rewrite !treatFile_accepted, Hearlier, Hlater; cbn [fst snd].
    rewrite !put_define by exact Hproto. unfold get; cbn [own].
    rewrite !lookup_define, str_eqb_refl. reflexivity.
  - unfold data. rewrite get_data by exact Hord. exact Hkept.
  - exact Hkeys.
  - intros prefix key Hprefix _ Hnot Hafter Hin.
    apply (Hother prefix key); assumption.
  - intros Hb Hbt Ha prefix key Hprefix _ Hnot Hin.
    assert (Hafter : last_parsed JSON_parse after relative = None)
      by (rewrite Ha; reflexivity).
    destruct (Hother prefix key Hprefix Hnot Hafter Hin)
      as [other [Hne [fragment [prefix' [key' [Hlast _]]]]]].
    apply Hne. unfold last_parsed, files in Hlast.
    rewrite Hb, Hbt, Ha in Hlast. cbn [app] in Hlast.
    rewrite (@fragments_accepted _ _ _ _ _ Hearlier),
            (@fragments_accepted _ _ _ _ _ Hlater) in Hlast.
    cbn [fragments flat_map rev app lookup] in Hlast.
    destruct (str_eqb relative other) eqn:E.
    + apply str_eqb_eq in E. symmetry; exact E.
    + discriminate Hlast.
Qed.

Lemma later_fragment_replaces_earlier_at_lang :
  exists other,
    other <> lit "lang/en.json"
    /\ produces sample_parse third_supplier_run other
                (lit "core" ++ lit "." ++ lit "k").
Proof.
  assert (Hjson : forall file, In file third_supplier_run ->
                               exists stem, path file = stem ++ lit ".json").
  { intros file [<- | [<- | [<- | []]]].
    - exists (lit "/a/src/lang/en"); reflexivity.
    - exists (lit "/b/src/lang/en"); reflexivity.
    - exists (lit "/a/src/core/lang/en"); reflexivity. }
  pose proof (@later_fragment_replaces_earlier sample_parse
                [] (sample_file "/a/src/lang/en.json" "k" "A") []
                (sample_file "/b/src/lang/en.json" "y" "B")
                [sample_file "/a/src/core/lang/en.json" "k" "C"]
                (lit "lang/en.json")
                (member_value "k" "A") (member_value "y" "B")
                Hjson eq_refl eq_refl) as H.
  cbv zeta in H. destruct H as (_ & _ & _ & H & _).
  apply (H (lit "core") (lit "k")).
  - reflexivity.
  - left; reflexivity.
  - vm_compute. intros [H' | []]. discriminate H'.
  - reflexivity.
  - vm_compute. right; left; reflexivity.
Defined.

(** C10 as stated fails over runs: in [third_supplier_run] the first two
    files have the same relative path, the later fragment has no key [k],
    and yet the key [core.k] of the earlier fragment is in the merged table,
    given by the third file, which is kept under another path with the same
    prefix. *)
Lemma earlier_key_supplied_by_third_fragment :
  accepted sample_parse (sample_file "/a/src/lang/en.json" "k" "A")
  = Some (lit "lang/en.json", member_value "k" "A")
  /\ accepted sample_parse (sample_file "/b/src/lang/en.json" "y" "B")
     = Some (lit "lang/en.json", member_value "y" "B")
  /\ prefixOf (lit "lang/en.json") = Some (lit "core")
  /\ In (lit "k") (map fst (enumerate (member_value "k" "A")))
  /\ ~ In (lit "k") (map fst (enumerate (member_value "y" "B")))
  /\ In (lit "core" ++ lit "." ++ lit "k")
        (keys (mergeData (fst (treatFiles sample_parse third_supplier_run
                                          new_object))))
  /\ get (mergeData (fst (treatFiles sample_parse third_supplier_run
                                     new_object)))
         (lit "core.k") = Some (JString (lit "C")).
Proof.
  repeat split; try reflexivity.
  - left; reflexivity.
  - vm_compute. intros [H | []]. discriminate H.
  - vm_compute. right; left; reflexivity.
Qed.

(** ** The stored path *)

Lemma last_index_absent (pat s : jsstring) (i : Z) :
  includes s pat = false -> last_index_from pat i s = (-1)%Z.
Proof.
  revert i; induction s as [|c s IH]; intros i; simpl.
  - rewrite orb_false_r. intros ->. reflexivity.
  - rewrite orb_false_iff. intros [Hhere Hlater].
    rewrite (IH _ Hlater). simpl. rewrite Hhere. reflexivity.
Qed.

(** C5 fails on the code, which this theorem records.  For a path in which
    neither [/src/] nor [\src\] occurs both searches answer [-1], and the
    stored path is the path from position [-1 + 5] on: its first four code
    units are lost. *)
Theorem stored_path_without_marker_loses_four (path : jsstring) :
  includes path (lit "/src/") = false ->
  includes path ([backslash] ++ lit "src" ++ [backslash]) = false ->
  storedPath path = skipn 4 path.
Proof.
  intros Hslash Hback. unfold storedPath, lastIndexOf.
  rewrite (@last_index_absent _ _ 0%Z Hslash). simpl Z.eqb. cbv iota.
  rewrite (@last_index_absent _ _ 0%Z Hback). reflexivity.
Qed.

Lemma stored_path_without_marker_example :
  storedPath (lit "/home/user/app/lang/en.json") = lit "e/user/app/lang/en.json"
  /\ prefixOf (lit "e/user/app/lang/en.json") = None.
Proof.
  split; [|reflexivity].
  rewrite (@stored_path_without_marker_loses_four
             (lit "/home/user/app/lang/en.json")); reflexivity.
Defined.

(** ** A file that does not parse *)

Lemma includes_suffix (a m : jsstring) : includes (a ++ m) m = true.
Proof.
  assert (Hself : forall s, starts_with s s = true).
  { induction s as [|c s IH]; simpl; auto. rewrite N.eqb_refl; exact IH. }
  induction a as [|c a IH]; simpl.
  - destruct m; simpl; [reflexivity|].
    rewrite N.eqb_refl, Hself. reflexivity.
  - rewrite IH. apply orb_true_r.
Qed.

Section ParseFailure.

Variable JSON_parse : list byte -> parse_result.

Lemma treatFile_diagnostic (file : vinyl) (data : jsobject) :
  snd (treatFile JSON_parse file data) = diagnostic JSON_parse file.
Proof.
  unfold treatFile, diagnostic. destruct (contents file); auto.
  destruct (JSON_parse bytes); reflexivity.
Qed.

Lemma treatFiles_lines_from (files : list vinyl) (data : jsobject)
  (lines : list jsstring) :
  snd (fold_left (fun state file =>
                    let (data', lines') := treatFile JSON_parse file (fst state) in
                    (data', snd state ++ lines'))
                 files (data, lines)) =
  lines ++ flat_map (diagnostic JSON_parse) files.
Proof.
  revert data lines; induction files as [|file files IH]; intros data lines; simpl.
  - rewrite app_nil_r; reflexivity.
  - pose proof (treatFile_diagnostic file data) as H.
    destruct (treatFile JSON_parse file data) as [data' lines']; simpl in H.
    rewrite IH, H, app_assoc. reflexivity.
Qed.

Lemma treatFiles_lines (files : list vinyl) (data : jsobject) :
  snd (treatFiles JSON_parse files data) = flat_map (diagnostic JSON_parse) files.
Proof. unfold treatFiles. rewrite treatFiles_lines_from. reflexivity. Qed.

(** C6, as amended.  When the text of a file does not parse, [treatFile]
    writes one line to the console, [Error parsing JSON: ] followed by the
    error, which holds the message of the parse error and nothing of the
    path of the file; it returns [data] as it was.  The run goes on: the
    files after it are treated, [data] ends as if the file had not been in
    the stream, and the line stands among the lines of the run. *)
Theorem parse_failure_logs_message_and_keeps_data (path : jsstring)
  (bytes : list byte) (message : jsstring) (data : jsobject) :
  JSON_parse bytes = SyntaxError message ->
  let file := mkFile path (BufferContents bytes) in
  let line := lit "Error parsing JSON: " ++ error_to_string message in
  treatFile JSON_parse file data = (data, [line])
  /\ includes line message = true
  /\ (forall before after,
        fst (treatFiles JSON_parse (before ++ file :: after) data)
        = fst (treatFiles JSON_parse (before ++ after) data))
  /\ (forall before after,
        snd (treatFiles JSON_parse (before ++ file :: after) data)
        = snd (treatFiles JSON_parse before data) ++ [line]
          ++ snd (treatFiles JSON_parse after data)).
Proof.
  intros Hparse. cbv zeta. split; [|split; [|split]].
  - unfold treatFile; simpl. rewrite Hparse. reflexivity.
  - unfold error_to_string. destruct message as [|c message]; [reflexivity|].
    rewrite !app_assoc. apply includes_suffix.
  - intros before after. rewrite !treatFiles_fragments. unfold fragments.
    rewrite !flat_map_app. simpl. unfold accepted at 2; simpl.
    rewrite Hparse. reflexivity.
  - intros before after. rewrite !treatFiles_lines, flat_map_app. simpl.
    unfold diagnostic at 2; simpl. rewrite Hparse. reflexivity.
Qed.

End ParseFailure.

Lemma parse_failure_at_broken_file :
  treatFile sample_parse (broken_file "/app/src/lang/en.json") new_object
  = (new_object,
     [lit "Error parsing JSON: SyntaxError: Unexpected token o in JSON at position 0"]).
Proof.
  exact (proj1 (@parse_failure_logs_message_and_keeps_data sample_parse
                  (lit "/app/src/lang/en.json") (bufferFrom (lit "oops"))
                  (lit "Unexpected token o in JSON at position 0")
                  new_object eq_refl)).
Defined.

(** C6 as stated fails: the line written for a file that does not parse
    holds the message, and neither the path of the file nor the path it
    would be stored under. *)
Lemma diagnostic_does_not_name_the_file :
  snd (treatFile sample_parse (broken_file "/app/src/lang/en.json") new_object)
  = [lit "Error parsing JSON: SyntaxError: Unexpected token o in JSON at position 0"]
  /\ includes
       (lit "Error parsing JSON: SyntaxError: Unexpected token o in JSON at position 0")
       (lit "/app/src/lang/en.json") = false
  /\ includes
       (lit "Error parsing JSON: SyntaxError: Unexpected token o in JSON at position 0")
       (lit "lang/en.json") = false.
Proof. repeat split; reflexivity. Qed.

(* ================================================================== *)
(** * Part III: further properties of the task *)
(* ================================================================== *)

(** ** The stored path of a path with a marker *)

Lemma starts_with_decompose (pat s : jsstring) :
  starts_with pat s = true -> s = pat ++ skipn (length pat) s.
Proof.
  revert s; induction pat as [|p pat IH]; intros [|c s]; simpl;
    try discriminate; auto.
  rewrite andb_true_iff, N.eqb_eq. intros [-> H]. f_equal. apply IH; exact H.
Qed.

Lemma includes_tail_false (a s pat : jsstring) :
  includes (a ++ s) pat = false -> includes s pat = false.
Proof.
  induction a as [|c a IH]; simpl; auto.
  rewrite orb_false_iff. intros [_ H]. apply IH; exact H.
Qed.

Lemma last_index_found (pat before : jsstring) (c : codeunit) (s : jsstring)
  (i : Z) :
  (0 <= i)%Z -> starts_with pat (c :: s) = true -> includes s pat = false ->
  last_index_from pat i (before ++ c :: s) = (i + Z.of_nat (length before))%Z.
Proof.
  intros Hi Hhere Hlater. revert i Hi.
  induction before as [|b before IH]; intros i Hi.
  - cbn [app last_index_from length].
    rewrite (@last_index_absent pat s (i + 1)%Z Hlater).
    cbn [Z.leb Z.compare]. rewrite Hhere. simpl. lia.
  - cbn [app last_index_from length].
    rewrite IH by lia.
    destruct (0 <=? i + 1 + Z.of_nat (length before))%Z eqn:E.
    + lia.
    + apply Z.leb_gt in E. lia.
Qed.

Lemma last_occurrence (pat s : jsstring) :
  pat <> [] -> includes s pat = true ->
  exists before c rest,
    s = before ++ c :: rest
    /\ starts_with pat (c :: rest) = true
    /\ includes rest pat = false.
Proof.
  intros Hpat. induction s as [|c s IH]; simpl.
  - destruct pat; [contradiction | discriminate].
  - destruct (includes s pat) eqn:E.
    + intros _. destruct (IH eq_refl) as [before [c' [rest [-> [H1 H2]]]]].
      exists (c :: before), c', rest. repeat split; assumption.
    + rewrite orb_false_r. intros H. exists [], c, s. repeat split; assumption.
Qed.

Lemma substr_after (before pat relative : jsstring) :
  substr (before ++ pat ++ relative)
         (Z.of_nat (length before) + Z.of_nat (length pat))
  = relative.
Proof.
  unfold substr.
  destruct (Z.of_nat (length before) + Z.of_nat (length pat) <? 0)%Z eqn:E;
    [apply Z.ltb_lt in E; lia|].
  rewrite <- Nat2Z.inj_add, Nat2Z.id, app_assoc, <- length_app.
  rewrite skipn_app, skipn_all, Nat.sub_diag. reflexivity.
Qed.

(** X1.  For every path in which [/src/] occurs, the stored path is what
    follows the last occurrence: the path splits into a part before, the
    marker and the stored path, and the marker does not occur in the stored
    path again.  A [\src\] anywhere in the path plays no part. *)
Theorem stored_path_follows_last_slash_marker (path : jsstring) :
  includes path (lit "/src/") = true ->
  exists before relative,
    path = before ++ lit "/src/" ++ relative
    /\ storedPath path = relative
    /\ includes relative (lit "/src/") = false.
Proof.
  intros Hin.
  destruct (@last_occurrence (lit "/src/") path ltac:(discriminate) Hin)
    as [before [c [rest [Hpath [Hhere Hlater]]]]].
  pose proof (starts_with_decompose _ _ Hhere) as Hdec.
  set (relative := skipn (length (lit "/src/")) (c :: rest)) in Hdec.
  exists before, relative. split; [|split].
  - rewrite Hpath, Hdec. reflexivity.
  - assert (Hidx : last_index_from (lit "/src/") 0 path
                   = Z.of_nat (length before)).
    { rewrite Hpath.
      rewrite (@last_index_found _ before c rest 0%Z ltac:(lia) Hhere Hlater).
      lia. }
    unfold storedPath, lastIndexOf. rewrite Hidx.
    destruct (Z.of_nat (length before) =? -1)%Z eqn:E;
      [apply Z.eqb_eq in E; lia|].
    rewrite Hpath, Hdec.
    change 5%Z with (Z.of_nat (length (lit "/src/"))).
    apply substr_after.
  - assert (Hrest : rest = lit "src/" ++ relative).
    { change (lit "/src/" ++ relative) with (47%N :: lit "src/" ++ relative)
        in Hdec. injection Hdec as _ Hrest. exact Hrest. }
    rewrite Hrest in Hlater. apply (includes_tail_false _ _ _ Hlater).
Qed.

Lemma stored_path_follows_last_slash_marker_example :
  exists before relative,
    lit "/a/src/b/src/lang/en.json" = before ++ lit "/src/" ++ relative
    /\ storedPath (lit "/a/src/b/src/lang/en.json") = relative
    /\ includes relative (lit "/src/") = false.
Proof.
  apply stored_path_follows_last_slash_marker. reflexivity.
Defined.

(** X2.  For a path without [/src/] in which [\src\] occurs, the stored
    path is what follows the last [\src\]. *)
Theorem stored_path_follows_last_backslash_marker (path : jsstring) :
  includes path (lit "/src/") = false ->
  includes path ([backslash] ++ lit "src" ++ [backslash]) = true ->
  exists before relative,
    path = before ++ ([backslash] ++ lit "src" ++ [backslash]) ++ relative
    /\ storedPath path = relative
    /\ includes relative ([backslash] ++ lit "src" ++ [backslash]) = false.
Proof.
  intros Hslash Hin.
  set (marker := [backslash] ++ lit "src" ++ [backslash]) in *.
  destruct (@last_occurrence marker path ltac:(discriminate) Hin)
    as [before [c [rest [Hpath [Hhere Hlater]]]]].
  pose proof (starts_with_decompose _ _ Hhere) as Hdec.
  set (relative := skipn (length marker) (c :: rest)) in Hdec.
  exists before, relative. split; [|split].
  - rewrite Hpath, Hdec. reflexivity.
  - unfold storedPath, lastIndexOf.
    rewrite (@last_index_absent _ _ 0%Z Hslash).
    change (-1 =? -1)%Z with true. cbv iota. fold marker.
    assert (Hidx : last_index_from marker 0 path = Z.of_nat (length before)).
    { rewrite Hpath.
      rewrite (@last_index_found _ before c rest 0%Z ltac:(lia) Hhere Hlater).
      lia. }
    rewrite Hidx, Hpath, Hdec.
    change 5%Z with (Z.of_nat (length marker)).
    apply substr_after.
  - assert (Hrest : rest = (lit "src" ++ [backslash]) ++ relative).
    { change (marker ++ relative)
        with (backslash :: (lit "src" ++ [backslash]) ++ relative) in Hdec.
      injection Hdec as _ Hrest. exact Hrest. }
    rewrite Hrest in Hlater. apply (includes_tail_false _ _ _ Hlater).
Qed.

Lemma stored_path_follows_last_backslash_marker_example :
  exists before relative,
    [67%N; 58%N; backslash] ++ lit "app" ++ [backslash] ++ lit "src"
      ++ [backslash] ++ lit "lang" ++ [backslash] ++ lit "en.json"
    = before ++ ([backslash] ++ lit "src" ++ [backslash]) ++ relative
    /\ storedPath ([67%N; 58%N; backslash] ++ lit "app" ++ [backslash]
                   ++ lit "src" ++ [backslash] ++ lit "lang" ++ [backslash]
                   ++ lit "en.json") = relative
    /\ includes relative ([backslash] ++ lit "src" ++ [backslash]) = false.
Proof.
  apply stored_path_follows_last_backslash_marker; reflexivity.
Defined.

(** ** The file name and the language play no part in the prefix *)

Lemma split_path_not_nil (s : jsstring) : split_path s <> [].
Proof. rewrite split_path_nonempty. discriminate. Qed.

Lemma split_path_of_plain (f : jsstring) : plain f -> split_path f = [f].
Proof.
  intros Hf. rewrite <- (app_nil_r f) at 1.
  rewrite split_path_plain by exact Hf. simpl. rewrite app_nil_r. reflexivity.
Qed.

Lemma split_path_append_plain (x f : jsstring) :
  plain f ->
  split_path (x ++ f) =
  removelast (split_path x) ++ [last (split_path x) [] ++ f].
Proof.
  intros Hf. induction x as [|c x IH].
  - simpl. apply split_path_of_plain; exact Hf.
  - cbn [app split_path]. rewrite IH.
    pose proof (split_path_not_nil x) as Hne.
    destruct (split_path x) as [|p ps]; [contradiction|].
    destruct (is_separator c).
    + reflexivity.
    + destruct ps as [|p' ps]; reflexivity.
Qed.

Lemma segments_before_file_name (directory filename : jsstring) :
  plain filename ->
  removelast (split_path (directory ++ filename))
  = removelast (split_path directory).
Proof.
  intros Hf. rewrite split_path_append_plain by exact Hf.
  apply removelast_last.
Qed.

Lemma prefixOf_before_file_name (directory filename : jsstring) :
  plain filename -> prefixOf (directory ++ filename) = prefixOf directory.
Proof.
  intros Hf. unfold prefixOf.
  rewrite segments_before_file_name by exact Hf. reflexivity.
Qed.

(** X3.  The file name never reaches the [switch]: whatever follows the
    last separator of a stored path is dropped by [pop], so two stored paths
    that differ only in the file name have the same prefix. *)
Theorem file_name_plays_no_part_in_prefix (directory filename : jsstring) :
  plain filename ->
  removelast (split_path (directory ++ filename))
  = removelast (split_path directory)
  /\ prefixOf (directory ++ filename) = prefixOf directory
  /\ (forall other, plain other ->
        prefixOf (directory ++ other) = prefixOf (directory ++ filename)).
Proof.
  intros Hf. split; [|split].
  - apply segments_before_file_name; exact Hf.
  - apply prefixOf_before_file_name; exact Hf.
  - intros other Ho. rewrite !prefixOf_before_file_name by assumption.
    reflexivity.
Qed.

Lemma file_name_plays_no_part_in_prefix_example :
  prefixOf (lit "addon/mod_assign/lang/" ++ lit "fr.json")
  = prefixOf (lit "addon/mod_assign/lang/").
Proof.
  apply (proj1 (proj2 (@file_name_plays_no_part_in_prefix
                         (lit "addon/mod_assign/lang/") (lit "fr.json")
                         ltac:(repeat constructor)))).
Defined.

Lemma plain_app (a b : jsstring) : plain a -> plain b -> plain (a ++ b).
Proof. intros Ha Hb. apply Forall_app; split; assumption. Qed.

Lemma plain_skipn (n : nat) (f : jsstring) : plain f -> plain (skipn n f).
Proof.
  intros Hf. unfold plain in *. rewrite Forall_forall in *.
  intros c Hc. apply Hf. rewrite <- (firstn_skipn n f).
  apply in_or_app; right; exact Hc.
Qed.

Lemma starts_with_nil_false (q : jsstring) (c : codeunit) :
  starts_with (q ++ [c]) [] = false.
Proof. destruct q; reflexivity. Qed.

Lemma starts_with_plain_false (q : jsstring) (c : codeunit) (f : jsstring) :
  is_separator c = true -> plain f -> starts_with (q ++ [c]) f = false.
Proof.
  intros Hc. revert f; induction q as [|p q IH]; intros [|x f] Hf; simpl; auto.
  - inversion Hf as [|? ? Hx _]; subst.
    destruct (N.eqb c x) eqn:E; [|reflexivity].
    apply N.eqb_eq in E; subst. congruence.
  - inversion Hf as [|? ? _ Hf']; subst.
    rewrite (IH f Hf'). apply andb_false_r.
Qed.

Lemma starts_with_before_plain (q : jsstring) (c : codeunit)
  (d f : jsstring) :
  is_separator c = true -> plain f ->
  starts_with (q ++ [c]) (d ++ f) = starts_with (q ++ [c]) d.
Proof.
  intros Hc Hf. revert q; induction d as [|x d IH]; intros q.
  - simpl. rewrite starts_with_nil_false.
    apply starts_with_plain_false; assumption.
  - destruct q as [|p q]; simpl.
    + reflexivity.
    + rewrite IH. reflexivity.
Qed.

Lemma includes_plain_false (q : jsstring) (c : codeunit) (f : jsstring) :
  is_separator c = true -> plain f -> includes f (q ++ [c]) = false.
Proof.
  intros Hc. induction f as [|x f IH]; intros Hf; simpl.
  - rewrite starts_with_nil_false. reflexivity.
  - rewrite (@starts_with_plain_false q c (x :: f) Hc Hf).
    inversion Hf; subst. apply IH; assumption.
Qed.

Lemma last_index_before_plain (q : jsstring) (c : codeunit)
  (d f : jsstring) (i : Z) :
  is_separator c = true -> plain f ->
  last_index_from (q ++ [c]) i (d ++ f) = last_index_from (q ++ [c]) i d.
Proof.
  intros Hc Hf. revert i; induction d as [|x d IH]; intros i.
  - cbn [app]. rewrite last_index_absent
      by (apply includes_plain_false; assumption).
    simpl. rewrite starts_with_nil_false. reflexivity.
  - cbn [app last_index_from]. rewrite IH.
    change (x :: d ++ f) with ((x :: d) ++ f).
    rewrite starts_with_before_plain by assumption. reflexivity.
Qed.

Lemma substr_nonnegative (s : jsstring) (start : Z) :
  (0 <= start)%Z -> substr s start = skipn (Z.to_nat start) s.
Proof.
  intros H. unfold substr.
  destruct (start <? 0)%Z eqn:E; [apply Z.ltb_lt in E; lia | reflexivity].
Qed.

Lemma storedPath_before_plain (d f : jsstring) :
  plain f -> exists f', plain f' /\ storedPath (d ++ f) = storedPath d ++ f'.
Proof.
  intros Hf.
  assert (Hpos : forall path, exists srcPos,
             (-1 <= srcPos)%Z
             /\ srcPos = (if (lastIndexOf path (lit "/src/") =? -1)%Z
                          then lastIndexOf path
                                 ([backslash] ++ lit "src" ++ [backslash])
                          else lastIndexOf path (lit "/src/"))).
  { intros path. eexists. split; [|reflexivity]. unfold lastIndexOf.
    destruct (last_index_from (lit "/src/") 0 path =? -1)%Z;
      apply last_index_lower; lia. }
  assert (Hsame : forall pat, (pat = lit "/src/"
                               \/ pat = [backslash] ++ lit "src" ++ [backslash]) ->
                              lastIndexOf (d ++ f) pat = lastIndexOf d pat).
  { intros pat [-> | ->]; unfold lastIndexOf.
    - change (lit "/src/") with (lit "/src" ++ [47%N]).
      apply last_index_before_plain; [reflexivity | exact Hf].
    - change ([backslash] ++ lit "src" ++ [backslash])
        with (([backslash] ++ lit "src") ++ [backslash]).
      apply last_index_before_plain; [reflexivity | exact Hf]. }
  destruct (Hpos d) as [srcPos [Hlow Heq]].
  unfold storedPath.
  cbv zeta.
  rewrite !(Hsame (lit "/src/") (or_introl eq_refl)).
  rewrite !(Hsame ([backslash] ++ lit "src" ++ [backslash])
                  (or_intror eq_refl)).
  rewrite <- Heq.
  rewrite !substr_nonnegative by lia.
  rewrite skipn_app. eexists. split; [|reflexivity].
  apply plain_skipn; exact Hf.
Qed.

(** X4.  From [run] to the prefix: the file that [run] looks for in a
    directory is stored, whatever the language, under a path with the same
    prefix.  The language files of a component are merged under the same key
    names in every language. *)
Theorem prefix_same_for_every_language (dir language1 language2 : jsstring) :
  plain language1 -> plain language2 ->
  prefixOf (storedPath (langFile language1 dir))
  = prefixOf (storedPath (langFile language2 dir)).
Proof.
  intros H1 H2. unfold langFile.
  set (d := if negb (str_eqb (slice_last dir) (lit "/")) then dir ++ lit "/"
            else dir).
  assert (Hjson : plain (lit ".json")) by (repeat constructor).
  destruct (@storedPath_before_plain d (language1 ++ lit ".json")
              (plain_app H1 Hjson)) as [f1 [Hf1 ->]].
  destruct (@storedPath_before_plain d (language2 ++ lit ".json")
              (plain_app H2 Hjson)) as [f2 [Hf2 ->]].
  rewrite !prefixOf_before_file_name by assumption.
  reflexivity.
Qed.

Lemma prefix_same_for_every_language_example :
  prefixOf (storedPath (langFile (lit "en") (lit "./src/addon/mod_assign/lang")))
  = prefixOf (storedPath (langFile (lit "fr") (lit "./src/addon/mod_assign/lang"))).
Proof.
  apply prefix_same_for_every_language; repeat constructor.
Defined.

(** ** Paths without a known root *)

Lemma dispatch_root_prefix (filepath : jsstring) :
  (dispatch_root filepath = true <-> exists prefix, prefixOf filepath = Some prefix)
  /\ (dispatch_root filepath = false <-> prefixOf filepath = None).
Proof.
  unfold dispatch_root, prefixOf.
  destruct (removelast (split_path filepath)) as [|root rest]; cbn [nth_error].
  - split; split; try discriminate; auto. intros [prefix H]; discriminate.
  - repeat match goal with
           | |- context [if ?b then _ else _] => destruct b; cbn [orb]
           end;
      (split; split;
       [ intros H; try discriminate H; eexists; reflexivity
       | intros [prefix H]; try discriminate H; reflexivity
       | intros H; try discriminate H; reflexivity
       | intros H; try discriminate H; reflexivity ]).
Qed.

(** X5.  A stored path has a prefix exactly when the first of its segments
    before the file name is [lang], [core], [addon] or [assets]; a path
    with another root, or without any directory, has none, and its turn of
    the loop leaves the merged table as it is. *)
Theorem prefix_exactly_for_dispatch_roots (filepath : jsstring) :
  (dispatch_root filepath = true <-> exists prefix, prefixOf filepath = Some prefix)
  /\ (dispatch_root filepath = false <-> prefixOf filepath = None)
  /\ (dispatch_root filepath = false ->
      forall data merged, mergeFile data merged filepath = merged).
Proof.
  destruct (dispatch_root_prefix filepath) as [H1 H2].
  split; [exact H1|]. split; [exact H2|].
  intros Hroot data merged. unfold mergeFile.
  rewrite (proj1 H2 Hroot). reflexivity.
Qed.

Lemma mergeData_nothing (data : jsobject) :
  (forall filepath, In filepath (for_in data) -> prefixOf filepath = None) ->
  mergeData data = new_object.
Proof.
  intros Hnone. rewrite mergeData_define. unfold contributions.
  replace (flat_map _ (for_in data)) with (@nil (jsstring * jsvalue));
    [reflexivity|].
  induction (for_in data) as [|filepath l IH]; simpl; auto.
  rewrite <- IH by (intros fp Hfp; apply Hnone; right; exact Hfp).
  unfold contribution. rewrite (Hnone filepath) by (left; reflexivity).
  destruct (get data filepath); reflexivity.
Qed.

(** X6.  Fragments stored under paths without a known root are dropped
    without a trace: when no path of [data] has one of the four roots, the
    merged table is empty and [treatMergedData] returns the bytes of [{}],
    however many fragments [data] holds. *)
Theorem unknown_roots_give_empty_output (data : jsobject) :
  (forall filepath, In filepath (for_in data) -> dispatch_root filepath = false) ->
  mergeData data = new_object
  /\ treatMergedData data = [x7b; x7d].
Proof.
  intros Hroot.
  assert (H : mergeData data = new_object).
  { apply mergeData_nothing. intros filepath Hin.
    apply (proj1 (proj2 (dispatch_root_prefix filepath))), Hroot, Hin. }
  split; [exact H|]. unfold treatMergedData. rewrite H. reflexivity.
Qed.

Lemma unknown_roots_give_empty_output_example :
  treatMergedData
    (mkObject [(lit "e/user/app/lang/en.json", member_value "x" "A");
               (lit "en.json", member_value "y" "B")] ObjectPrototype)
  = [x7b; x7d].
Proof.
  apply unknown_roots_give_empty_output.
  intros filepath [<- | [<- | []]]; reflexivity.
Defined.

(** X7.  A file directly in [core] or in [assets] has no second segment:
    the array read gives [undefined], and the prefix is [core.undefined] or
    [assets.undefined]. *)
Theorem missing_second_segment_gives_undefined (filename : jsstring) :
  plain filename ->
  prefixOf (lit "core/" ++ filename) = Some (lit "core.undefined")
  /\ prefixOf (lit "assets/" ++ filename) = Some (lit "assets.undefined").
Proof.
  intros Hf. split.
  - rewrite prefixOf_before_file_name by exact Hf. reflexivity.
  - rewrite prefixOf_before_file_name by exact Hf. reflexivity.
Qed.

Lemma missing_second_segment_gives_undefined_example :
  prefixOf (lit "core/" ++ lit "en.json") = Some (lit "core.undefined").
Proof.
  apply missing_second_segment_gives_undefined. repeat constructor.
Defined.

(** ** The keys of the merged table *)

Lemma merged_key_origin (data : jsobject) (q : jsstring) :
  In q (keys (mergeData data)) ->
  exists filepath prefix key,
    prefixOf filepath = Some prefix /\ q = prefix ++ lit "." ++ key.
Proof.
  rewrite mergeData_define. unfold keys; cbn [own].
  rewrite keys_object_of_in. unfold contributions. intros H.
  apply in_map_iff in H. destruct H as [[q' v] [Hfst H]].
  simpl in Hfst; subst q'. apply in_flat_map in H.
  destruct H as [filepath [_ H]].
  destruct (get data filepath) as [fragment|]; [|contradiction].
  unfold contribution in H.
  destruct (prefixOf filepath) as [prefix|] eqn:E; [|contradiction].
  apply in_map_iff in H. destruct H as [[key v'] [Heq _]].
  injection Heq as <- _. exists filepath, prefix, key. split; [exact E | reflexivity].
Qed.

(** X8.  Every key of the merged table lies in one of three namespaces: it
    begins with [core.], with [addon.] or with [assets.], whatever [data]
    holds. *)
Theorem merged_keys_are_namespaced (data : jsobject) (q : jsstring) :
  In q (keys (mergeData data)) ->
  starts_with (lit "core.") q = true
  \/ starts_with (lit "addon.") q = true
  \/ starts_with (lit "assets.") q = true.
Proof.
  intros H. destruct (merged_key_origin _ _ H) as [filepath [prefix [key [Hp ->]]]].
  unfold prefixOf in Hp.
  destruct (nth_error (removelast (split_path filepath)) 0); [|discriminate].
  repeat match type of Hp with
         | (if ?b then _ else _) = _ => destruct b
         end; try discriminate; injection Hp as <-; auto.
Qed.

Lemma merged_keys_are_namespaced_example :
  starts_with (lit "core.") (lit "addon.mod_assign.baz") = true
  \/ starts_with (lit "addon.") (lit "addon.mod_assign.baz") = true
  \/ starts_with (lit "assets.") (lit "addon.mod_assign.baz") = true.
Proof.
  apply (@merged_keys_are_namespaced
           (fst (treatFiles sample_parse addon_run new_object))).
  left; reflexivity.
Defined.

(** ** [addProperties] *)

Lemma addProperties_define_general (target : jsobject) (prefix : jsstring)
  (l : properties) :
  (forall k, In k (map fst l) -> prefix ++ k <> proto_key) ->
  fold_left (fun target property_value =>
               put target (prefix ++ fst property_value) (snd property_value))
            l target =
  mkObject (fold_left (@define jsvalue)
              (map (fun kv => (prefix ++ fst kv, snd kv)) l) (own target))
           (proto target).
Proof.
  revert target; induction l as [|[k v] l IH]; intros target Hnp; simpl.
  - destruct target; reflexivity.
  - rewrite IH by (intros k' Hk'; apply Hnp; right; exact Hk').
    rewrite put_define
      by (apply str_eqb_neq, Hnp; left; reflexivity).
    reflexivity.
Qed.

Lemma prefixed_keys_nodup (prefix : jsstring) (l : properties) :
  NoDup (map fst l) ->
  NoDup (map fst (map (fun kv => (prefix ++ fst kv, snd kv)) l)).
Proof.
  induction l as [|[k v] rest IH]; simpl; intros Hnd; constructor;
    inversion Hnd as [|? ? Hnot Hnd']; subst; auto.
  intros Hin. apply Hnot.
  rewrite map_map in Hin. apply in_map_iff in Hin.
  destruct Hin as [[k' v'] [Heq Hin]]. simpl in Heq.
  apply app_inv_head in Heq. subst k'.
  exact (in_map fst _ _ Hin).
Qed.

(** X9.  [addProperties] copies and keeps.  Provided no copied key becomes
    [__proto__], every property of the source is afterwards in the target
    under the prefixed key with its value, every other key of the target
    reads as before, no key of the target is lost, and the prototype of the
    target is untouched. *)
Theorem addProperties_copies_and_keeps (target : jsobject) (source : jsvalue)
  (prefix : jsstring) :
  (forall k, In k (map fst (enumerate source)) -> prefix ++ k <> proto_key) ->
  let result := addProperties target source prefix in
  proto result = proto target
  /\ (forall k v, lookup (enumerate source) k = Some v ->
                  lookup (own result) (prefix ++ k) = Some v)
  /\ (forall q, (forall k, In k (map fst (enumerate source)) ->
                           q <> prefix ++ k) ->
                lookup (own result) q = lookup (own target) q)
  /\ (forall q, In q (keys target) -> In q (keys result)).
Proof.
  intros Hnp. cbv zeta. unfold addProperties.
  rewrite addProperties_define_general by exact Hnp. cbn [own proto].
  split; [reflexivity|]. split; [|split].
  - intros k v Hk. rewrite lookup_fold_define.
    replace (lookup (rev _) (prefix ++ k)) with (Some v); [reflexivity|].
    symmetry. apply in_lookup.
    + rewrite map_rev. apply NoDup_rev, prefixed_keys_nodup, enumerate_nodup.
    + apply in_rev. rewrite rev_involutive. apply lookup_in in Hk.
      apply in_map_iff. exists (k, v). split; [reflexivity | exact Hk].
  - intros q Hq. rewrite lookup_fold_define.
    replace (lookup (rev _) q) with (@None jsvalue); [reflexivity|].
    symmetry. apply lookup_none_keys.
    rewrite map_rev, <- in_rev, map_map. intros Hin.
    apply in_map_iff in Hin. destruct Hin as [[k v] [Heq Hin]].
    simpl in Heq. apply (Hq k); [exact (in_map fst _ _ Hin) | auto].
  - intros q Hq. unfold keys; cbn [own]. apply keys_fold_define_in.
    right; exact Hq.
Qed.

Lemma addProperties_copies_and_keeps_example :
  lookup (own (addProperties
                 (mkObject [(lit "core.yes", JString (lit "Yes"))]
                           ObjectPrototype)
                 (member_value "baz" "Baz") (lit "addon.mod_assign.")))
         (lit "addon.mod_assign." ++ lit "baz")
  = Some (JString (lit "Baz")).
Proof.
  assert (Hnp : forall k,
            In k (map fst (enumerate (member_value "baz" "Baz"))) ->
            lit "addon.mod_assign." ++ k <> proto_key).
  { intros k [<- | []]. discriminate. }
  apply (proj1 (proj2 (@addProperties_copies_and_keeps
                         (mkObject [(lit "core.yes", JString (lit "Yes"))]
                                   ObjectPrototype)
                         (member_value "baz" "Baz") (lit "addon.mod_assign.")
                         Hnp))).
  reflexivity.
Defined.

(** ** [treatFile] and the other entries of [data] *)

Lemma put_frame (o : jsobject) (k : jsstring) (v : jsvalue) (k' : jsstring) :
  k' <> k -> lookup (own (put o k v)) k' = lookup (own o) k'.
Proof.
  intros Hne. assert (E : str_eqb k k' = false)
    by (apply str_eqb_neq; congruence).
  unfold put. destruct (has_key (own o) k) eqn:Hk; cbn [own].
  - rewrite lookup_replace, E. reflexivity.
  - destruct (str_eqb k proto_key && setter_reachable o).
    + destruct v; reflexivity.
    + cbn [own]. rewrite lookup_add_property by exact Hk. rewrite E. reflexivity.
Qed.

Lemma put_keeps_keys (o : jsobject) (k : jsstring) (v : jsvalue)
  (k' : jsstring) :
  In k' (keys o) -> In k' (keys (put o k v)).
Proof.
  unfold put, keys. intros Hin.
  destruct (has_key (own o) k); cbn [own].
  - rewrite keys_replace; exact Hin.
  - destruct (str_eqb k proto_key && setter_reachable o).
    + destruct v; exact Hin.
    + cbn [own].
      apply (Permutation_in _ (Permutation_sym (keys_add_property k v (own o)))).
      right; exact Hin.
Qed.

Lemma put_keeps_proto (o : jsobject) (k : jsstring) (v : jsvalue) :
  k <> proto_key -> proto (put o k v) = proto o.
Proof.
  intros Hne. assert (E : str_eqb k proto_key = false)
    by (apply str_eqb_neq; exact Hne).
  rewrite put_define by exact E. reflexivity.
Qed.

Lemma put_keeps_for_in (o : jsobject) (k : jsstring) (v : jsvalue)
  (k' : jsstring) :
  k <> proto_key -> In k' (for_in o) -> In k' (for_in (put o k v)).
Proof.
  intros Hne Hin. unfold for_in, inherited in *.
  rewrite (put_keeps_proto o v Hne).
  apply in_app_or in Hin. apply in_or_app.
  destruct Hin as [Hin | Hin].
  - left. apply (@put_keeps_keys o k v k'). exact Hin.
  - apply filter_In in Hin. destruct Hin as [Hin _].
    destruct (has_key (own (put o k v)) k') eqn:E.
    + left. apply has_key_keys. exact E.
    + right. apply filter_In. split; [exact Hin|]. rewrite E. reflexivity.
Qed.

(** X10.  [treatFile] changes at most the own entry of [data] under the
    stored path of the file: every other own entry is as before and no own
    key is removed, whether the file parses or not.  When the stored path is
    not [__proto__] the prototype of [data] is left alone as well, so every
    other key reads through [data[k]] the value it read before, and the
    [for]-[in] loop loses no key.  A file stored under [__proto__] is
    another matter: treated on the empty [data] it adds no own entry, and
    the key [x] of its fragment, which read [undefined], reads [A]. *)
Theorem treatFile_touches_only_its_path
  (JSON_parse : list byte -> parse_result) (file : vinyl) (data : jsobject) :
  (forall k, k <> storedPath (path file) ->
             lookup (own (fst (treatFile JSON_parse file data))) k
             = lookup (own data) k)
  /\ (forall k, In k (keys data) ->
                In k (keys (fst (treatFile JSON_parse file data))))
  /\ (storedPath (path file) <> proto_key ->
      proto (fst (treatFile JSON_parse file data)) = proto data
      /\ (forall k, k <> storedPath (path file) ->
                    get (fst (treatFile JSON_parse file data)) k = get data k)
      /\ (forall k, In k (for_in data) ->
                    In k (for_in (fst (treatFile JSON_parse file data)))))
  /\ (let moved := fst (treatFile sample_parse
                          (sample_file "/app/src/__proto__" "x" "A")
                          new_object) in
      storedPath (lit "/app/src/__proto__") = proto_key
      /\ own moved = []
      /\ get new_object (lit "x") = None
      /\ get moved (lit "x") = Some (JString (lit "A"))).
Proof.
  rewrite treatFile_accepted.
  destruct (accepted JSON_parse file) as [[relative fragment]|] eqn:E.
  - apply accepted_path in E. subst relative. cbn [fst snd].
    split; [|split; [|split]].
    + intros k Hk. apply put_frame; exact Hk.
    + intros k Hk. apply put_keeps_keys; exact Hk.
    + intros Hne. split; [|split].
      * apply put_keeps_proto; exact Hne.
      * intros k Hk. unfold get, inherited.
        rewrite (put_keeps_proto data fragment Hne), put_frame by exact Hk.
        reflexivity.
      * intros k Hk. apply put_keeps_for_in; assumption.
    + repeat split.
  - split; [|split; [|split]]; auto; repeat split.
Qed.

Lemma treatFile_touches_only_its_path_example :
  get (fst (treatFile sample_parse (sample_file "/b/src/core/lang/en.json" "y" "B")
              (fst (treatFile sample_parse
                      (sample_file "/a/src/lang/en.json" "x" "A") new_object))))
      (lit "lang/en.json")
  = Some (member_value "x" "A").
Proof.
  pose proof (@treatFile_touches_only_its_path sample_parse
                (sample_file "/b/src/core/lang/en.json" "y" "B")
                (fst (treatFile sample_parse
                        (sample_file "/a/src/lang/en.json" "x" "A") new_object)))
    as (_ & _ & H & _).
  assert (Hne : storedPath (path (sample_file "/b/src/core/lang/en.json" "y" "B"))
                <> proto_key) by (vm_compute; discriminate).
  destruct (H Hne) as (_ & Hget & _).
  rewrite (Hget (lit "lang/en.json")) by (vm_compute; discriminate).
  reflexivity.
Defined.

Lemma replace_same (A : Type) (props : list (jsstring * A)) (k : jsstring)
  (v : A) :
  lookup props k = Some v -> replace k v props = props.
Proof.
  induction props as [|[k' v'] rest IH]; simpl; auto.
  destruct (str_eqb k' k).
  - intros [= ->]. reflexivity.
  - intros H. rewrite IH by exact H. reflexivity.
Qed.

Lemma put_again (o : jsobject) (k : jsstring) (v : jsvalue) :
  lookup (own o) k = Some v -> put o k v = o.
Proof.
  intros H. unfold put, has_key. rewrite H, replace_same by exact H.
  destruct o; reflexivity.
Qed.

(** X11.  Treating a file a second time leaves [data] as the first
    treatment left it, and writes the lines of the file to the console once
    more.  For a file whose name ends with [.json], [data] after the file
    was treated twice in a row is [data] after it was treated once; the
    second treatment writes the lines the first one wrote, so the console of
    the two treatments holds them twice: a file that does not parse leaves
    its diagnostic twice.  A file whose fragment [data] already holds under
    its stored path leaves [data] as it is. *)
Theorem treatFile_again_keeps_data
  (JSON_parse : list byte -> parse_result) (file : vinyl) (data : jsobject) :
  (exists stem, path file = stem ++ lit ".json") ->
  fst (treatFile JSON_parse file (fst (treatFile JSON_parse file data)))
  = fst (treatFile JSON_parse file data)
  /\ snd (treatFile JSON_parse file (fst (treatFile JSON_parse file data)))
     = snd (treatFile JSON_parse file data)
  /\ treatFiles JSON_parse [file; file] data
     = (fst (treatFile JSON_parse file data),
        snd (treatFile JSON_parse file data)
        ++ snd (treatFile JSON_parse file data))
  /\ (forall relative fragment data',
        accepted JSON_parse file = Some (relative, fragment) ->
        lookup (own data') relative = Some fragment ->
        fst (treatFile JSON_parse file data') = data')
  /\ snd (treatFiles sample_parse
            [broken_file "/app/src/lang/en.json";
             broken_file "/app/src/lang/en.json"] new_object)
     = [lit "Error parsing JSON: SyntaxError: Unexpected token o in JSON at position 0";
        lit "Error parsing JSON: SyntaxError: Unexpected token o in JSON at position 0"].
Proof.
  intros [stem Hpath].
  assert (Hagain : treatFile JSON_parse file
                     (fst (treatFile JSON_parse file data))
                   = treatFile JSON_parse file data).
  { unfold treatFile. destruct (contents file) as [| |bytes]; try reflexivity.
    destruct (JSON_parse bytes) as [v|message]; [|reflexivity].
    cbn [fst]. f_equal. apply put_again.
    assert (Hord : ordinary_key (storedPath (path file)) = true).
    { rewrite Hpath. destruct (storedPath_suffix (stem ++ lit ".json")) as [n ->].
      apply json_suffix_ordinary. }
    rewrite put_define by (apply ordinary_not_proto; exact Hord).
    cbn [own]. rewrite lookup_define, str_eqb_refl. reflexivity. }
  split; [|split; [|split; [|split]]].
  - rewrite Hagain. reflexivity.
  - rewrite Hagain. reflexivity.
  - unfold treatFiles. cbn [fold_left fst snd].
    destruct (treatFile JSON_parse file data) as [data1 lines1] eqn:E1.
    cbn [fst snd] in *.
    rewrite Hagain. reflexivity.
  - intros relative fragment data' Hacc Hlook.
    rewrite treatFile_accepted, Hacc. cbn [fst snd].
    apply put_again; exact Hlook.
  - reflexivity.
Qed.

Lemma treatFile_again_keeps_data_example :
  treatFiles sample_parse
    [sample_file "/a/src/lang/en.json" "x" "A";
     sample_file "/a/src/lang/en.json" "x" "A"] new_object
  = (mkObject [(lit "lang/en.json", member_value "x" "A")] ObjectPrototype, []).
Proof.
  pose proof (@treatFile_again_keeps_data sample_parse
                (sample_file "/a/src/lang/en.json" "x" "A") new_object
                (ex_intro _ (lit "/a/src/lang/en") eq_refl))
    as (_ & _ & H & _).
  rewrite H. reflexivity.
Defined.

(** ** The order of the files *)

Lemma fold_define_appends (members acc : properties) :
  NoDup (map fst members) ->
  (forall k, In k (map fst members) -> ordinary_key k = true) ->
  (forall k, In k (map fst members) -> ~ In k (map fst acc)) ->
  fold_left (@define jsvalue) members acc = acc ++ members.
Proof.
  revert acc; induction members as [|[k v] rest IH]; intros acc Hnd Hord Hnew;
    simpl.
  - rewrite app_nil_r; reflexivity.
  - inversion Hnd as [|? ? Hk Hnd']; subst.
    rewrite define_new_ordinary
      by (apply Hord || apply Hnew; left; reflexivity).
    rewrite IH; auto.
    + rewrite <- app_assoc; reflexivity.
    + intros k' Hk'; apply Hord; right; exact Hk'.
    + intros k' Hk'. rewrite map_app, in_app_iff; simpl.
      intros [H | [H | []]].
      * apply (Hnew k'); [right; exact Hk' | exact H].
      * subst k'; tauto.
Qed.

Lemma flat_map_ext_in (A B : Type) (f g : A -> list B) (l : list A) :
  (forall x, In x l -> f x = g x) -> flat_map f l = flat_map g l.
Proof.
  induction l as [|x l IH]; simpl; intros H; auto.
  rewrite H by (left; reflexivity).
  rewrite IH by (intros y Hy; apply H; right; exact Hy). reflexivity.
Qed.

Lemma contributions_of_stored (stored : properties) :
  NoDup (map fst stored) ->
  contributions (mkObject stored ObjectPrototype) = all_contributions stored.
Proof.
  intros Hnd. unfold contributions, all_contributions, for_in, inherited, get.
  cbn [own proto map filter]. rewrite app_nil_r.
  rewrite flat_map_concat_map, map_map, <- flat_map_concat_map.
  apply flat_map_ext_in. intros [filepath fragment] Hin. cbn [fst snd].
  rewrite (in_lookup _ _ _ Hnd Hin). reflexivity.
Qed.

Lemma lookup_permutation (A : Type) (a b : list (jsstring * A)) (q : jsstring) :
  NoDup (map fst a) -> Permutation a b -> lookup a q = lookup b q.
Proof.
  intros Hnd Hperm.
  assert (Hnd' : NoDup (map fst b))
    by (apply (Permutation_NoDup (Permutation_map fst Hperm)); exact Hnd).
  destruct (lookup a q) as [v|] eqn:E.
  - symmetry. apply in_lookup; [exact Hnd'|].
    apply (Permutation_in _ Hperm), lookup_in, E.
  - symmetry. apply lookup_none_keys. apply lookup_none_keys in E.
    intros Hin. apply E.
    apply (Permutation_in _ (Permutation_sym (Permutation_map fst Hperm))), Hin.
Qed.

Section FileOrder.

Variable JSON_parse : list byte -> parse_result.

Lemma data_of_distinct_paths (files : list vinyl) :
  (forall file, In file files -> exists stem, path file = stem ++ lit ".json") ->
  NoDup (map fst (fragments JSON_parse files)) ->
  fst (treatFiles JSON_parse files new_object)
  = mkObject (fragments JSON_parse files) ObjectPrototype.
Proof.
  intros Hjson Hnd.
  pose proof (json_files_ordinary JSON_parse files Hjson) as Hord.
  rewrite treatFiles_fragments, fold_put_define by exact Hord.
  cbn [own proto new_object].
  rewrite fold_define_appends; auto.
Qed.

Lemma merged_of_distinct_paths (files : list vinyl) (q : jsstring) :
  (forall file, In file files -> exists stem, path file = stem ++ lit ".json") ->
  NoDup (map fst (fragments JSON_parse files)) ->
  NoDup (map fst (all_contributions (fragments JSON_parse files))) ->
  get (mergeData (fst (treatFiles JSON_parse files new_object))) q
  = lookup (all_contributions (fragments JSON_parse files)) q.
Proof.
  intros Hjson Hnd Hkeys.
  rewrite get_merged, mergeData_define, data_of_distinct_paths by assumption.
  cbn [own]. rewrite lookup_object_of, contributions_of_stored by exact Hnd.
  apply lookup_permutation.
  - rewrite map_rev. apply NoDup_rev; exact Hkeys.
  - symmetry. apply Permutation_rev.
Qed.

(** X12.  The order of the files matters only for collisions.  When the
    files (named [.json]) are stored under pairwise distinct paths and no
    two fragments give the same qualified key, treating the files in any
    other order gives the same output, byte for byte. *)
Theorem output_same_for_every_order_without_collision
  (files files' : list vinyl) :
  (forall file, In file files -> exists stem, path file = stem ++ lit ".json") ->
  NoDup (map fst (fragments JSON_parse files)) ->
  NoDup (map fst (all_contributions (fragments JSON_parse files))) ->
  Permutation files files' ->
  treatMergedData (fst (treatFiles JSON_parse files' new_object))
  = treatMergedData (fst (treatFiles JSON_parse files new_object)).
Proof.
  intros Hjson Hnd Hkeys Hperm.
  assert (Hfrag : Permutation (fragments JSON_parse files)
                              (fragments JSON_parse files'))
    by (unfold fragments; apply Permutation_flat_map; exact Hperm).
  assert (Hall : Permutation (all_contributions (fragments JSON_parse files))
                             (all_contributions (fragments JSON_parse files')))
    by (unfold all_contributions; apply Permutation_flat_map; exact Hfrag).
  assert (Hjson' : forall file, In file files' ->
                                exists stem, path file = stem ++ lit ".json")
    by (intros file Hin; apply Hjson;
        apply (Permutation_in _ (Permutation_sym Hperm)); exact Hin).
  assert (Hnd' : NoDup (map fst (fragments JSON_parse files')))
    by (apply (Permutation_NoDup (Permutation_map fst Hfrag)); exact Hnd).
  assert (Hkeys' : NoDup (map fst (all_contributions
                                     (fragments JSON_parse files'))))
    by (apply (Permutation_NoDup (Permutation_map fst Hall)); exact Hkeys).
  unfold treatMergedData. do 2 f_equal.
  apply orderKeys_same_entries. intros key.
  rewrite !merged_of_distinct_paths by assumption.
  symmetry. apply lookup_permutation; assumption.
Qed.

End FileOrder.

Lemma output_same_for_every_order_example :
  treatMergedData
    (fst (treatFiles sample_parse
            [sample_file "/a/src/core/lang/en.json" "y" "B";
             sample_file "/a/src/lang/en.json" "x" "A"] new_object))
  = treatMergedData
      (fst (treatFiles sample_parse
              [sample_file "/a/src/lang/en.json" "x" "A";
               sample_file "/a/src/core/lang/en.json" "y" "B"] new_object)).
Proof.
  apply output_same_for_every_order_without_collision.
  - intros file [<- | [<- | []]].
    + exists (lit "/a/src/lang/en"); reflexivity.
    + exists (lit "/a/src/core/lang/en"); reflexivity.
  - vm_compute. repeat constructor; simpl; intuition discriminate.
  - vm_compute. repeat constructor; simpl; intuition discriminate.
  - apply perm_swap.
Defined.

(** ** The lines of the console *)

(** X13.  A run writes one line to the console for each file whose text
    does not parse, in the order of the files, and nothing for the other
    files; each line begins with [Error parsing JSON: SyntaxError]; the
    lines do not depend on what [data] holds. *)
Theorem console_has_one_line_per_failure
  (JSON_parse : list byte -> parse_result) (files : list vinyl)
  (data : jsobject) :
  length (snd (treatFiles JSON_parse files data))
  = length (filter (fails_to_parse JSON_parse) files)
  /\ (forall line, In line (snd (treatFiles JSON_parse files data)) ->
        starts_with (lit "Error parsing JSON: SyntaxError") line = true)
  /\ (forall before file after,
        files = before ++ file :: after ->
        fails_to_parse JSON_parse file = false ->
        snd (treatFiles JSON_parse files data)
        = snd (treatFiles JSON_parse (before ++ after) data))
  /\ (forall data', snd (treatFiles JSON_parse files data')
                    = snd (treatFiles JSON_parse files data)).
Proof.
  rewrite treatFiles_lines. split; [|split; [|split]].
  - induction files as [|file files IH]; simpl; auto.
    rewrite length_app, IH. unfold diagnostic, fails_to_parse.
    destruct (contents file) as [| |bytes]; try reflexivity.
    destruct (JSON_parse bytes); reflexivity.
  - intros line Hin. apply in_flat_map in Hin. destruct Hin as [file [_ Hin]].
    unfold diagnostic in Hin. destruct (contents file) as [| |bytes];
      try contradiction.
    destruct (JSON_parse bytes) as [v|message]; [contradiction|].
    destruct Hin as [<- | []]. unfold error_to_string.
    destruct message; reflexivity.
  - intros before file after -> Hok. rewrite treatFiles_lines, !flat_map_app.
    cbn [flat_map]. unfold diagnostic at 2. unfold fails_to_parse in Hok.
    destruct (contents file) as [| |bytes]; try reflexivity.
    destruct (JSON_parse bytes); [reflexivity | discriminate Hok].
  - intros data'. rewrite treatFiles_lines. reflexivity.
Qed.

(** ** Separators *)

(** X14.  The two separators are alike for the prefix: a stored path with
    its backslashes replaced by slashes has the same segments and the same
    prefix. *)
Theorem prefix_same_for_either_separator (filepath : jsstring) :
  split_path (to_slashes filepath) = split_path filepath
  /\ prefixOf (to_slashes filepath) = prefixOf filepath.
Proof.
  assert (H : split_path (to_slashes filepath) = split_path filepath).
  { induction filepath as [|c s IH]; [reflexivity|].
    cbn [to_slashes map split_path]. fold (to_slashes s). rewrite IH.
    destruct (N.eqb c 92) eqn:E.
    - apply N.eqb_eq in E; subst c. reflexivity.
    - reflexivity. }
  split; [exact H|]. unfold prefixOf. rewrite H. reflexivity.
Qed.

(** ** The layout of the addons *)

(** X15.  For the layout [addon/<name>/.../<name>/lang/<file>] with any
    number of names, the prefix is [addon.] followed by the names joined with
    [_]: the slashes between the names become underscores. *)
Theorem addon_layout_prefix (names : list jsstring) (filename : jsstring) :
  Forall plain names -> plain filename ->
  prefixOf (join (lit "/")
                 ((lit "addon" :: names ++ [lit "lang"]) ++ [filename]))
  = Some (lit "addon." ++ join (lit "_") names).
Proof.
  intros Hnames Hfile.
  assert (Hsegs : removelast (split_path
                    (join (lit "/")
                       ((lit "addon" :: names ++ [lit "lang"]) ++ [filename])))
                  = lit "addon" :: names ++ [lit "lang"]).
  { apply segments_of_joined_path; [|exact Hfile].
    constructor; [repeat constructor|].
    apply Forall_app; split; [exact Hnames | repeat constructor]. }
  rewrite (prefixOf_addon _ Hsegs), removelast_last. reflexivity.
Qed.

Lemma addon_layout_prefix_example :
  prefixOf (lit "addon/mod_assign/feedback_comments/lang/en.json")
  = Some (lit "addon.mod_assign_feedback_comments").
Proof.
  apply (@addon_layout_prefix [lit "mod_assign"; lit "feedback_comments"]
           (lit "en.json")); repeat constructor.
Defined.
